(** * LFU cache (internal/lfu/lfu.go): shallow embedding and verification

    The Go implementation is a doubly linked list of frequency buckets, each
    owning a doubly linked list of entries, plus a [map] from keys to entry
    nodes.  The embedding keeps the pointer structure: nodes live in arenas
    (one per node type), a pointer is [option loc] with [None] for [nil], and
    every method reads and writes fields exactly where the Go code does.  A
    [nil] dereference is the outcome [Panic]; a loop that exhausts its fuel is
    the distinct outcome [Timeout].

    Go's [int] is modelled by [Z].  The only arithmetic on it is [freq + 1]
    and [Size() + 1]; a frequency is bounded by the number of calls made on
    the cache, so machine overflow is out of reach of any run. *)

From Stdlib Require Import ZArith Lia.
From stdpp Require Import gmap list sorting.

Set Default Proof Using "Type".
Open Scope Z_scope.

(** ** Outcomes *)

Inductive result (A : Type) : Type :=
| Ok (a : A)
| Panic
| Timeout.
Arguments Ok {A} a.
Arguments Panic {A}.
Arguments Timeout {A}.

#[global] Instance result_ret : MRet result := λ A a, Ok a.
#[global] Instance result_bind : MBind result := λ A B f m,
  match m with
  | Ok a => f a
  | Panic => Panic
  | Timeout => Timeout
  end.

Abbreviation loc := nat.
Abbreviation ptr := (option loc).
Abbreviation nil := (@None loc).

(** ** The doubly linked list primitive *)

Module LinkedList.
Section LinkedList.
Context {Data : Type}.

Record linkedListNode : Type := mkNode {
  data : Data;
  next : ptr;
  prev : ptr;
}.

Record linkedList : Type := mkList {
  head : ptr;
  tail : ptr;
}.

Abbreviation heap := (list linkedListNode).

Definition set_data (d : Data) (n : linkedListNode) : linkedListNode :=
  {| data := d; next := next n; prev := prev n |}.
Definition set_next (p : ptr) (n : linkedListNode) : linkedListNode :=
  {| data := data n; next := p; prev := prev n |}.
Definition set_prev (p : ptr) (n : linkedListNode) : linkedListNode :=
  {| data := data n; next := next n; prev := p |}.

(** Dereference of [p] for reading. *)
Definition load (h : heap) (p : ptr) : result linkedListNode :=
  match p with
  | Some a => match h !! a with Some n => Ok n | None => Panic end
  | None => Panic
  end.

(** A field write through [p]. *)
Definition update (h : heap) (p : ptr)
    (f : linkedListNode → linkedListNode) : result heap :=
  n ← load h p;
  match p with
  | Some a => Ok (<[a := f n]> h)
  | None => Panic
  end.

(** [new(linkedListNode[Data])] followed by [node.data = data] *)
Definition new (h : heap) (d : Data) : ptr * heap :=
  (Some (length h), h ++ [{| data := d; next := nil; prev := nil |}]).

Definition addNode (node : ptr) (s : heap * linkedList)
    : result (ptr * (heap * linkedList)) :=
  let '(h, l) := s in
  h ← update h node (set_prev (tail l));
  h ← update h node (set_next nil);
  '(h, l) ← (if decide (tail l = nil)
             then Ok (h, {| head := node; tail := tail l |})
             else h ← update h (tail l) (set_next node); Ok (h, l));
  Ok (node, (h, {| head := head l; tail := node |})).

Definition add (d : Data) (s : heap * linkedList)
    : result (ptr * (heap * linkedList)) :=
  let '(h, l) := s in
  let '(node, h) := new h d in
  addNode node (h, l).

Definition insertAfter (pivot : ptr) (d : Data) (s : heap * linkedList)
    : result (ptr * (heap * linkedList)) :=
  let '(h, l) := s in
  pv ← load h pivot;
  let pNext := next pv in
  let '(node, h) := new h d in
  h ← update h pivot (set_next node);
  h ← update h node (set_prev pivot);
  h ← update h node (set_next pNext);
  '(h, l) ← (if decide (pNext ≠ nil)
             then h ← update h pNext (set_prev node); Ok (h, l)
             else Ok (h, {| head := head l; tail := node |}));
  Ok (node, (h, l)).

Definition isEmpty (l : linkedList) : bool :=
  bool_decide (head l = nil).

Definition remove (node : ptr) (s : heap * linkedList)
    : result (heap * linkedList) :=
  let '(h, l) := s in
  if decide (head l = node ∧ tail l = node)
  then Ok (h, {| head := nil; tail := nil |})
  else
    nd ← load h node;
    let nPrev := prev nd in
    let nNext := next nd in
    '(h, l) ← (if decide (nPrev ≠ nil)
               then h ← update h nPrev (set_next nNext); Ok (h, l)
               else Ok (h, {| head := nNext; tail := tail l |}));
    '(h, l) ← (if decide (nNext ≠ nil)
               then h ← update h nNext (set_prev nPrev); Ok (h, l)
               else Ok (h, {| head := head l; tail := nPrev |}));
    Ok (h, l).

(** *** Well-formed lists

    [dseg h p locs q]: the nodes at [locs], in this order, are chained by
    their [next] and [prev] fields; the first one has [prev = p] and the
    last one has [next = q]. *)
Definition hd_ptr (locs : list loc) (q : ptr) : ptr :=
  match locs with
  | [] => q
  | a :: _ => Some a
  end.

Definition last_ptr (locs : list loc) (p : ptr) : ptr :=
  match last locs with
  | None => p
  | Some a => Some a
  end.

Fixpoint dseg (h : heap) (p : ptr) (locs : list loc) (q : ptr) : Prop :=
  match locs with
  | [] => True
  | a :: locs' =>
      (∃ n, h !! a = Some n ∧ prev n = p ∧ next n = hd_ptr locs' q)
      ∧ dseg h (Some a) locs' q
  end.

(** [dll h locs l]: the header [l] delimits the list whose nodes are
    exactly [locs], from head to tail. *)
Definition dll (h : heap) (locs : list loc) (l : linkedList) : Prop :=
  NoDup locs ∧ dseg h nil locs nil
  ∧ head l = hd_ptr locs nil ∧ tail l = last_ptr locs nil.
End LinkedList.
Arguments linkedListNode : clear implicits.
End LinkedList.
Import LinkedList.

(** ** The cache *)

Inductive error : Type := ErrKeyNotFound.

Definition DefaultCapacity : Z := 5.

Section Cache.
Context {K V : Type} `{Countable K}.
(** The zero value of [V], returned by [Get] next to [ErrKeyNotFound]. *)
Context (zeroV : V).

Record cacheData : Type := mkData {
  key : K;
  value : V;
  container : ptr;
}.

Record sameFreqContainer : Type := mkContainer {
  freq : Z;
  entries : linkedList;
}.

(** [cacheImpl] together with the two arenas its pointers point into. *)
Record cacheImpl : Type := mkCache {
  enodes : list (linkedListNode cacheData);
  bnodes : list (linkedListNode sameFreqContainer);
  index : gmap K ptr;
  sequence : linkedList;
  capacity : Z;
}.

Definition set_enodes (h : list (linkedListNode cacheData)) (c : cacheImpl) :=
  {| enodes := h; bnodes := bnodes c; index := index c;
     sequence := sequence c; capacity := capacity c |}.
Definition set_bnodes (h : list (linkedListNode sameFreqContainer)) (c : cacheImpl) :=
  {| enodes := enodes c; bnodes := h; index := index c;
     sequence := sequence c; capacity := capacity c |}.
Definition set_index (m : gmap K ptr) (c : cacheImpl) :=
  {| enodes := enodes c; bnodes := bnodes c; index := m;
     sequence := sequence c; capacity := capacity c |}.
Definition set_sequence (l : linkedList) (c : cacheImpl) :=
  {| enodes := enodes c; bnodes := bnodes c; index := index c;
     sequence := l; capacity := capacity c |}.

Definition set_entries (l : linkedList) (b : sameFreqContainer) :=
  {| freq := freq b; entries := l |}.
Definition set_value (v : V) (d : cacheData) :=
  {| key := key d; value := v; container := container d |}.
Definition set_container (p : ptr) (d : cacheData) :=
  {| key := key d; value := value d; container := p |}.

Definition emptyList : linkedList := {| head := nil; tail := nil |}.

Definition New (capacity : list Z) : result cacheImpl :=
  if decide (1 < length capacity)%nat then Panic
  else
    let cap := match capacity with
               | [c] => c
               | _ => DefaultCapacity
               end in
    if decide (cap < 0) then Panic
    else
      '(_, (bh, sq)) ← add {| freq := 1; entries := emptyList |} ([], emptyList);
      Ok {| enodes := []; bnodes := bh; index := ∅; sequence := sq;
            capacity := cap |}.

(** [n.data.container] *)
Definition container_of (c : cacheImpl) (n : ptr) : result ptr :=
  nd ← load (enodes c) n;
  Ok (container (data nd)).

(** [b.data], for a bucket pointer [b] *)
Definition bucket_of (c : cacheImpl) (b : ptr) : result sameFreqContainer :=
  bn ← load (bnodes c) b;
  Ok (data bn).

(** A method [m] of [linkedList] called on [b.data.entries]: the list
    header is read from the bucket node and written back to it. *)
Definition on_entries {A} (b : ptr)
    (m : list (linkedListNode cacheData) * linkedList →
         result (A * (list (linkedListNode cacheData) * linkedList)))
    (c : cacheImpl) : result (A * cacheImpl) :=
  bk ← bucket_of c b;
  '(a, (eh, el)) ← m (enodes c, entries bk);
  bh ← update (bnodes c) b (λ bn, set_data (set_entries el (data bn)) bn);
  Ok (a, set_bnodes bh (set_enodes eh c)).

(** A method [m] of [linkedList] called on [l.sequence]. *)
Definition on_sequence {A}
    (m : list (linkedListNode sameFreqContainer) * linkedList →
         result (A * (list (linkedListNode sameFreqContainer) * linkedList)))
    (c : cacheImpl) : result (A * cacheImpl) :=
  '(a, (bh, sq)) ← m (bnodes c, sequence c);
  Ok (a, set_sequence sq (set_bnodes bh c)).

Definition touch (n : ptr) (c : cacheImpl) : result cacheImpl :=
  cont ← container_of c n;
  bk ← bucket_of c cont;
  let newFreq := freq bk + 1 in
  cont ← container_of c n;
  '(_, c) ← on_entries cont (λ s, r ← remove n s; Ok ((), r)) c;
  cont ← container_of c n;
  cn ← load (bnodes c) cont;
  fresh ← (if decide (next cn = nil) then Ok true
           else nx ← bucket_of c (next cn);
                Ok (bool_decide (freq nx > newFreq)));
  '(target, c) ← (if fresh : bool
                  then cont ← container_of c n;
                       on_sequence (insertAfter cont
                         {| freq := newFreq; entries := emptyList |}) c
                  else cont ← container_of c n;
                       cn ← load (bnodes c) cont;
                       Ok (next cn, c));
  '(_, c) ← on_entries target (addNode n) c;
  cont ← container_of c n;
  bk ← bucket_of c cont;
  c ← (if isEmpty (entries bk) && bool_decide (freq bk > 1)
       then cont ← container_of c n;
            '(_, c) ← on_sequence (λ s, r ← remove cont s; Ok ((), r)) c;
            Ok c
       else Ok c);
  eh ← update (enodes c) n (λ nd, set_data (set_container target (data nd)) nd);
  Ok (set_enodes eh c).

Definition Size (c : cacheImpl) : Z := Z.of_nat (size (index c)).

Definition Capacity (c : cacheImpl) : Z := capacity c.

Definition Get (k : K) (c : cacheImpl)
    : result ((V * option error) * cacheImpl) :=
  match index c !! k with
  | None => Ok ((zeroV, Some ErrKeyNotFound), c)
  | Some n =>
      c ← touch n c;
      nd ← load (enodes c) n;
      Ok ((value (data nd), None), c)
  end.

(** The scan [for cur.data.entries.isEmpty() { cur = cur.next }] of [Put];
    [fuel] bounds the number of iterations. *)
Fixpoint scan (fuel : nat) (c : cacheImpl) (cur : ptr) : result ptr :=
  bk ← bucket_of c cur;
  if isEmpty (entries bk)
  then match fuel with
       | O => Timeout
       | S fuel => cn ← load (bnodes c) cur; scan fuel c (next cn)
       end
  else Ok cur.

Definition Put (fuel : nat) (k : K) (v : V) (c : cacheImpl)
    : result cacheImpl :=
  match index c !! k with
  | Some n =>
      c ← touch n c;
      eh ← update (enodes c) n (λ nd, set_data (set_value v (data nd)) nd);
      Ok (set_enodes eh c)
  | None =>
      c ← (if decide (Size c + 1 > Capacity c)
           then
             cur ← scan fuel c (head (sequence c));
             bk ← bucket_of c cur;
             let hd := head (entries bk) in
             '(_, c) ← on_entries cur (λ s, r ← remove hd s; Ok ((), r)) c;
             hn ← load (enodes c) hd;
             Ok (set_index (delete (key (data hn)) (index c)) c)
           else Ok c);
      '(node, c) ← on_entries (head (sequence c))
                     (add {| key := k; value := v;
                             container := head (sequence c) |}) c;
      Ok (set_index (<[k := node]> (index c)) c)
  end.

Definition GetKeyFrequency (k : K) (c : cacheImpl)
    : result (Z * option error) :=
  match index c !! k with
  | None => Ok (0, Some ErrKeyNotFound)
  | Some n =>
      cont ← container_of c n;
      bk ← bucket_of c cont;
      Ok (freq bk, None)
  end.

(** The inner loop of [All] over one bucket, newest entry first.  The
    consumer's state [S] is threaded through [yield]; the boolean tells
    whether the consumer asked for more. *)
Fixpoint entries_loop {S} (fuel : nat) (c : cacheImpl) (curEntry : ptr)
    (yield : K → V → S → bool * S) (s : S) : result (bool * S) :=
  if decide (curEntry ≠ nil)
  then match fuel with
       | O => Timeout
       | S fuel =>
           en ← load (enodes c) curEntry;
           let '(more, s) := yield (key (data en)) (value (data en)) s in
           if more : bool
           then entries_loop fuel c (prev en) yield s
           else Ok (false, s)
       end
  else Ok (true, s).

(** The outer loop of [All], highest frequency first. *)
Fixpoint buckets_loop {S} (efuel fuel : nat) (c : cacheImpl) (curFreq : ptr)
    (yield : K → V → S → bool * S) (s : S) : result S :=
  if decide (curFreq ≠ nil)
  then match fuel with
       | O => Timeout
       | S fuel =>
           bn ← load (bnodes c) curFreq;
           '(more, s) ← entries_loop efuel c (tail (entries (data bn))) yield s;
           if more : bool
           then buckets_loop efuel fuel c (prev bn) yield s
           else Ok s
       end
  else Ok s.

(** [All()] applied to a consumer: the consumer's final state, and the
    cache as the iteration leaves it. *)
Definition All {S} (fuel : nat) (c : cacheImpl)
    (yield : K → V → S → bool * S) (s : S) : result (S * cacheImpl) :=
  s ← buckets_loop fuel fuel c (tail (sequence c)) yield s;
  Ok (s, c).

(** The consumer [for k, v := range c.All() { out = append(out, (k, v)) }]. *)
Definition collect (k : K) (v : V) (acc : list (K * V)) : bool * list (K * V) :=
  (true, acc ++ [(k, v)]).

(** The consumer that breaks out of the loop after [n] pairs. *)
Definition collect_upto (n : nat) (k : K) (v : V) (acc : list (K * V))
    : bool * list (K * V) :=
  (bool_decide (S (length acc) < n)%nat, acc ++ [(k, v)]).

(** ** Runs of calls *)

Inductive call : Type :=
| CGet (k : K)
| CPut (k : K) (v : V).

Definition exec (fuel : nat) (o : call) (c : cacheImpl) : result cacheImpl :=
  match o with
  | CGet k => r ← Get k c; Ok r.2
  | CPut k v => Put fuel k v c
  end.

Fixpoint run (fuel : nat) (os : list call) (c : cacheImpl) : result cacheImpl :=
  match os with
  | [] => Ok c
  | o :: os => c ← exec fuel o c; run fuel os c
  end.

(** The calls [Put k v] for the pairs of a list, in order. *)
Definition puts (kvs : list (K * V)) : list call :=
  (λ kv, CPut kv.1 kv.2) <$> kvs.

(** The states a client can reach: [New] followed by calls that return. *)
Definition reachable (c : cacheImpl) : Prop :=
  ∃ cap os fuel c0, New cap = Ok c0 ∧ run fuel os c0 = Ok c.

(** ** The abstract picture of a cache

    A cache state is described by the list of its buckets from the lowest
    frequency to the highest, each with the node that holds it and its
    entries from the least recently touched to the most recently touched. *)

Record aentry : Type := mkAEntry {
  eloc : loc;
  ekey : K;
  evalue : V;
}.

Record abucket : Type := mkABucket {
  bloc : loc;
  bfreq : Z;
  bents : list aentry;
}.

Definition with_ents (b : abucket) (es : list aentry) : abucket :=
  {| bloc := bloc b; bfreq := bfreq b; bents := es |}.

Definition with_value (e : aentry) (v : V) : aentry :=
  {| eloc := eloc e; ekey := ekey e; evalue := v |}.

Definition all_entries (a : list abucket) : list aentry :=
  concat (bents <$> a).

(** The bucket node of [b] carries its frequency and the header of a
    well-formed entry list over the nodes of its entries. *)
Definition bucket_ok (eh : list (linkedListNode cacheData))
    (bh : list (linkedListNode sameFreqContainer)) (b : abucket) : Prop :=
  ∃ n, bh !! bloc b = Some n ∧ freq (data n) = bfreq b
       ∧ dll eh (eloc <$> bents b) (entries (data n)).

(** The entry node of [e] carries its key and value and points back to
    the bucket node [bl]. *)
Definition entry_ok (eh : list (linkedListNode cacheData))
    (bl : loc) (e : aentry) : Prop :=
  data <$> eh !! eloc e
  = Some {| key := ekey e; value := evalue e; container := Some bl |}.

(** What the pointer structure knows of a picture: nodes and frequencies. *)
Definition shape (a : list abucket) : list (loc * Z * list loc) :=
  (λ b, (bloc b, bfreq b, eloc <$> bents b)) <$> a.

(** The pointer structure: the bucket sequence and every entry list. *)
Definition Str (c : cacheImpl) (a : list abucket) : Prop :=
  dll (bnodes c) (bloc <$> a) (sequence c)
  ∧ Forall (bucket_ok (enodes c) (bnodes c)) a
  ∧ NoDup (eloc <$> all_entries a).

Definition Ents (c : cacheImpl) (a : list abucket) : Prop :=
  Forall (λ b, Forall (entry_ok (enodes c) (bloc b)) (bents b)) a.

Definition index_ok (c : cacheImpl) (a : list abucket) : Prop :=
  ∀ k p, index c !! k = Some p ↔
         ∃ e, e ∈ all_entries a ∧ ekey e = k ∧ p = Some (eloc e).

(** Frequencies start at 1 and increase strictly along the sequence. *)
Definition freqs_ok (a : list abucket) : Prop :=
  (∃ b a', a = b :: a' ∧ bfreq b = 1)
  ∧ StronglySorted Z.lt (bfreq <$> a).

(** [Rep c a]: the state [c] is the cache pictured by [a]. *)
Definition Rep (c : cacheImpl) (a : list abucket) : Prop :=
  Str c a ∧ Ents c a
  ∧ NoDup (ekey <$> all_entries a)
  ∧ index_ok c a
  ∧ freqs_ok a
  ∧ Z.of_nat (length (all_entries a)) ≤ capacity c.

(** The picture after a touch of entry [e] of bucket [b], where
    [a1 ++ b :: a2] is the picture before, [es1 ++ e :: es2] are the entries
    of [b] and [nb] is the next free bucket node. *)
Definition touched (nb : loc) (a1 : list abucket) (b : abucket)
    (es1 : list aentry) (e : aentry) (es2 : list aentry)
    (a2 : list abucket) : list abucket :=
  let fresh := {| bloc := nb; bfreq := bfreq b + 1; bents := [e] |} in
  let keep := if decide (es1 ++ es2 = [] ∧ bfreq b > 1)
              then [] else [with_ents b (es1 ++ es2)] in
  let tgt := match a2 with
             | [] => [fresh]
             | b2 :: a2' =>
                 if decide (bfreq b2 > bfreq b + 1)
                 then fresh :: a2
                 else with_ents b2 (bents b2 ++ [e]) :: a2'
             end in
  a1 ++ keep ++ tgt.

(** The picture after a new entry [e] has landed in the first bucket. *)
Definition inserted (a : list abucket) (e : aentry) : list abucket :=
  match a with
  | [] => []
  | b0 :: a' => with_ents b0 (bents b0 ++ [e]) :: a'
  end.

(** The pairs of a picture in the order in which [All] visits them:
    buckets from the highest frequency down, entries of a bucket from the
    most recently touched back. *)
Definition pairs (a : list abucket) : list (K * V) :=
  (λ e, (ekey e, evalue e)) <$> reverse (all_entries a).

(** The entries of a picture, each with the frequency of its bucket. *)
Definition tag (b : abucket) : list (Z * aentry) :=
  (λ e, (bfreq b, e)) <$> bents b.

Definition tagged (a : list abucket) : list (Z * aentry) :=
  concat (tag <$> a).

(** A consumer fed with a list of pairs until it declines. *)
Fixpoint feed {S} (yield : K → V → S → bool * S) (kvs : list (K * V))
    (s : S) : bool * S :=
  match kvs with
  | [] => (true, s)
  | (k, v) :: kvs =>
      let '(more, s) := yield k v s in
      if more : bool then feed yield kvs s else (false, s)
  end.

(** The bucket node that receives the touched entry. *)
Definition target_loc (nb : loc) (b : abucket) (a2 : list abucket) : loc :=
  match a2 with
  | [] => nb
  | b2 :: _ => if decide (bfreq b2 > bfreq b + 1) then nb else bloc b2
  end.

(** [has a k f v]: in the picture [a], key [k] is cached with value [v]
    in the bucket of frequency [f]. *)
Definition has (a : list abucket) (k : K) (f : Z) (v : V) : Prop :=
  ∃ b e, b ∈ a ∧ e ∈ bents b ∧ ekey e = k ∧ bfreq b = f ∧ evalue e = v.

Definition keys (a : list abucket) : list K := ekey <$> all_entries a.

Definition call_key (o : call) : K :=
  match o with
  | CGet k => k
  | CPut k _ => k
  end.

(** One call, seen on pictures.  [nb] and [ne] are the next free bucket
    node and entry node, [cap] is the capacity. *)
Inductive pic_step (nb ne : loc) (cap : Z)
    : call → list abucket → list abucket → Prop :=
| pic_get_miss k a :
    k ∉ keys a →
    pic_step nb ne cap (CGet k) a a
| pic_get_hit a1 b a2 es1 e es2 :
    bents b = es1 ++ e :: es2 →
    pic_step nb ne cap (CGet (ekey e)) (a1 ++ b :: a2)
      (touched nb a1 b es1 e es2 a2)
| pic_put_hit a1 b a2 es1 e es2 v :
    bents b = es1 ++ e :: es2 →
    pic_step nb ne cap (CPut (ekey e) v) (a1 ++ b :: a2)
      (touched nb a1 b es1 (with_value e v) es2 a2)
| pic_put_room a k v :
    k ∉ keys a →
    Z.of_nat (length (all_entries a)) + 1 ≤ cap →
    pic_step nb ne cap (CPut k v) a
      (inserted a {| eloc := ne; ekey := k; evalue := v |})
| pic_put_evict a1 b a2 e es k v :
    k ∉ keys (a1 ++ b :: a2) →
    Z.of_nat (length (all_entries (a1 ++ b :: a2))) + 1 > cap →
    Forall (λ b', bents b' = []) a1 →
    bents b = e :: es →
    pic_step nb ne cap (CPut k v) (a1 ++ b :: a2)
      (inserted (a1 ++ with_ents b es :: a2)
         {| eloc := ne; ekey := k; evalue := v |}).

(** *** Recency

    [last_use h k] is the position, counted from 1, of the last call of
    the history [h] made on key [k], and 0 when there is none. *)
Fixpoint last_use_rev (rh : list call) (k : K) : nat :=
  match rh with
  | [] => 0
  | o :: rh' =>
      if decide (call_key o = k) then length rh else last_use_rev rh' k
  end.

Definition last_use (h : list call) (k : K) : nat :=
  last_use_rev (reverse h) k.

(** Every bucket lists its entries from the least recently used to the
    most recently used. *)
Definition recent_ok (h : list call) (a : list abucket) : Prop :=
  Forall (λ b, StronglySorted
                 (λ e1 e2, (last_use h (ekey e1) < last_use h (ekey e2))%nat)
                 (bents b)) a.

(** The eviction order: lower frequency first, and among equal
    frequencies the least recently used first. *)
Definition lfu_before (h : list call) (p q : Z * aentry) : Prop :=
  p.1 < q.1
  ∨ (p.1 = q.1 ∧ (last_use h (ekey p.2) < last_use h (ekey q.2))%nat).

(** The picture of a state reached through the history [h]. *)
Definition pictured (h : list call) (c : cacheImpl) (a : list abucket)
    : Prop :=
  Rep c a ∧ recent_ok h a ∧ (∃ b a', a = b :: a' ∧ bloc b = 0%nat).

(** Number of calls of [os] made on key [k]. *)
Definition accesses (k : K) (os : list call) : nat :=
  length (filter (λ o, call_key o = k) os).

(** [k] is cached in [c] and stays cached after each call of the run of
    [os] from [c]. *)
Fixpoint stays (fuel : nat) (k : K) (os : list call) (c : cacheImpl)
    : bool :=
  bool_decide (is_Some (index c !! k))
  && match os with
     | [] => true
     | o :: os =>
         match exec fuel o c with
         | Ok c' => stays fuel k os c'
         | _ => true
         end
     end.

Definition survives (fuel : nat) (k : K) (os : list call) (c : cacheImpl)
    : Prop :=
  stays fuel k os c = true.

(** *** Bookkeeping of insertions and evictions

    A call inserts when it is a [Put] of a key that [GetKeyFrequency]
    reports absent; it evicts when moreover the cache is full. *)
Definition inserts (o : call) (c : cacheImpl) : bool :=
  match o with
  | CGet _ => false
  | CPut k _ => bool_decide (index c !! k = None)
  end.

Definition evicts (o : call) (c : cacheImpl) : bool :=
  inserts o c && bool_decide (Size c + 1 > Capacity c).

(** Runs [os] and counts the insertions and the evictions on the way. *)
Fixpoint tally (fuel : nat) (os : list call) (c : cacheImpl)
    : result (nat * nat * cacheImpl) :=
  match os with
  | [] => Ok (0%nat, 0%nat, c)
  | o :: os =>
      c' ← exec fuel o c;
      '(i, e, c'') ← tally fuel os c';
      Ok ((if inserts o c then S i else i),
          (if evicts o c then S e else e), c'')
  end.

(** The distinct keys that the calls of [os] put. *)
Definition put_keys (os : list call) : gset K :=
  list_to_set (omap (λ o, match o with
                          | CPut k _ => Some k
                          | CGet _ => None
                          end) os).

(** The value of the last [Put] that the history [h] makes on key [k]. *)
Definition last_put (h : list call) (k : K) : option V :=
  last (omap (λ o, match o with
                   | CPut k' v => if decide (k' = k) then Some v else None
                   | CGet _ => None
                   end) h).

(** The first two buckets of a picture are not both empty, so that the
    eviction scan passes at most one bucket. *)
Definition low_ok (a : list abucket) : Prop :=
  match a with
  | b0 :: b1 :: _ => bents b0 ≠ [] ∨ bents b1 ≠ []
  | _ => True
  end.

(** What a history [h] leaves in the picture [a] of the state it leads
    to: the first two buckets are not both empty, and every cached key
    has a frequency between 1 and the number of calls made on it, and
    the value of the last [Put] made on it. *)
Definition traced (h : list call) (a : list abucket) : Prop :=
  low_ok a
  ∧ ∀ k f v, has a k f v →
             1 ≤ f ≤ Z.of_nat (accesses k h) ∧ last_put h k = Some v.
End Cache.

(** ** A concrete instance

    Keys are numbers and values integers, the zero value of Go's [int]
    being 0; the examples run the model on them.  [key_a], [key_b] and
    [key_c] stand for three distinct keys. *)

Definition key_a : nat := 1.
Definition key_b : nat := 2.
Definition key_c : nat := 3.

Definition cache : Type := cacheImpl (K:=nat) (V:=Z).

(** The list that [add 10], [add 20] and [add 30] build from the empty
    list, nodes and header. *)
Definition three_nodes : list (linkedListNode Z) :=
  [ {| data := 10; next := Some 1%nat; prev := nil |};
    {| data := 20; next := Some 2%nat; prev := Some 0%nat |};
    {| data := 30; next := nil; prev := Some 1%nat |} ].

Definition three_list : linkedList :=
  {| head := Some 0%nat; tail := Some 2%nat |}.

(** * Proofs *)

(** ** The monad *)

Lemma bind_Ok {A B} (m : result A) (f : A → result B) b :
  m ≫= f = Ok b ↔ ∃ a, m = Ok a ∧ f a = Ok b.
Proof.
  destruct m; simpl; split; try (intros (? & ? & ?)); try discriminate; eauto.
  congruence.
Qed.

(** ** Linked lists *)

Section LinkedListFacts.
Context {Data : Type}.
Implicit Types (h : list (linkedListNode Data)) (l : linkedList).
Implicit Types (locs : list loc) (p q : ptr) (a : loc).

Lemma load_Some h a n : h !! a = Some n → load h (Some a) = Ok n.
Proof. intros E. simpl. by rewrite E. Qed.

Lemma update_Some h a f n :
  h !! a = Some n → update h (Some a) f = Ok (<[a := f n]> h).
Proof. intros E. unfold update. by rewrite (load_Some _ _ _ E). Qed.

Lemma hd_ptr_app locs1 locs2 q :
  hd_ptr (locs1 ++ locs2) q = hd_ptr locs1 (hd_ptr locs2 q).
Proof. by destruct locs1. Qed.

Lemma last_ptr_nil p : last_ptr [] p = p.
Proof. done. Qed.

Lemma last_ptr_snoc locs a p : last_ptr (locs ++ [a]) p = Some a.
Proof. unfold last_ptr. by rewrite last_snoc. Qed.

Lemma last_ptr_cons a locs p : last_ptr (a :: locs) p = last_ptr locs (Some a).
Proof.
  unfold last_ptr. destruct locs as [|b locs]; [done|].
  change (last (a :: b :: locs)) with (last (b :: locs)).
  by destruct (last (b :: locs)) eqn:E; [|apply last_None in E].
Qed.

Lemma last_ptr_app locs1 locs2 p :
  last_ptr (locs1 ++ locs2) p = last_ptr locs2 (last_ptr locs1 p).
Proof.
  revert p. induction locs1 as [|a locs1 IH]; intros p; [done|].
  simpl. by rewrite !last_ptr_cons, IH.
Qed.

Lemma dseg_app h p locs1 locs2 q :
  dseg h p (locs1 ++ locs2) q ↔
  dseg h p locs1 (hd_ptr locs2 q) ∧ dseg h (last_ptr locs1 p) locs2 q.
Proof.
  revert p. induction locs1 as [|a locs1 IH]; intros p; simpl.
  - rewrite last_ptr_nil. tauto.
  - rewrite IH, last_ptr_cons, hd_ptr_app. tauto.
Qed.

Lemma dseg_frame h h' p locs q :
  (∀ a, a ∈ locs → h' !! a = h !! a) →
  dseg h p locs q → dseg h' p locs q.
Proof.
  revert p. induction locs as [|a locs IH]; intros p Hfr; simpl; [done|].
  intros [(n & Hn & Hp & Hq) Hrest]. split.
  - exists n. rewrite Hfr by left. done.
  - apply IH; [|done]. intros b Hb. apply Hfr. by right.
Qed.

Lemma dseg_valid h p locs q a :
  dseg h p locs q → a ∈ locs → is_Some (h !! a).
Proof.
  revert p. induction locs as [|b locs IH]; intros p; simpl.
  - intros _ Hin. by apply elem_of_nil in Hin.
  - intros [(n & Hn & _) Hrest] [->|Hin]%elem_of_cons; eauto.
Qed.

Lemma dseg_lt h p locs q a :
  dseg h p locs q → a ∈ locs → (a < length h)%nat.
Proof.
  intros Hd Hin. destruct (dseg_valid _ _ _ _ _ Hd Hin) as [n Hn].
  by apply lookup_lt_Some in Hn.
Qed.

(** Redirecting the [prev] field of the first node. *)
Lemma dseg_set_prev h p p' a locs q n :
  a ∉ locs → h !! a = Some n →
  dseg h p (a :: locs) q →
  dseg (<[a := set_prev p' n]> h) p' (a :: locs) q.
Proof.
  intros Hni Hn [(n' & Hn' & Hp & Hq) Hrest]. simpl.
  assert (n' = n) as -> by congruence. split.
  - exists (set_prev p' n). split; [|done].
    apply list_lookup_insert_eq. by apply lookup_lt_Some in Hn.
  - eapply dseg_frame; [|done]. intros b Hb.
    apply list_lookup_insert_ne. intros ->. done.
Qed.

(** Redirecting the [next] field of the last node. *)
Lemma dseg_set_next h p a locs q q' n :
  a ∉ locs → h !! a = Some n →
  dseg h p (locs ++ [a]) q →
  dseg (<[a := set_next q' n]> h) p (locs ++ [a]) q'.
Proof.
  intros Hni Hn. rewrite !dseg_app. simpl.
  intros (Hl & (n' & Hn' & Hp & Hq) & _).
  assert (n' = n) as -> by congruence. split_and!; [| |done].
  - eapply dseg_frame; [|done]. intros b Hb.
    apply list_lookup_insert_ne. intros ->. done.
  - exists (set_next q' n). split; [|done].
    apply list_lookup_insert_eq. by apply lookup_lt_Some in Hn.
Qed.

Lemma dseg_nth h p locs1 a locs2 q :
  dseg h p (locs1 ++ a :: locs2) q →
  ∃ n, h !! a = Some n ∧ prev n = last_ptr locs1 p ∧ next n = hd_ptr locs2 q.
Proof. rewrite dseg_app. simpl. intros (_ & Hn & _). done. Qed.

Lemma dll_nil h : dll h [] {| head := nil; tail := nil |}.
Proof. split_and!; [constructor|done..]. Qed.

Lemma data_insert_set_next h a n p b :
  h !! a = Some n →
  data <$> (<[a := set_next p n]> h) !! b = data <$> h !! b.
Proof.
  intros Hn. destruct (decide (a = b)) as [->|Hne].
  - rewrite list_lookup_insert_eq by (by apply lookup_lt_Some in Hn).
    by rewrite Hn.
  - by rewrite list_lookup_insert_ne.
Qed.

Lemma data_insert_set_prev h a n p b :
  h !! a = Some n →
  data <$> (<[a := set_prev p n]> h) !! b = data <$> h !! b.
Proof.
  intros Hn. destruct (decide (a = b)) as [->|Hne].
  - rewrite list_lookup_insert_eq by (by apply lookup_lt_Some in Hn).
    by rewrite Hn.
  - by rewrite list_lookup_insert_ne.
Qed.

(** [remove] unlinks a node of the list and touches only its neighbours. *)
Lemma remove_spec h locs1 a locs2 l :
  dll h (locs1 ++ a :: locs2) l →
  ∃ h' l',
    remove (Some a) (h, l) = Ok (h', l')
    ∧ dll h' (locs1 ++ locs2) l'
    ∧ length h' = length h
    ∧ (∀ b, data <$> h' !! b = data <$> h !! b)
    ∧ (∀ b, b ∉ locs1 ++ locs2 → h' !! b = h !! b).
Proof.
  intros (Hnd & Hseg & Hhd & Htl).
  apply NoDup_app in Hnd as (Hnd1 & Hdisj & Hnd2).
  apply NoDup_cons in Hnd2 as (Ha2 & Hnd2).
  assert (a ∉ locs1) as Ha1.
  { intros Hin. apply (Hdisj _ Hin). by left. }
  destruct (dseg_nth _ _ _ _ _ _ Hseg) as (nd & Hnd & Hprev & Hnext).
  apply dseg_app in Hseg as [Hseg1 [_ Hseg2]]. simpl in Hseg1.
  unfold remove.
  destruct locs1 as [|x locs1 _] using rev_ind;
    destruct locs2 as [|y locs2].
  - (* the only node *)
    simpl in *. rewrite Hhd, Htl.
    rewrite decide_True by done.
    eexists _, _. split_and!; [done|apply dll_nil|done..].
  - (* the head, with a successor *)
    simpl in Hhd, Htl, Hnext. rewrite last_ptr_nil in Hprev.
    rewrite last_ptr_cons in Htl.
    rewrite decide_False; last first.
    { rewrite Htl. intros [_ Hl]. unfold last_ptr in Hl.
      destruct (last (y :: locs2)) as [z|] eqn:Hz;
        [|by apply last_None in Hz].
      simplify_eq. apply last_Some_elem_of in Hz. done. }
    rewrite (load_Some _ _ _ Hnd). simpl.
    rewrite Hprev, Hnext. simpl.
    destruct Hseg2 as [(ny & Hny & Hpy & Hqy) Hrest].
    rewrite (update_Some _ _ _ _ Hny). simpl.
    eexists _, _. split; [done|]. split_and!.
    + split_and!; [done| |done|].
      * eapply dseg_set_prev; [by apply NoDup_cons in Hnd2 as []|done|].
        split; [eauto|done].
      * simpl. rewrite Htl. by rewrite !last_ptr_cons.
    + apply length_insert.
    + intros b. by apply data_insert_set_prev.
    + intros b Hb. apply list_lookup_insert_ne. intros ->. apply Hb. by left.
  - (* the tail, with a predecessor *)
    rewrite app_nil_r.
    rewrite hd_ptr_app in Hhd. rewrite last_ptr_app in Htl. simpl in Htl.
    rewrite last_ptr_snoc in Hprev. simpl in Hnext.
    rewrite decide_False; last first.
    { rewrite Hhd. intros [Hl _]. destruct locs1; simplify_eq/=.
      - apply Ha1. by left.
      - apply Ha1. by left. }
    rewrite (load_Some _ _ _ Hnd). simpl.
    rewrite Hprev, Hnext. simpl.
    pose proof Hseg1 as Hx. apply dseg_nth in Hx as (nx & Hnx & _).
    rewrite (update_Some _ _ _ _ Hnx). simpl.
    apply NoDup_app in Hnd1 as (Hnd1 & Hx1 & _).
    eexists _, _. split; [done|]. split_and!.
    + split_and!.
      * apply NoDup_app. split_and!; [done|done|apply NoDup_singleton].
      * eapply dseg_set_next; [|done..].
        intros Hin. apply (Hx1 _ Hin). by left.
      * simpl. rewrite Hhd. by destruct locs1.
      * simpl. by rewrite last_ptr_snoc.
    + apply length_insert.
    + intros b. by apply data_insert_set_next.
    + intros b Hb. apply list_lookup_insert_ne. intros ->. apply Hb.
      apply elem_of_app. right. by left.
  - (* an inner node *)
    rewrite hd_ptr_app in Hhd. rewrite last_ptr_app, last_ptr_cons in Htl.
    rewrite last_ptr_snoc in Hprev. simpl in Hnext.
    rewrite decide_False; last first.
    { rewrite Hhd. intros [Hl _]. destruct locs1; simplify_eq/=.
      - apply Ha1. by left.
      - apply Ha1. by left. }
    rewrite (load_Some _ _ _ Hnd). simpl.
    rewrite Hprev, Hnext. simpl.
    pose proof Hseg1 as Hx. apply dseg_nth in Hx as (nx & Hnx & _).
    rewrite (update_Some _ _ _ _ Hnx). simpl.
    destruct Hseg2 as [(ny & Hny & Hpy & Hqy) Hrest].
    assert (x ≠ y) as Hxy.
    { intros ->. eapply Hdisj; [|by right; left].
      apply elem_of_app. right. by left. }
    assert ((<[x:=set_next (Some y) nx]> h) !! y = Some ny) as Hny'.
    { by rewrite list_lookup_insert_ne. }
    rewrite (update_Some _ _ _ _ Hny'). simpl.
    pose proof Hnd1 as Hnd1'.
    apply NoDup_app in Hnd1' as (Hnd1' & Hx1 & _).
    pose proof Hnd2 as Hnd2'. apply NoDup_cons in Hnd2' as (Hy2 & Hnd2').
    eexists _, _. split; [done|]. split_and!.
    + split_and!.
      * apply NoDup_app. split_and!; [done| |done].
        intros z Hz1 Hz2. eapply Hdisj; [done|by right].
      * apply dseg_app. split.
        -- eapply dseg_frame; last first.
           { eapply (dseg_set_next _ _ _ _ _ (Some y)); [|done..].
             intros Hin. apply (Hx1 _ Hin). by left. }
           intros b Hb. apply list_lookup_insert_ne. intros ->.
           eapply Hdisj; [done|by right; left].
        -- rewrite last_ptr_snoc. eapply dseg_set_prev; [done..|].
           split; [exists ny; by rewrite Hny'|].
           eapply dseg_frame; [|done]. intros b Hb.
           apply list_lookup_insert_ne. intros ->.
           eapply Hdisj; [|by right; right].
           apply elem_of_app. right. by left.
      * simpl. rewrite Hhd. by destruct locs1.
      * simpl. rewrite Htl. by rewrite !last_ptr_app, !last_ptr_cons.
    + by rewrite !length_insert.
    + intros b. rewrite (data_insert_set_prev _ _ _ _ _ Hny').
      by apply data_insert_set_next.
    + intros b Hb. rewrite !list_lookup_insert_ne; [done|..].
      * intros ->. apply Hb. apply elem_of_app. left.
        apply elem_of_app. right. by left.
      * intros ->. apply Hb. apply elem_of_app. right. by left.
Qed.

Lemma dseg_singleton h p a q n :
  h !! a = Some n → prev n = p → next n = q → dseg h p [a] q.
Proof. intros. simpl. eauto. Qed.

(** [addNode] links an allocated node, not yet in the list, at the tail. *)
Lemma addNode_spec h locs l a nd :
  dll h locs l → a ∉ locs → h !! a = Some nd →
  ∃ h' l',
    addNode (Some a) (h, l) = Ok (Some a, (h', l'))
    ∧ dll h' (locs ++ [a]) l'
    ∧ length h' = length h
    ∧ (∀ b, data <$> h' !! b = data <$> h !! b)
    ∧ (∀ b, b ∉ locs ++ [a] → h' !! b = h !! b).
Proof.
  intros (Hnd & Hseg & Hhd & Htl) Ha Hnode.
  pose proof (lookup_lt_Some _ _ _ Hnode) as Hlt.
  unfold addNode.
  rewrite (update_Some _ _ _ _ Hnode). simpl.
  set (h1 := <[a:=set_prev (tail l) nd]> h).
  assert (h1 !! a = Some (set_prev (tail l) nd)) as Hn1.
  { by apply list_lookup_insert_eq. }
  rewrite (update_Some _ _ _ _ Hn1). simpl.
  set (h2 := <[a:=set_next nil (set_prev (tail l) nd)]> h1).
  assert (length h2 = length h) as Hlen2.
  { unfold h2, h1. by rewrite !length_insert. }
  assert (h2 !! a = Some (set_next nil (set_prev (tail l) nd))) as Hn2.
  { apply list_lookup_insert_eq. unfold h1. by rewrite length_insert. }
  assert (∀ b, b ≠ a → h2 !! b = h !! b) as Hfr2.
  { intros b Hb. unfold h2, h1. by rewrite !list_lookup_insert_ne. }
  assert (∀ b, data <$> h2 !! b = data <$> h !! b) as Hdata2.
  { intros b. destruct (decide (b = a)) as [->|Hb].
    - by rewrite Hn2, Hnode.
    - by rewrite Hfr2. }
  destruct locs as [|t locs _] using rev_ind.
  - simpl in Htl. rewrite Htl. simpl.
    eexists _, _. split; [done|]. split_and!; [|done..| ].
    + split_and!; [apply NoDup_singleton| |done..].
      eapply dseg_singleton; [done..|]. done.
    + intros b Hb. apply Hfr2. intros ->. apply Hb. by left.
  - rewrite last_ptr_snoc in Htl. rewrite Htl. simpl.
    assert (t ≠ a) as Hta.
    { intros ->. apply Ha. apply elem_of_app. right. by left. }
    pose proof Hseg as Ht. apply dseg_nth in Ht as (nt & Hnt & _).
    assert (h2 !! t = Some nt) as Hnt2 by (by rewrite Hfr2).
    rewrite (update_Some _ _ _ _ Hnt2). simpl.
    apply NoDup_app in Hnd as (Hnd & Hdisj & _).
    eexists _, _. split; [done|]. split_and!.
    + split_and!.
      * apply NoDup_app. split_and!;
          [|by intros b Hb ->%list_elem_of_singleton|apply NoDup_singleton].
        apply NoDup_app. split_and!; [done..|apply NoDup_singleton].
      * apply dseg_app. split.
        -- simpl. eapply dseg_set_next; [|done|].
           { intros Hin. apply (Hdisj _ Hin). by left. }
           eapply dseg_frame; [|done]. intros b Hb. apply Hfr2.
           intros ->. done.
        -- rewrite last_ptr_snoc. eapply dseg_singleton.
           ++ rewrite list_lookup_insert_ne by done. exact Hn2.
           ++ done.
           ++ done.
      * simpl. rewrite Hhd. by destruct locs.
      * simpl. by rewrite last_ptr_snoc.
    + by rewrite length_insert.
    + intros b. rewrite (data_insert_set_next _ _ _ _ _ Hnt2). done.
    + intros b Hb. rewrite list_lookup_insert_ne.
      * apply Hfr2. intros ->. apply Hb. apply elem_of_app. right. by left.
      * intros ->. apply Hb. apply elem_of_app. left.
        apply elem_of_app. right. by left.
Qed.

Lemma dll_alloc h locs l nd :
  dll h locs l → dll (h ++ [nd]) locs l.
Proof.
  intros (Hnd & Hseg & Hhd & Htl). split_and!; [done| |done..].
  eapply dseg_frame; [|done]. intros b Hb.
  apply lookup_app_l. by eapply dseg_lt.
Qed.

Lemma dll_lt h locs l a : dll h locs l → a ∈ locs → (a < length h)%nat.
Proof. intros (_ & Hseg & _). by eapply dseg_lt. Qed.

(** [add] allocates a node and links it at the tail. *)
Lemma add_spec h locs l d :
  dll h locs l →
  ∃ h' l',
    add d (h, l) = Ok (Some (length h), (h', l'))
    ∧ dll h' (locs ++ [length h]) l'
    ∧ length h' = S (length h)
    ∧ data <$> h' !! length h = Some d
    ∧ (∀ b, (b < length h)%nat → data <$> h' !! b = data <$> h !! b)
    ∧ (∀ b, b ∉ locs → (b < length h)%nat → h' !! b = h !! b).
Proof.
  intros Hdll. unfold add, new.
  set (nd := {| data := d; next := nil; prev := nil |}).
  assert ((h ++ [nd]) !! length h = Some nd) as Hnew.
  { rewrite lookup_app_r by done. by rewrite Nat.sub_diag. }
  destruct (addNode_spec (h ++ [nd]) locs l (length h) nd)
    as (h' & l' & Hrun & Hdll' & Hlen & Hdata & Hfr); [| |done|].
  { by apply dll_alloc. }
  { intros Hin. pose proof (dll_lt _ _ _ _ Hdll Hin). lia. }
  exists h', l'. split_and!; [done..| | | |].
  - rewrite Hlen, length_app. simpl. lia.
  - by rewrite Hdata, Hnew.
  - intros b Hb. rewrite Hdata. by rewrite lookup_app_l.
  - intros b Hb Hlt. rewrite Hfr.
    + by rewrite lookup_app_l.
    + intros [?| ->%list_elem_of_singleton]%elem_of_app; [done|lia].
Qed.

(** [insertAfter] allocates a node and links it after a node of the list. *)
Lemma insertAfter_spec h locs1 a locs2 l d :
  dll h (locs1 ++ a :: locs2) l →
  ∃ h' l',
    insertAfter (Some a) d (h, l) = Ok (Some (length h), (h', l'))
    ∧ dll h' (locs1 ++ a :: length h :: locs2) l'
    ∧ length h' = S (length h)
    ∧ data <$> h' !! length h = Some d
    ∧ (∀ b, (b < length h)%nat → data <$> h' !! b = data <$> h !! b)
    ∧ (∀ b, b ∉ locs1 ++ a :: locs2 → (b < length h)%nat →
            h' !! b = h !! b).
Proof.
  intros Hdll.
  assert (∀ b, b ∈ locs1 ++ a :: locs2 → (b < length h)%nat) as Hlt.
  { intros b. by eapply dll_lt. }
  destruct Hdll as (Hnd & Hseg & Hhd & Htl).
  apply NoDup_app in Hnd as (Hnd1 & Hdisj & Hnd2).
  apply NoDup_cons in Hnd2 as (Ha2 & Hnd2).
  assert (a ∉ locs1) as Ha1.
  { intros Hin. apply (Hdisj _ Hin). by left. }
  destruct (dseg_nth _ _ _ _ _ _ Hseg) as (na & Hna & Hprev & Hnext).
  apply dseg_app in Hseg as [Hseg1 [_ Hseg2]]. simpl in Hseg1.
  unfold insertAfter, new.
  rewrite (load_Some _ _ _ Hna). simpl.
  set (n := length h).
  set (nd := {| data := d; next := nil; prev := nil |}).
  set (h0 := h ++ [nd]).
  assert (h0 !! n = Some nd) as Hn0.
  { unfold h0, n. rewrite lookup_app_r by done. by rewrite Nat.sub_diag. }
  assert (∀ b, (b < n)%nat → h0 !! b = h !! b) as Hfr0.
  { intros b Hb. unfold h0. by rewrite lookup_app_l. }
  assert (a < n)%nat as Han.
  { apply Hlt. apply elem_of_app. right. by left. }
  assert (h0 !! a = Some na) as Hna0 by (by rewrite Hfr0).
  rewrite (update_Some _ _ _ _ Hna0). simpl.
  set (h1 := <[a:=set_next (Some n) na]> h0).
  assert (h1 !! n = Some nd) as Hn1.
  { unfold h1. rewrite list_lookup_insert_ne by lia. done. }
  rewrite (update_Some _ _ _ _ Hn1). simpl.
  set (h2 := <[n:=set_prev (Some a) nd]> h1).
  assert (length h1 = S n) as Hlen1.
  { unfold h1, h0. rewrite length_insert, length_app. simpl. lia. }
  assert (h2 !! n = Some (set_prev (Some a) nd)) as Hn2.
  { unfold h2. apply list_lookup_insert_eq. lia. }
  rewrite (update_Some _ _ _ _ Hn2). simpl.
  set (h3 := <[n:=set_next (next na) (set_prev (Some a) nd)]> h2).
  assert (length h3 = S n) as Hlen3.
  { unfold h3, h2. by rewrite !length_insert. }
  assert (h3 !! n = Some (set_next (next na) (set_prev (Some a) nd))) as Hn3.
  { unfold h3. apply list_lookup_insert_eq. unfold h2.
    rewrite length_insert. lia. }
  assert (∀ b, b ≠ a → (b < n)%nat → h3 !! b = h !! b) as Hfr3.
  { intros b Hb Hbn. unfold h3, h2, h1.
    rewrite !list_lookup_insert_ne by lia. by apply Hfr0. }
  assert (h3 !! a = Some (set_next (Some n) na)) as Ha3.
  { unfold h3, h2. rewrite !list_lookup_insert_ne by lia.
    unfold h1. apply list_lookup_insert_eq. unfold h0.
    rewrite length_app. simpl. lia. }
  assert (∀ b, (b < n)%nat → data <$> h3 !! b = data <$> h !! b) as Hdata3.
  { intros b Hb. destruct (decide (b = a)) as [->|Hne].
    - by rewrite Ha3, Hna.
    - by rewrite Hfr3. }
  assert (dseg h3 nil (locs1 ++ [a]) (Some n)) as Hseg1'.
  { apply dseg_app. split.
    - eapply dseg_frame; [|done]. intros b Hb. apply Hfr3.
      + intros ->. done.
      + apply Hlt. apply elem_of_app. by left.
    - eapply dseg_singleton; [done..|]. done. }
  destruct locs2 as [|y locs2].
  - simpl in Hnext. rewrite Hnext. simpl.
    eexists _, _. split; [done|].
    split_and!; [|done|by rewrite Hn3|done|].
    + split_and!.
      * apply NoDup_app. split_and!; [done| |].
        -- intros b Hb1 [->|[->|[]%elem_of_nil]%elem_of_cons]%elem_of_cons;
             [done|].
           assert (n < n)%nat; [|lia].
           apply Hlt. apply elem_of_app. by left.
        -- apply NoDup_cons. split; [|apply NoDup_singleton].
           intros ->%list_elem_of_singleton. lia.
      * change (locs1 ++ [a; n]) with (locs1 ++ [a] ++ [n]).
        rewrite app_assoc. apply dseg_app. split; [done|].
        rewrite last_ptr_snoc. eapply dseg_singleton; [done..|].
        simpl. by rewrite Hnext.
      * simpl. rewrite Hhd. by destruct locs1.
      * simpl. change (locs1 ++ [a; n]) with (locs1 ++ [a] ++ [n]).
        by rewrite app_assoc, last_ptr_snoc.
    + intros b Hb Hbn. apply Hfr3; [|done]. intros ->. apply Hb.
      apply elem_of_app. right. by left.
  - simpl in Hnext. rewrite Hnext. simpl.
    destruct Hseg2 as [(ny & Hny & Hpy & Hqy) Hrest].
    assert (y < n)%nat as Hyn.
    { apply Hlt. apply elem_of_app. right. right. by left. }
    assert (y ≠ a) as Hya.
    { intros ->. apply Ha2. by left. }
    assert (h3 !! y = Some ny) as Hny3 by (by rewrite Hfr3).
    rewrite (update_Some _ _ _ _ Hny3). simpl.
    apply NoDup_cons in Hnd2 as (Hy2 & Hnd2).
    eexists _, _. split; [done|]. split_and!.
    + split_and!.
      * apply NoDup_app. split_and!; [done| |].
        -- intros b Hb1 [->|[->|Hb2]%elem_of_cons]%elem_of_cons; [done| |].
           ++ assert (n < n)%nat; [|lia].
              apply Hlt. apply elem_of_app. by left.
           ++ eapply Hdisj; [done|by right].
        -- apply NoDup_cons. split.
           { intros [->|Hin]%elem_of_cons; [lia|done]. }
           apply NoDup_cons. split.
           { intros Hin. assert (n < n)%nat; [|lia].
             apply Hlt. apply elem_of_app. right. by right. }
           by apply NoDup_cons.
      * change (locs1 ++ a :: n :: y :: locs2)
          with (locs1 ++ [a] ++ [n] ++ y :: locs2).
        rewrite app_assoc. apply dseg_app. split.
        { simpl. eapply dseg_frame; [|done]. intros b Hb.
          apply list_lookup_insert_ne. intros ->.
          apply elem_of_app in Hb as [Hb|Hb%list_elem_of_singleton].
          - eapply Hdisj; [done|]. right. by left.
          - done. }
        rewrite last_ptr_snoc. apply dseg_app. split.
        { eapply dseg_singleton.
          - rewrite list_lookup_insert_ne by lia. exact Hn3.
          - done.
          - simpl. by rewrite Hnext. }
        simpl last_ptr. eapply dseg_set_prev; [done..|].
        split; [exists ny; by rewrite Hny3|].
        eapply dseg_frame; [|done]. intros b Hb. apply Hfr3.
        -- intros ->. apply Ha2. by right.
        -- apply Hlt. apply elem_of_app. right. right. by right.
      * simpl. rewrite Hhd. by destruct locs1.
      * simpl. rewrite Htl.
        change (locs1 ++ a :: n :: y :: locs2)
          with (locs1 ++ [a; n] ++ y :: locs2).
        by rewrite !last_ptr_app, !last_ptr_cons.
    + by rewrite length_insert.
    + rewrite (data_insert_set_prev _ _ _ _ _ Hny3). by rewrite Hn3.
    + intros b Hb. rewrite (data_insert_set_prev _ _ _ _ _ Hny3). by apply Hdata3.
    + intros b Hb Hbn. rewrite list_lookup_insert_ne.
      * apply Hfr3; [|done]. intros ->. apply Hb.
        apply elem_of_app. right. by left.
      * intros ->. apply Hb. apply elem_of_app. right. right. by left.
Qed.
End LinkedListFacts.

(** ** Framing of well-formed lists *)

Section LinkedListFrames.
Context {Data : Type}.
Implicit Types (h : list (linkedListNode Data)) (l : linkedList).

Lemma dll_frame h h' locs l :
  (∀ a, a ∈ locs → h' !! a = h !! a) → dll h locs l → dll h' locs l.
Proof.
  intros Hfr (Hnd & Hseg & Hhd & Htl). split_and!; [done| |done..].
  by eapply dseg_frame.
Qed.

(** A write to the [data] field leaves the links alone. *)
Lemma dseg_set_data h p locs q a n d :
  h !! a = Some n →
  dseg h p locs q → dseg (<[a := set_data d n]> h) p locs q.
Proof.
  intros Hn. revert p. induction locs as [|b locs IH]; intros p; [done|].
  simpl. intros [(nb & Hnb & Hp & Hq) Hrest]. split; [|by apply IH].
  destruct (decide (a = b)) as [->|Hne].
  - exists (set_data d n). rewrite list_lookup_insert_eq
      by (by apply lookup_lt_Some in Hn).
    assert (nb = n) as -> by congruence. done.
  - exists nb. by rewrite list_lookup_insert_ne.
Qed.

Lemma dll_set_data h locs l a n d :
  h !! a = Some n → dll h locs l → dll (<[a := set_data d n]> h) locs l.
Proof.
  intros Hn (Hnd & Hseg & Hhd & Htl). split_and!; [done| |done..].
  by apply dseg_set_data.
Qed.

Lemma dll_header h locs l :
  dll h locs l → l = {| head := hd_ptr locs nil; tail := last_ptr locs nil |}.
Proof. intros (_ & _ & Hhd & Htl). destruct l. simpl in *. congruence. Qed.

Lemma dll_isEmpty h locs l : dll h locs l → isEmpty l = bool_decide (locs = []).
Proof.
  intros (_ & _ & Hhd & _). unfold isEmpty. rewrite Hhd.
  destruct locs; simpl; by repeat case_bool_decide.
Qed.
End LinkedListFrames.

(** ** The cache: pictures *)

Section CacheFacts.
Context {K V : Type} `{Countable K}.
Implicit Types (c : @cacheImpl K V _ _) (a : list (@abucket K V)).
Implicit Types (b : @abucket K V) (e : @aentry K V).

Lemma all_entries_nil : all_entries (K:=K) (V:=V) [] = [].
Proof. done. Qed.

Lemma all_entries_cons b a : all_entries (b :: a) = bents b ++ all_entries a.
Proof. done. Qed.

Lemma all_entries_app a1 a2 :
  all_entries (a1 ++ a2) = all_entries a1 ++ all_entries a2.
Proof.
  unfold all_entries. by rewrite fmap_app, concat_app.
Qed.

Lemma all_entries_mid a1 b a2 :
  all_entries (a1 ++ b :: a2)
  = all_entries a1 ++ bents b ++ all_entries a2.
Proof. by rewrite all_entries_app, all_entries_cons. Qed.

Lemma elem_of_all_entries e a :
  e ∈ all_entries a ↔ ∃ b, b ∈ a ∧ e ∈ bents b.
Proof.
  induction a as [|b a IH].
  - rewrite all_entries_nil. split.
    + by intros ?%elem_of_nil.
    + by intros (? & ?%elem_of_nil & _).
  - rewrite all_entries_cons, elem_of_app, IH. split.
    + intros [He|(b' & Hb' & He)].
      * exists b. split; [by left|done].
      * exists b'. split; [by right|done].
    + intros (b' & [->|Hb']%elem_of_cons & He); [by left|].
      right. by exists b'.
Qed.

Lemma bucket_ok_frame eh eh' bh bh' b :
  data <$> bh' !! bloc b = data <$> bh !! bloc b →
  (∀ x, x ∈ eloc <$> bents b → eh' !! x = eh !! x) →
  bucket_ok eh bh b → bucket_ok eh' bh' b.
Proof.
  intros Hd Hfr (n & Hn & Hf & Hl). rewrite Hn in Hd.
  destruct (bh' !! bloc b) as [n'|] eqn:Hn'; [|done].
  simpl in Hd. injection Hd as Hd. exists n'. rewrite Hd.
  split_and!; [done..|]. by eapply dll_frame.
Qed.

Lemma entry_ok_frame eh eh' bl e :
  data <$> eh' !! eloc e = data <$> eh !! eloc e →
  entry_ok eh bl e → entry_ok eh' bl e.
Proof. unfold entry_ok. by intros ->. Qed.

Lemma Ents_frame c c' a :
  (∀ x, (x < length (enodes c))%nat →
        data <$> enodes c' !! x = data <$> enodes c !! x) →
  Ents c a → Ents c' a.
Proof.
  intros Hd HE. unfold Ents. eapply Forall_impl; [exact HE|]. intros b Hb.
  eapply Forall_impl; [exact Hb|]. intros e He. simpl in He.
  eapply entry_ok_frame; [|done].
  apply Hd. unfold entry_ok in He.
  destruct (enodes c !! eloc e) eqn:E; [|done].
  by apply lookup_lt_Some in E.
Qed.

(** Entries of distinct buckets live at distinct nodes. *)
Lemma entries_disjoint a1 b a2 b' x :
  NoDup (eloc <$> all_entries (a1 ++ b :: a2)) →
  b' ∈ a1 ++ a2 → x ∈ eloc <$> bents b' → x ∉ eloc <$> bents b.
Proof.
  rewrite all_entries_mid, !fmap_app.
  intros Hnd Hb' Hx Hxb.
  apply NoDup_app in Hnd as (_ & Hd1 & Hnd).
  apply NoDup_app in Hnd as (_ & Hd2 & _).
  apply elem_of_app in Hb' as [Hb'|Hb'].
  - eapply Hd1; [|apply elem_of_app; left; exact Hxb].
    apply list_elem_of_fmap in Hx as (e & -> & He).
    apply list_elem_of_fmap_2. apply elem_of_all_entries. eauto.
  - eapply Hd2; [exact Hxb|].
    apply list_elem_of_fmap in Hx as (e & -> & He).
    apply list_elem_of_fmap_2. apply elem_of_all_entries. eauto.
Qed.

Lemma bucket_locs_distinct a1 b a2 b' :
  NoDup (bloc <$> a1 ++ b :: a2) → b' ∈ a1 ++ a2 → bloc b' ≠ bloc b.
Proof.
  rewrite fmap_app, fmap_cons. intros Hnd Hb' Heq.
  apply NoDup_app in Hnd as (_ & Hd1 & Hnd).
  apply NoDup_cons in Hnd as (Hd2 & _).
  apply elem_of_app in Hb' as [Hb'|Hb'].
  - eapply Hd1; [by apply list_elem_of_fmap_2|]. rewrite Heq. by left.
  - apply Hd2. rewrite <-Heq. by apply list_elem_of_fmap_2.
Qed.

(** *** Methods called on the entry list of a bucket *)

Lemma on_entries_Str {A} c a1 b a2
    (m : list (linkedListNode cacheData) * linkedList →
         result (A * (list (linkedListNode cacheData) * linkedList)))
    (r : A) es' (Q : list (linkedListNode (@cacheData K V)) → Prop) :
  Str c (a1 ++ b :: a2) →
  (∀ l, dll (enodes c) (eloc <$> bents b) l →
        ∃ eh' l', m (enodes c, l) = Ok (r, (eh', l'))
          ∧ dll eh' (eloc <$> es') l'
          ∧ (∀ x, x ∉ eloc <$> es' → (x < length (enodes c))%nat →
                  eh' !! x = enodes c !! x)
          ∧ Q eh') →
  NoDup (eloc <$> all_entries (a1 ++ with_ents b es' :: a2)) →
  ∃ c1, on_entries (Some (bloc b)) m c = Ok (r, c1)
    ∧ Str c1 (a1 ++ with_ents b es' :: a2)
    ∧ index c1 = index c ∧ capacity c1 = capacity c
    ∧ sequence c1 = sequence c
    ∧ length (bnodes c1) = length (bnodes c)
    ∧ Q (enodes c1).
Proof.
  intros (Hdll & Hbs & Hnd) Hm Hnd'.
  pose proof Hbs as Hbs'.
  apply Forall_app in Hbs' as (Hbs1 & Hbs2).
  apply Forall_cons in Hbs2 as ((n & Hn & Hf & Hl) & Hbs2).
  destruct (Hm _ Hl) as (eh' & l' & Hrun & Hl' & Hfr & HQ).
  unfold on_entries, bucket_of.
  rewrite (load_Some _ _ _ Hn). simpl. rewrite Hrun. simpl.
  rewrite (update_Some _ _ _ _ Hn). simpl.
  eexists. split; [done|].
  pose proof (lookup_lt_Some _ _ _ Hn) as Hlt.
  assert (NoDup (bloc <$> a1 ++ b :: a2)) as Hndb by apply Hdll.
  assert (∀ b', b' ∈ a1 ++ a2 → bucket_ok (enodes c) (bnodes c) b' →
            bucket_ok eh'
              (<[bloc b:=set_data (set_entries l' (data n)) n]> (bnodes c))
              b') as Hother.
  { intros b' Hb' Hok. eapply bucket_ok_frame; [| |done].
    - rewrite list_lookup_insert_ne; [done|].
      intros Heq. by eapply bucket_locs_distinct.
    - intros x Hx. apply Hfr.
      + change (eloc <$> es') with (eloc <$> bents (with_ents b es')).
        by eapply entries_disjoint.
      + destruct Hok as (? & _ & _ & Hok). by eapply dll_lt. }
  split_and!; simpl; [|done..|by rewrite length_insert|done].
  split_and!; simpl; [| |done].
  - replace (bloc <$> a1 ++ with_ents b es' :: a2)
      with (bloc <$> a1 ++ b :: a2) by (by rewrite !fmap_app).
    by apply dll_set_data.
  - apply Forall_app. split; [|apply Forall_cons; split].
    + rewrite Forall_forall in Hbs1. apply Forall_forall.
      intros b' Hb'. apply Hother; [|by apply Hbs1].
      apply elem_of_app. by left.
    + exists (set_data (set_entries l' (data n)) n). simpl.
      split_and!; [by apply list_lookup_insert_eq|done..].
    + rewrite Forall_forall in Hbs2. apply Forall_forall.
      intros b' Hb'. apply Hother; [|by apply Hbs2].
      apply elem_of_app. by right.
Qed.

Lemma NoDup_elocs_sublist a a' :
  all_entries a' `sublist_of` all_entries a →
  NoDup (eloc <$> all_entries a) → NoDup (eloc <$> all_entries a').
Proof.
  intros Hsub Hnd. eapply sublist_NoDup; [exact Hnd|].
  by apply fmap_sublist.
Qed.

Lemma on_entries_remove c a1 b a2 es1 e es2 :
  Str c (a1 ++ b :: a2) → bents b = es1 ++ e :: es2 →
  ∃ c1,
    on_entries (Some (bloc b))
      (λ s, r ← remove (Some (eloc e)) s; Ok ((), r)) c = Ok ((), c1)
    ∧ Str c1 (a1 ++ with_ents b (es1 ++ es2) :: a2)
    ∧ index c1 = index c ∧ capacity c1 = capacity c
    ∧ sequence c1 = sequence c
    ∧ length (bnodes c1) = length (bnodes c)
    ∧ length (enodes c1) = length (enodes c)
    ∧ (∀ x, data <$> enodes c1 !! x = data <$> enodes c !! x).
Proof.
  intros HS Hb.
  apply (on_entries_Str c a1 b a2 _ () (es1 ++ es2)
           (λ eh', length eh' = length (enodes c)
                   ∧ ∀ x, data <$> eh' !! x = data <$> enodes c !! x));
    [done| |].
  - intros l Hl. rewrite Hb, fmap_app, fmap_cons in Hl.
    destruct (remove_spec _ _ _ _ _ Hl)
      as (eh' & l' & Hrun & Hl' & Hlen & Hdata & Hfr).
    exists eh', l'. rewrite Hrun. simpl. rewrite fmap_app.
    split_and!; [done..| |done|done].
    intros x Hx _. by apply Hfr.
  - destruct HS as (_ & _ & Hnd). revert Hnd.
    apply NoDup_elocs_sublist.
    rewrite !all_entries_mid, Hb. simpl.
    apply sublist_app; [done|]. apply sublist_app; [|done].
    apply sublist_app; [done|]. by apply sublist_cons.
Qed.

Lemma on_entries_addNode c a1 b a2 e :
  Str c (a1 ++ b :: a2) →
  eloc e ∉ eloc <$> all_entries (a1 ++ b :: a2) →
  is_Some (enodes c !! eloc e) →
  ∃ c1,
    on_entries (Some (bloc b)) (addNode (Some (eloc e))) c
      = Ok (Some (eloc e), c1)
    ∧ Str c1 (a1 ++ with_ents b (bents b ++ [e]) :: a2)
    ∧ index c1 = index c ∧ capacity c1 = capacity c
    ∧ sequence c1 = sequence c
    ∧ length (bnodes c1) = length (bnodes c)
    ∧ length (enodes c1) = length (enodes c)
    ∧ (∀ x, data <$> enodes c1 !! x = data <$> enodes c !! x).
Proof.
  intros HS He [nd Hnd].
  apply (on_entries_Str c a1 b a2 _ _ (bents b ++ [e])
           (λ eh', length eh' = length (enodes c)
                   ∧ ∀ x, data <$> eh' !! x = data <$> enodes c !! x));
    [done| |].
  - intros l Hl.
    destruct (addNode_spec _ _ _ (eloc e) nd Hl)
      as (eh' & l' & Hrun & Hl' & Hlen & Hdata & Hfr); [|done|].
    { intros Hin. apply He. rewrite all_entries_mid, !fmap_app.
      apply elem_of_app. right. apply elem_of_app. by left. }
    exists eh', l'. rewrite fmap_app.
    split_and!; [done..| |done|done].
    intros x Hx _. by apply Hfr.
  - destruct HS as (_ & _ & Hndl).
    rewrite all_entries_mid, !fmap_app in *. simpl.
    rewrite !fmap_app. simpl.
    apply NoDup_app in Hndl as (Hn1 & Hd1 & Hndl).
    apply NoDup_app in Hndl as (Hn2 & Hd2 & Hn3).
    rewrite !elem_of_app in He.
    apply NoDup_app. split_and!; [done| |].
    + intros x Hx1 [[Hx|Hx%list_elem_of_singleton]%elem_of_app|Hx]%elem_of_app.
      * eapply Hd1; [done|]. apply elem_of_app. by left.
      * subst. tauto.
      * eapply Hd1; [done|]. apply elem_of_app. by right.
    + apply NoDup_app. split_and!; [|  |done].
      * apply NoDup_app. split_and!; [done| |apply NoDup_singleton].
        intros x Hx ->%list_elem_of_singleton. tauto.
      * intros x [Hx|Hx%list_elem_of_singleton]%elem_of_app Hx3.
        -- by eapply Hd2.
        -- subst. tauto.
Qed.

Lemma on_entries_add c a1 b a2 d e :
  Str c (a1 ++ b :: a2) →
  eloc e = length (enodes c) →
  ∃ c1,
    on_entries (Some (bloc b)) (add d) c = Ok (Some (eloc e), c1)
    ∧ Str c1 (a1 ++ with_ents b (bents b ++ [e]) :: a2)
    ∧ index c1 = index c ∧ capacity c1 = capacity c
    ∧ sequence c1 = sequence c
    ∧ length (bnodes c1) = length (bnodes c)
    ∧ length (enodes c1) = S (length (enodes c))
    ∧ data <$> enodes c1 !! length (enodes c) = Some d
    ∧ (∀ x, (x < length (enodes c))%nat →
            data <$> enodes c1 !! x = data <$> enodes c !! x).
Proof.
  intros HS He.
  assert (∀ x, x ∈ eloc <$> all_entries (a1 ++ b :: a2) →
               (x < length (enodes c))%nat) as Hlt.
  { intros x (e' & -> & (b' & Hb' & He')%elem_of_all_entries)%list_elem_of_fmap.
    destruct HS as (_ & Hbs & _). rewrite Forall_forall in Hbs.
    destruct (Hbs _ Hb') as (? & _ & _ & Hl). eapply dll_lt; [done|].
    by apply list_elem_of_fmap_2. }
  apply (on_entries_Str c a1 b a2 _ _ (bents b ++ [e])
           (λ eh', length eh' = S (length (enodes c))
                   ∧ data <$> eh' !! length (enodes c) = Some d
                   ∧ ∀ x, (x < length (enodes c))%nat →
                          data <$> eh' !! x = data <$> enodes c !! x));
    [done| |].
  - intros l Hl.
    destruct (add_spec _ _ _ d Hl)
      as (eh' & l' & Hrun & Hl' & Hlen & Hnew & Hdata & Hfr).
    exists eh', l'. rewrite fmap_app. simpl. rewrite He.
    split_and!; [done..| |done|done|done].
    intros x Hx Hxlt. apply Hfr; [|done].
    intros Hin. apply Hx. apply elem_of_app. by left.
  - destruct HS as (_ & _ & Hndl).
    rewrite all_entries_mid, !fmap_app in *. simpl.
    rewrite !fmap_app. simpl.
    assert (∀ x, x ∈ eloc <$> all_entries a1 → x ≠ eloc e) as Hne1.
    { intros x Hx. assert (x < length (enodes c))%nat; [|lia].
      apply Hlt. apply elem_of_app. by left. }
    assert (∀ x, x ∈ eloc <$> bents b → x ≠ eloc e) as Hne2.
    { intros x Hx. assert (x < length (enodes c))%nat; [|lia].
      apply Hlt. apply elem_of_app. right. apply elem_of_app. by left. }
    assert (∀ x, x ∈ eloc <$> all_entries a2 → x ≠ eloc e) as Hne3.
    { intros x Hx. assert (x < length (enodes c))%nat; [|lia].
      apply Hlt. apply elem_of_app. right. apply elem_of_app. by right. }
    apply NoDup_app in Hndl as (Hn1 & Hd1 & Hndl).
    apply NoDup_app in Hndl as (Hn2 & Hd2 & Hn3).
    apply NoDup_app. split_and!; [done| |].
    + intros x Hx1 [[Hx|Hx%list_elem_of_singleton]%elem_of_app|Hx]%elem_of_app.
      * eapply Hd1; [done|]. apply elem_of_app. by left.
      * by eapply Hne1.
      * eapply Hd1; [done|]. apply elem_of_app. by right.
    + apply NoDup_app. split_and!; [|  |done].
      * apply NoDup_app. split_and!; [done| |apply NoDup_singleton].
        intros x Hx ->%list_elem_of_singleton. by eapply Hne2.
      * intros x [Hx|Hx%list_elem_of_singleton]%elem_of_app Hx3.
        -- by eapply Hd2.
        -- by eapply Hne3.
Qed.

(** *** Methods called on the bucket sequence *)

Lemma on_sequence_insertAfter c a1 b a2 f :
  Str c (a1 ++ b :: a2) →
  ∃ c1,
    on_sequence
      (insertAfter (Some (bloc b)) {| freq := f; entries := emptyList |}) c
      = Ok (Some (length (bnodes c)), c1)
    ∧ Str c1 (a1 ++ b :: {| bloc := length (bnodes c); bfreq := f;
                             bents := [] |} :: a2)
    ∧ enodes c1 = enodes c
    ∧ index c1 = index c ∧ capacity c1 = capacity c
    ∧ length (bnodes c1) = S (length (bnodes c)).
Proof.
  intros (Hdll & Hbs & Hnd).
  rewrite fmap_app, fmap_cons in Hdll.
  destruct (insertAfter_spec _ _ _ _ _
              {| freq := f; entries := emptyList |} Hdll)
    as (bh' & sq' & Hrun & Hdll' & Hlen & Hnew & Hdata & Hfr).
  unfold on_sequence. rewrite Hrun. simpl.
  eexists. split; [done|]. split_and!; simpl; [|done..].
  split_and!; simpl.
  - by rewrite fmap_app.
  - assert (∀ b', bucket_ok (enodes c) (bnodes c) b' →
                  bucket_ok (enodes c) bh' b') as Hold.
    { intros b' Hok. eapply bucket_ok_frame; [| |done]; [|done].
      apply Hdata. destruct Hok as (n & Hn & _).
      by apply lookup_lt_Some in Hn. }
    apply Forall_app in Hbs as (Hbs1 & Hbs2).
    apply Forall_cons in Hbs2 as (Hb & Hbs2).
    apply Forall_app. split; [by eapply Forall_impl|].
    apply Forall_cons. split; [by apply Hold|].
    apply Forall_cons. split; [|by eapply Forall_impl].
    destruct (bh' !! length (bnodes c)) as [n|] eqn:Hn; [|done].
    simpl in Hnew. injection Hnew as Hnew.
    exists n. simpl. rewrite Hnew. split_and!; [done..|]. apply dll_nil.
  - rewrite all_entries_mid in *. by rewrite all_entries_cons.
Qed.

Lemma on_sequence_remove c a1 b a2 :
  Str c (a1 ++ b :: a2) →
  ∃ c1,
    on_sequence (λ s, r ← remove (Some (bloc b)) s; Ok ((), r)) c
      = Ok ((), c1)
    ∧ Str c1 (a1 ++ a2)
    ∧ enodes c1 = enodes c
    ∧ index c1 = index c ∧ capacity c1 = capacity c
    ∧ length (bnodes c1) = length (bnodes c).
Proof.
  intros (Hdll & Hbs & Hnd).
  rewrite fmap_app, fmap_cons in Hdll.
  destruct (remove_spec _ _ _ _ _ Hdll)
    as (bh' & sq' & Hrun & Hdll' & Hlen & Hdata & Hfr).
  unfold on_sequence. rewrite Hrun. simpl.
  eexists. split; [done|]. split_and!; simpl; [|done..].
  split_and!; simpl.
  - by rewrite fmap_app.
  - assert (∀ b', bucket_ok (enodes c) (bnodes c) b' →
                  bucket_ok (enodes c) bh' b') as Hold.
    { intros b' Hok. eapply bucket_ok_frame; [| |done]; done. }
    apply Forall_app in Hbs as (Hbs1 & Hbs2).
    apply Forall_cons in Hbs2 as (Hb & Hbs2).
    apply Forall_app. split; by eapply Forall_impl.
  - revert Hnd. apply NoDup_elocs_sublist.
    rewrite all_entries_mid, all_entries_app.
    apply sublist_app; [done|]. by apply sublist_inserts_l.
Qed.
End CacheFacts.

(** ** The cache: [touch] *)

(** Runs the computation past the calls that have returned. *)
Ltac ok_bind :=
  repeat (match goal with
          | |- context [@mbind result _ _ _ ?f (Ok ?a)] =>
              change (@mbind result _ _ _ f (Ok a)) with (f a)
          end;
          cbv beta iota zeta).

Section Touch.
Context {K V : Type} `{Countable K}.
Implicit Types (c : @cacheImpl K V _ _) (a : list (@abucket K V)).
Implicit Types (b : @abucket K V) (e : @aentry K V).

Lemma NoDup_mid_notin {A} (l1 l2 : list A) x :
  NoDup (l1 ++ x :: l2) → x ∉ l1 ++ l2.
Proof.
  intros (_ & Hd & (Hx & _)%NoDup_cons)%NoDup_app.
  intros [Hin|Hin]%elem_of_app; [|done].
  eapply Hd; [done|by left].
Qed.

Lemma entry_loc_free a1 b a2 es1 e es2 :
  bents b = es1 ++ e :: es2 →
  NoDup (eloc <$> all_entries (a1 ++ b :: a2)) →
  eloc e ∉ eloc <$> all_entries (a1 ++ with_ents b (es1 ++ es2) :: a2).
Proof.
  intros Hb. rewrite !all_entries_mid, Hb. simpl.
  replace (all_entries a1 ++ (es1 ++ e :: es2) ++ all_entries a2)
    with ((all_entries a1 ++ es1) ++ e :: (es2 ++ all_entries a2))
    by (by rewrite <-!app_assoc).
  replace (all_entries a1 ++ (es1 ++ es2) ++ all_entries a2)
    with ((all_entries a1 ++ es1) ++ (es2 ++ all_entries a2))
    by (by rewrite <-!app_assoc).
  rewrite !(fmap_app eloc (all_entries a1 ++ es1)), fmap_cons.
  apply NoDup_mid_notin.
Qed.

Lemma container_of_data c x d :
  data <$> enodes c !! x = Some d →
  container_of c (Some x) = Ok (container d).
Proof.
  intros Hd. unfold container_of.
  destruct (enodes c !! x) as [n|] eqn:Hn; [|done].
  simpl in Hd. injection Hd as <-. by rewrite (load_Some _ _ _ Hn).
Qed.

Lemma Str_bucket_of c a b :
  Str c a → b ∈ a →
  ∃ d, bucket_of c (Some (bloc b)) = Ok d ∧ freq d = bfreq b
       ∧ isEmpty (entries d) = bool_decide (bents b = [])
       ∧ head (entries d) = hd_ptr (eloc <$> bents b) nil.
Proof.
  intros (_ & Hbs & _) Hb. rewrite Forall_forall in Hbs.
  destruct (Hbs _ Hb) as (n & Hn & Hf & Hl).
  exists (data n). unfold bucket_of. rewrite (load_Some _ _ _ Hn).
  split_and!; [done..| |apply Hl].
  rewrite (dll_isEmpty _ _ _ Hl).
  destruct (bents b); simpl; by repeat case_bool_decide.
Qed.

Lemma Str_links c a1 b a2 :
  Str c (a1 ++ b :: a2) →
  ∃ n, bnodes c !! bloc b = Some n
       ∧ next n = hd_ptr (bloc <$> a2) nil
       ∧ prev n = last_ptr (bloc <$> a1) nil.
Proof.
  intros ((_ & Hseg & _) & _). rewrite fmap_app, fmap_cons in Hseg.
  apply dseg_nth in Hseg as (n & ? & ? & ?). eauto.
Qed.

Lemma Str_entry_lt c a e :
  Str c a → e ∈ all_entries a → (eloc e < length (enodes c))%nat.
Proof.
  intros (_ & Hbs & _) (b & Hb & He)%elem_of_all_entries.
  rewrite Forall_forall in Hbs.
  destruct (Hbs _ Hb) as (? & _ & _ & Hl). eapply dll_lt; [done|].
  by apply list_elem_of_fmap_2.
Qed.

(** A write to the [data] field of an entry node keeps the structure. *)
Lemma Str_set_entry_data c a x n d :
  enodes c !! x = Some n →
  Str c a → Str (set_enodes (<[x := set_data d n]> (enodes c)) c) a.
Proof.
  intros Hn (Hdll & Hbs & Hnd). split_and!; simpl; [done| |done].
  eapply Forall_impl; [exact Hbs|]. intros b (nb & Hnb & Hf & Hl).
  exists nb. split_and!; [done..|]. by apply dll_set_data.
Qed.

Lemma Ents_elem c a :
  Ents c a ↔ ∀ b e, b ∈ a → e ∈ bents b → entry_ok (enodes c) (bloc b) e.
Proof.
  unfold Ents. rewrite Forall_forall. split.
  - intros HE b e Hb He. specialize (HE _ Hb). rewrite Forall_forall in HE.
    by apply HE.
  - intros HE b Hb. apply Forall_forall. intros e He. by apply HE.
Qed.

(** The second half of [touch]: the entry, detached from its bucket
    [b1], joins the target bucket [t]; [b1] is unlinked when it is left
    empty with a frequency above 1; the back-reference is redirected. *)
Lemma touch_tail c2 a1 b1 t rest e :
  Str c2 (a1 ++ b1 :: t :: rest) →
  eloc e ∉ eloc <$> all_entries (a1 ++ b1 :: t :: rest) →
  data <$> enodes c2 !! eloc e
    = Some {| key := ekey e; value := evalue e;
              container := Some (bloc b1) |} →
  ∃ c',
    (on_entries (Some (bloc t)) (addNode (Some (eloc e))) c2
     ≫= λ '(_, c),
       cont ← container_of c (Some (eloc e));
       bk ← bucket_of c cont;
       c ← (if isEmpty (entries bk) && bool_decide (freq bk > 1)
            then cont ← container_of c (Some (eloc e));
                 '(_, c) ← on_sequence
                             (λ s, r ← remove cont s; Ok ((), r)) c;
                 Ok c
            else Ok c);
       eh ← update (enodes c) (Some (eloc e))
              (λ nd, set_data (set_container (Some (bloc t)) (data nd)) nd);
       Ok (set_enodes eh c)) = Ok c'
    ∧ Str c' (a1 ++ (if decide (bents b1 = [] ∧ bfreq b1 > 1)
                     then [] else [b1])
                 ++ with_ents t (bents t ++ [e]) :: rest)
    ∧ index c' = index c2 ∧ capacity c' = capacity c2
    ∧ length (enodes c') = length (enodes c2)
    ∧ length (bnodes c') = length (bnodes c2)
    ∧ (∀ x, x ≠ eloc e →
            data <$> enodes c' !! x = data <$> enodes c2 !! x)
    ∧ data <$> enodes c' !! eloc e
      = Some {| key := ekey e; value := evalue e;
                container := Some (bloc t) |}.
Proof.
  intros HS2 Hfree Hdata.
  assert (is_Some (enodes c2 !! eloc e)) as Hsome.
  { destruct (enodes c2 !! eloc e); [eauto|done]. }
  replace (a1 ++ b1 :: t :: rest) with ((a1 ++ [b1]) ++ t :: rest) in *
    by (by rewrite <-app_assoc).
  destruct (on_entries_addNode c2 _ t rest e HS2 Hfree Hsome)
    as (c3 & Hrun3 & HS3 & Hi3 & Hc3 & Hs3 & Hlb3 & Hle3 & Hd3).
  rewrite Hrun3. ok_bind.
  set (t' := with_ents t (bents t ++ [e])) in *.
  rewrite <-app_assoc in HS3. simpl in HS3.
  erewrite container_of_data; [|by rewrite Hd3]. ok_bind. simpl container.
  destruct (Str_bucket_of c3 _ b1 HS3) as (d1 & Hbk & Hf1 & Hemp & _).
  { apply elem_of_app. right. by left. }
  rewrite Hbk. ok_bind. rewrite Hemp, Hf1.
  assert (∃ c4,
    (if bool_decide (bents b1 = []) && bool_decide (bfreq b1 > 1)
     then '(_, c) ← on_sequence
                      (λ s, r ← remove (Some (bloc b1)) s; Ok ((), r)) c3;
          Ok c
     else Ok c3) = Ok c4
    ∧ Str c4 (a1 ++ (if decide (bents b1 = [] ∧ bfreq b1 > 1)
                     then [] else [b1]) ++ t' :: rest)
    ∧ enodes c4 = enodes c3 ∧ index c4 = index c3
    ∧ capacity c4 = capacity c3
    ∧ length (bnodes c4) = length (bnodes c3)) as
    (c4 & Hrun4 & HS4 & He4 & Hi4 & Hc4 & Hlb4).
  { destruct (decide (bents b1 = [] ∧ bfreq b1 > 1)) as [[Hnil Hgt]|Hno].
    - rewrite !bool_decide_eq_true_2 by done. simpl andb. cbv iota.
      destruct (on_sequence_remove c3 a1 b1 (t' :: rest) HS3)
        as (c4 & Hrun4 & HS4 & He4 & Hi4 & Hc4 & Hlb4).
      rewrite Hrun4. ok_bind. by exists c4.
    - assert (bool_decide (bents b1 = []) && bool_decide (bfreq b1 > 1)
              = false) as ->.
      { apply andb_false_iff.
        destruct (decide (bents b1 = [])).
        - right. apply bool_decide_eq_false_2. tauto.
        - left. by apply bool_decide_eq_false_2. }
      by exists c3. }
  rewrite Hrun4. ok_bind.
  destruct Hsome as [nd Hnd].
  assert (∃ nd4, enodes c4 !! eloc e = Some nd4
                 ∧ data nd4 = {| key := ekey e; value := evalue e;
                                 container := Some (bloc b1) |})
    as (nd4 & Hnd4 & Hdata4).
  { specialize (Hd3 (eloc e)). rewrite Hdata, <-He4 in Hd3.
    destruct (enodes c4 !! eloc e) as [nd4|]; [|done].
    exists nd4. simpl in Hd3. by injection Hd3. }
  rewrite (update_Some _ _ _ _ Hnd4). ok_bind.
  eexists. split; [done|].
  split_and!; simpl.
  - by apply Str_set_entry_data.
  - congruence.
  - congruence.
  - rewrite length_insert. congruence.
  - congruence.
  - intros x Hx. rewrite list_lookup_insert_ne by done.
    rewrite He4. apply Hd3.
  - rewrite list_lookup_insert_eq by (by apply lookup_lt_Some in Hnd4).
    simpl. by rewrite Hdata4.
Qed.

Lemma touch_Str c a1 b a2 es1 e es2 :
  Str c (a1 ++ b :: a2) → Ents c (a1 ++ b :: a2) →
  bents b = es1 ++ e :: es2 →
  ∃ c',
    touch (Some (eloc e)) c = Ok c'
    ∧ Str c' (touched (length (bnodes c)) a1 b es1 e es2 a2)
    ∧ index c' = index c ∧ capacity c' = capacity c
    ∧ length (enodes c') = length (enodes c)
    ∧ (length (bnodes c) ≤ length (bnodes c') ≤ S (length (bnodes c)))%nat
    ∧ (∀ x, x ≠ eloc e →
            data <$> enodes c' !! x = data <$> enodes c !! x)
    ∧ data <$> enodes c' !! eloc e
      = Some {| key := ekey e; value := evalue e;
                container :=
                  Some (target_loc (length (bnodes c)) b a2) |}.
Proof.
  intros HS HE Hb.
  set (nb := length (bnodes c)).
  assert (entry_ok (enodes c) (bloc b) e) as He.
  { rewrite Ents_elem in HE. apply HE.
    - apply elem_of_app. right. by left.
    - rewrite Hb. apply elem_of_app. right. by left. }
  destruct (Str_bucket_of c _ b HS) as (d & Hd & Hdf & _).
  { apply elem_of_app. right. by left. }
  assert (NoDup (eloc <$> all_entries (a1 ++ b :: a2))) as Hnd by apply HS.
  (* the entry leaves its bucket *)
  destruct (on_entries_remove c a1 b a2 es1 e es2 HS Hb)
    as (c1 & Hrun1 & HS1 & Hi1 & Hc1 & Hs1 & Hlb1 & Hle1 & Hd1).
  set (b1 := with_ents b (es1 ++ es2)) in *.
  assert (∀ c', (∀ x, data <$> enodes c' !! x = data <$> enodes c !! x) →
                container_of c' (Some (eloc e)) = Ok (Some (bloc b)))
    as Hcont.
  { intros c' Hd'. erewrite container_of_data; [|by rewrite Hd']. done. }
  unfold touch.
  rewrite (Hcont c) by done. ok_bind. rewrite Hd. ok_bind.
  rewrite Hrun1. ok_bind.
  rewrite (Hcont c1) by done. ok_bind.
  destruct (Str_links _ _ _ _ HS1) as (n1 & Hn1 & Hnext1 & _).
  change (bloc b1) with (bloc b) in Hn1.
  rewrite (load_Some _ _ _ Hn1). ok_bind. rewrite Hnext1.
  (* the entry is not in any list of [c1] *)
  assert (eloc e ∉ eloc <$> all_entries (a1 ++ b1 :: a2)) as Hfree.
  { by apply entry_loc_free. }
  assert (is_Some (enodes c1 !! eloc e)) as Hsome.
  { apply lookup_lt_is_Some. rewrite Hle1. eapply Str_entry_lt; [done|].
    rewrite all_entries_mid, Hb. apply elem_of_app. right.
    apply elem_of_app. left. apply elem_of_app. right. by left. }
  assert (data <$> enodes c1 !! eloc e
          = Some {| key := ekey e; value := evalue e;
                    container := Some (bloc b1) |}) as Hdata1.
  { rewrite Hd1. exact He. }
  rewrite Hdf.
  assert (∀ (fr : abucket) rest,
            bents fr = [] →
            eloc e ∉ eloc <$> all_entries (a1 ++ b1 :: rest) →
            eloc e ∉ eloc <$> all_entries (a1 ++ b1 :: fr :: rest))
    as Hfree_fr.
  { intros fr rest Hfr. rewrite !all_entries_mid, !all_entries_cons, Hfr.
    done. }
  destruct a2 as [|b2 a2'].
  - (* no successor: a new bucket *)
    simpl hd_ptr. rewrite decide_True by done. ok_bind.
    destruct (on_sequence_insertAfter c1 a1 b1 [] (bfreq b + 1) HS1)
      as (c2 & Hrun2 & HS2 & He2 & Hi2 & Hc2 & Hlb2).
    change (bloc b1) with (bloc b) in Hrun2. rewrite Hlb1 in Hrun2, HS2.
    rewrite Hrun2. ok_bind.
    set (fr := @mkABucket K V nb (bfreq b + 1) []) in *.
    destruct (touch_tail c2 a1 b1 fr [] e HS2)
      as (c' & Hrun & HS' & Hi' & Hc' & Hle' & Hlb' & Hd' & Hde').
    { by apply Hfree_fr. }
    { by rewrite He2. }
    exists c'. split; [exact Hrun|].
    split_and!;
      [exact HS'|congruence|congruence|congruence|lia|lia| |exact Hde'].
    + intros x Hx. rewrite Hd' by done. by rewrite He2.
  - simpl hd_ptr. rewrite decide_False by done.
    destruct (Str_bucket_of c1 _ b2 HS1) as (d2 & Hbk2 & Hf2 & _).
    { apply elem_of_app. right. right. by left. }
    rewrite Hbk2. ok_bind. rewrite Hf2.
    destruct (decide (bfreq b2 > bfreq b + 1)) as [Hgt|Hle].
    + (* the successor is further away: a new bucket in between *)
      rewrite bool_decide_eq_true_2 by done. cbv iota.
      destruct (on_sequence_insertAfter c1 a1 b1 (b2 :: a2')
                  (bfreq b + 1) HS1)
        as (c2 & Hrun2 & HS2 & He2 & Hi2 & Hc2 & Hlb2).
      change (bloc b1) with (bloc b) in Hrun2. rewrite Hlb1 in Hrun2, HS2.
      rewrite Hrun2. ok_bind.
      set (fr := @mkABucket K V nb (bfreq b + 1) []) in *.
      destruct (touch_tail c2 a1 b1 fr (b2 :: a2') e HS2)
        as (c' & Hrun & HS' & Hi' & Hc' & Hle' & Hlb' & Hd' & Hde').
      { by apply Hfree_fr. }
      { by rewrite He2. }
      exists c'. split; [exact Hrun|].
      unfold touched, target_loc.
      rewrite !(decide_True (P:=bfreq b2 > bfreq b + 1)) by done.
      split_and!;
        [exact HS'|congruence|congruence|congruence|lia|lia| |exact Hde'].
      * intros x Hx. rewrite Hd' by done. by rewrite He2.
    + (* the successor has the new frequency *)
      rewrite bool_decide_eq_false_2 by done. cbv iota. ok_bind.
      destruct (touch_tail c1 a1 b1 b2 a2' e HS1 Hfree Hdata1)
        as (c' & Hrun & HS' & Hi' & Hc' & Hle' & Hlb' & Hd' & Hde').
      exists c'. split; [exact Hrun|].
      unfold touched, target_loc.
      rewrite !(decide_False (P:=bfreq b2 > bfreq b + 1)) by done.
      split_and!;
        [exact HS'|congruence|congruence|congruence|lia|lia| |exact Hde'].
      * intros x Hx. rewrite Hd' by done. done.
Qed.
End Touch.

(** ** The cache: pictures after a touch *)

Section Touched.
Context {K V : Type} `{Countable K}.
Implicit Types (c : @cacheImpl K V _ _) (a : list (@abucket K V)).
Implicit Types (b : @abucket K V) (e : @aentry K V).

Lemma all_entries_touched nb a1 b es1 e es2 a2 :
  bents b = es1 ++ e :: es2 →
  all_entries (touched nb a1 b es1 e es2 a2)
  ≡ₚ all_entries (a1 ++ b :: a2).
Proof.
  intros Hb. unfold touched.
  rewrite all_entries_mid, Hb, !all_entries_app.
  apply Permutation_app_head.
  assert (all_entries
            (if decide (es1 ++ es2 = [] ∧ bfreq b > 1)
             then [] else [with_ents b (es1 ++ es2)]) = es1 ++ es2) as ->.
  { case_decide as Hd.
    - destruct Hd as [-> _]. done.
    - rewrite all_entries_cons, all_entries_nil. simpl. by rewrite app_nil_r. }
  destruct a2 as [|b2 a2']; [|case_decide];
    rewrite ?all_entries_cons, ?all_entries_nil; simpl;
    solve_Permutation.
Qed.

Lemma freqs_ok_touched nb a1 b es1 e es2 a2 :
  freqs_ok (a1 ++ b :: a2) → freqs_ok (touched nb a1 b es1 e es2 a2).
Proof.
  intros [(b0 & a' & Hhd & Hone) Hsort]. split.
  - unfold touched. destruct a1 as [|x a1']; simplify_eq/=.
    + rewrite decide_False by lia. simpl. eauto.
    + eauto.
  - clear Hhd Hone. unfold touched.
    rewrite fmap_app, fmap_cons in Hsort.
    apply StronglySorted_app in Hsort as (H12 & Hs1 & Hs2).
    apply StronglySorted_cons in Hs2 as (Hf2 & Hs2).
    rewrite Forall_forall in Hf2.
    assert (∀ x, x ∈ bfreq <$> a1 → x < bfreq b) as H1b.
    { intros x Hx. apply H12; [done|]. by left. }
    assert (∀ x y, x ∈ bfreq <$> a1 → y ∈ bfreq <$> a2 → x < y) as H1a.
    { intros x y Hx Hy. apply H12; [done|]. by right. }
    rewrite !fmap_app.
    apply StronglySorted_app_2; [|done|].
    + intros x y Hx [Hy|Hy]%elem_of_app.
      * case_decide; simpl in Hy.
        -- by apply elem_of_nil in Hy.
        -- apply list_elem_of_singleton in Hy as ->. by apply H1b.
      * destruct a2 as [|b2 a2']; [|case_decide]; simpl in Hy.
        -- apply list_elem_of_singleton in Hy as ->.
           specialize (H1b _ Hx). lia.
        -- apply elem_of_cons in Hy as [->|Hy].
           ++ specialize (H1b _ Hx). lia.
           ++ by apply H1a.
        -- by apply H1a.
    + apply StronglySorted_app_2.
      * intros x y Hx Hy. case_decide; simpl in Hx.
        { by apply elem_of_nil in Hx. }
        apply list_elem_of_singleton in Hx as ->.
        destruct a2 as [|b2 a2']; [|case_decide]; simpl in Hy.
        -- apply list_elem_of_singleton in Hy as ->. lia.
        -- apply elem_of_cons in Hy as [->|Hy]; [lia|].
           by apply Hf2.
        -- by apply Hf2.
      * case_decide; simpl; repeat constructor.
      * destruct a2 as [|b2 a2']; [|case_decide]; simpl.
        -- repeat constructor.
        -- apply StronglySorted_cons. split; [|done].
           apply Forall_forall. intros y Hy.
           simpl in Hs2. apply StronglySorted_cons in Hs2 as (Hb2 & _).
           rewrite Forall_forall in Hb2.
           simpl in Hy. apply elem_of_cons in Hy as [->|Hy]; [lia|].
           specialize (Hb2 _ Hy). lia.
        -- done.
Qed.

Lemma shape_touched nb a1 b es1 e e' es2 a2 :
  eloc e' = eloc e →
  shape (touched nb a1 b es1 e' es2 a2) = shape (touched nb a1 b es1 e es2 a2).
Proof.
  intros He. unfold touched, shape. rewrite !fmap_app. f_equal. f_equal.
  destruct a2 as [|b2 a2']; [|case_decide]; simpl; rewrite ?fmap_app; simpl;
    by rewrite He.
Qed.

Lemma shape_blocs a : bloc <$> a = (λ s, s.1.1) <$> shape a.
Proof. unfold shape. by rewrite <-list_fmap_compose. Qed.

Lemma shape_elocs a :
  eloc <$> all_entries a = concat ((λ s, s.2) <$> shape a).
Proof.
  induction a as [|b a IH]; [done|].
  rewrite all_entries_cons, fmap_app, IH. done.
Qed.

(** The pointer structure does not see keys and values. *)
Lemma Str_shape c a a' : shape a = shape a' → Str c a → Str c a'.
Proof.
  intros Hsh (Hdll & Hbs & Hnd). split_and!.
  - by rewrite shape_blocs, <-Hsh, <-shape_blocs.
  - clear Hdll Hnd. revert a' Hsh.
    induction a as [|b a IH]; intros [|b' a'] Hsh; simplify_eq/=;
      [constructor|].
    apply Forall_cons in Hbs as (Hb & Hbs).
    apply Forall_cons. split; [|by apply IH].
    destruct Hb as (n & Hn & Hf & Hl). exists n.
    split_and!; congruence.
  - by rewrite shape_elocs, <-Hsh, <-shape_elocs.
Qed.

Lemma Ents_touched c c' nb a1 b es1 e e' es2 a2 :
  NoDup (eloc <$> all_entries (a1 ++ b :: a2)) →
  bents b = es1 ++ e :: es2 →
  Ents c (a1 ++ b :: a2) →
  (∀ x, x ≠ eloc e → data <$> enodes c' !! x = data <$> enodes c !! x) →
  entry_ok (enodes c') (target_loc nb b a2) e' →
  Ents c' (touched nb a1 b es1 e' es2 a2).
Proof.
  intros Hnd Hb HE Hd He'.
  pose proof (entry_loc_free _ _ _ _ _ _ Hb Hnd) as Hfree.
  rewrite all_entries_mid, !fmap_app, !elem_of_app in Hfree.
  simpl in Hfree.
  rewrite Ents_elem in HE.
  assert (∀ b0 e0, b0 ∈ a1 ++ b :: a2 → e0 ∈ bents b0 →
                   eloc e0 ≠ eloc e →
                   entry_ok (enodes c') (bloc b0) e0) as Hold.
  { intros b0 e0 Hb0 He0 Hne. eapply entry_ok_frame; [by apply Hd|].
    by apply HE. }
  assert (∀ b0, b0 ∈ a1 → Forall (entry_ok (enodes c') (bloc b0)) (bents b0))
    as H1.
  { intros b0 Hb0. apply Forall_forall. intros e0 He0. apply Hold; [|done|].
    - apply elem_of_app. by left.
    - intros Heq. apply Hfree. left. rewrite <-Heq.
      apply list_elem_of_fmap_2, elem_of_all_entries. eauto. }
  assert (∀ b0, b0 ∈ a2 → Forall (entry_ok (enodes c') (bloc b0)) (bents b0))
    as H2.
  { intros b0 Hb0. apply Forall_forall. intros e0 He0. apply Hold; [|done|].
    - apply elem_of_app. right. by right.
    - intros Heq. apply Hfree. right. right. rewrite <-Heq.
      apply list_elem_of_fmap_2, elem_of_all_entries. eauto. }
  unfold Ents, touched. apply Forall_app. split; [by apply Forall_forall|].
  apply Forall_app. split.
  - case_decide; [constructor|]. apply Forall_singleton. simpl.
    apply Forall_forall. intros e0 He0.
    apply (Hold b); [apply elem_of_app; right; by left| |].
    + rewrite Hb. apply elem_of_app.
      apply elem_of_app in He0 as [?|?]; [by left|right; by right].
    + intros Heq. apply Hfree. right. left. rewrite <-Heq.
      by apply list_elem_of_fmap_2.
  - unfold target_loc in He'.
    destruct a2 as [|b2 a2']; [|case_decide].
    + apply Forall_singleton. simpl. by apply Forall_singleton.
    + apply Forall_cons. split; [by apply Forall_singleton|].
      by apply Forall_forall.
    + apply Forall_cons. split.
      * simpl. apply Forall_app. split; [|by apply Forall_singleton].
        apply H2. by left.
      * apply Forall_forall. intros b0 Hb0. apply H2. by right.
Qed.

Lemma index_as_list c a :
  NoDup (ekey <$> all_entries a) → index_ok c a →
  index c = list_to_map ((λ e, (ekey e, Some (eloc e))) <$> all_entries a).
Proof.
  intros Hnd Hi. apply map_eq. intros k.
  apply option_eq. intros p. rewrite (Hi k p).
  rewrite <-elem_of_list_to_map.
  - rewrite list_elem_of_fmap. split.
    + intros (e & He & Hk & Hp). subst. eauto.
    + intros (e & Heq & He). simplify_eq. eauto.
  - by rewrite <-list_fmap_compose.
Qed.

Lemma Rep_Size c a : Rep c a → Size c = Z.of_nat (length (all_entries a)).
Proof.
  intros (_ & _ & Hnd & Hi & _). unfold Size.
  rewrite (index_as_list _ _ Hnd Hi), map_size_list_to_map.
  - by rewrite length_fmap.
  - by rewrite <-list_fmap_compose.
Qed.

Lemma index_ok_perm c c' a a' :
  index c' = index c → all_entries a' ≡ₚ all_entries a →
  index_ok c a → index_ok c' a'.
Proof.
  intros Hi Hp Hok k p. rewrite Hi, (Hok k p).
  by setoid_rewrite Hp.
Qed.

(** Where the entry of a cached key sits. *)
Lemma Rep_find c a k p :
  Rep c a → index c !! k = Some p →
  ∃ a1 b a2 es1 e es2,
    a = a1 ++ b :: a2 ∧ bents b = es1 ++ e :: es2
    ∧ ekey e = k ∧ p = Some (eloc e).
Proof.
  intros (_ & _ & _ & Hi & _) Hk.
  apply Hi in Hk as (e & (b & Hb & He)%elem_of_all_entries & Hk & ->).
  apply list_elem_of_split in Hb as (a1 & a2 & ->).
  apply list_elem_of_split in He as (es1 & es2 & He).
  by exists a1, b, a2, es1, e, es2.
Qed.

(** [touch] on a cached entry, seen on pictures. *)
Lemma touch_Rep c a1 b a2 es1 e es2 :
  Rep c (a1 ++ b :: a2) → bents b = es1 ++ e :: es2 →
  ∃ c',
    touch (Some (eloc e)) c = Ok c'
    ∧ Rep c' (touched (length (bnodes c)) a1 b es1 e es2 a2)
    ∧ index c' = index c ∧ capacity c' = capacity c
    ∧ (length (bnodes c) ≤ length (bnodes c') ≤ S (length (bnodes c)))%nat.
Proof.
  intros (HS & HE & Hnk & Hi & Hf & Hsz) Hb.
  destruct (touch_Str c a1 b a2 es1 e es2 HS HE Hb)
    as (c' & Hrun & HS' & Hi' & Hc' & Hle' & Hlb' & Hd' & Hde').
  pose proof (all_entries_touched (length (bnodes c)) a1 b es1 e es2 a2 Hb)
    as Hperm.
  exists c'. split; [done|]. split; [|split_and!; [done|done|lia|lia]].
  split_and!.
  - done.
  - eapply Ents_touched; [apply HS|done..].
  - by rewrite Hperm.
  - by eapply index_ok_perm.
  - by apply freqs_ok_touched.
  - by rewrite Hperm, Hc'.
Qed.
End Touched.

(** ** The cache: [Get] and [Put] on a cached key *)

Section Hit.
Context {K V : Type} `{Countable K}.
Context (zeroV : V).
Implicit Types (c : @cacheImpl K V _ _) (a : list (@abucket K V)).
Implicit Types (b : @abucket K V) (e : @aentry K V).

Lemma Rep_entry c a b e :
  Rep c a → b ∈ a → e ∈ bents b →
  ∃ nd, enodes c !! eloc e = Some nd
        ∧ data nd = {| key := ekey e; value := evalue e;
                       container := Some (bloc b) |}.
Proof.
  intros (_ & HE & _) Hb He. rewrite Ents_elem in HE.
  specialize (HE _ _ Hb He). unfold entry_ok in HE.
  destruct (enodes c !! eloc e) as [nd|]; [|done].
  exists nd. split; [done|]. simpl in HE. by injection HE.
Qed.

Lemma Rep_index c a e :
  Rep c a → e ∈ all_entries a → index c !! ekey e = Some (Some (eloc e)).
Proof. intros (_ & _ & _ & Hi & _) He. apply Hi. eauto. Qed.

Lemma Rep_index_None c a k :
  Rep c a → index c !! k = None ↔ k ∉ ekey <$> all_entries a.
Proof.
  intros (_ & _ & _ & Hi & _). split.
  - intros Hk (e & -> & He)%list_elem_of_fmap.
    assert (index c !! ekey e = Some (Some (eloc e))) by (apply Hi; eauto).
    congruence.
  - intros Hk. destruct (index c !! k) as [p|] eqn:Hp; [|done].
    apply Hi in Hp as (e & He & <- & _). exfalso. apply Hk.
    by apply list_elem_of_fmap_2.
Qed.

Lemma index_ok_alt c a :
  index_ok c a ↔
  ∀ k p, index c !! k = Some p ↔
         (k, p) ∈ (λ e, (ekey e, Some (eloc e))) <$> all_entries a.
Proof.
  unfold index_ok. apply forall_proper. intros k.
  apply forall_proper. intros p.
  rewrite list_elem_of_fmap. split; intros ->.
  - split.
    + intros (e & He & Hk & Hp). subst. eauto.
    + intros (e & Heq & He). simplify_eq. eauto.
  - split.
    + intros (e & Heq & He). simplify_eq. eauto.
    + intros (e & He & Hk & Hp). subst. eauto.
Qed.

(** Overwriting the value of a cached entry. *)
Lemma Rep_set_value c a1 b a2 es1 e es2 nd v :
  Rep c (a1 ++ b :: a2) → bents b = es1 ++ e :: es2 →
  enodes c !! eloc e = Some nd →
  Rep (set_enodes (<[eloc e := set_data (set_value v (data nd)) nd]>
                     (enodes c)) c)
      (a1 ++ with_ents b (es1 ++ with_value e v :: es2) :: a2).
Proof.
  intros (HS & HE & Hnk & Hi & Hf & Hsz) Hb Hnd.
  set (b' := with_ents b (es1 ++ with_value e v :: es2)).
  assert (∀ {B} (f : aentry → B), f (with_value e v) = f e →
            f <$> all_entries (a1 ++ b' :: a2)
            = f <$> all_entries (a1 ++ b :: a2)) as Hsame.
  { intros B f Hfe. rewrite !all_entries_mid, Hb. simpl.
    rewrite !fmap_app, !fmap_cons. by rewrite Hfe. }
  assert (NoDup (eloc <$> all_entries (a1 ++ b :: a2))) as Hnd' by apply HS.
  split_and!.
  - apply Str_set_entry_data; [done|]. eapply Str_shape; [|done].
    unfold shape. rewrite !fmap_app, !fmap_cons. simpl.
    rewrite Hb. by rewrite !fmap_app, !fmap_cons.
  - rewrite Ents_elem in HE. apply Ents_elem. simpl.
    pose proof (entry_loc_free _ _ _ _ _ _ Hb Hnd') as Hfree.
    rewrite all_entries_mid, !fmap_app, !elem_of_app in Hfree.
    simpl in Hfree.
    assert (∀ b0 e0, b0 ∈ a1 ++ b :: a2 → e0 ∈ bents b0 →
              eloc e0 ≠ eloc e →
              entry_ok (<[eloc e:=set_data (set_value v (data nd)) nd]>
                          (enodes c)) (bloc b0) e0) as Hold.
    { intros b0 e0 Hb0 He0 Hne. unfold entry_ok.
      rewrite list_lookup_insert_ne by done. by apply HE. }
    intros b0 e0 [Hb0|[->|Hb0]%elem_of_cons]%elem_of_app He0.
    + apply Hold; [apply elem_of_app; by left|done|].
      intros Heq. apply Hfree. left. rewrite <-Heq.
      apply list_elem_of_fmap_2, elem_of_all_entries. eauto.
    + simpl in He0.
      apply elem_of_app in He0 as [He0|[->|He0]%elem_of_cons].
      * apply (Hold b); [apply elem_of_app; right; by left| |].
        -- rewrite Hb. apply elem_of_app. by left.
        -- intros Heq. apply Hfree. right. left. rewrite <-Heq.
           apply list_elem_of_fmap_2, elem_of_app. by left.
      * unfold entry_ok. simpl.
        rewrite list_lookup_insert_eq by (by apply lookup_lt_Some in Hnd).
        simpl. specialize (HE b e). unfold entry_ok in HE.
        rewrite Hnd in HE. simpl in HE.
        assert (data nd = {| key := ekey e; value := evalue e;
                             container := Some (bloc b) |}) as ->; [|done].
        assert (Some (data nd) = Some {| key := ekey e; value := evalue e;
                             container := Some (bloc b) |}); [|congruence].
        apply HE.
        -- apply elem_of_app. right. by left.
        -- rewrite Hb. apply elem_of_app. right. by left.
      * apply (Hold b); [apply elem_of_app; right; by left| |].
        -- rewrite Hb. apply elem_of_app. right. by right.
        -- intros Heq. apply Hfree. right. left. rewrite <-Heq.
           apply list_elem_of_fmap_2, elem_of_app. by right.
    + apply Hold; [apply elem_of_app; right; by right|done|].
      intros Heq. apply Hfree. right. right. rewrite <-Heq.
      apply list_elem_of_fmap_2, elem_of_all_entries. eauto.
  - by rewrite Hsame.
  - apply index_ok_alt. simpl. rewrite Hsame by done.
    by apply index_ok_alt.
  - destruct Hf as [(b0 & a' & Hhd & Hone) Hsort]. split.
    + destruct a1 as [|x a1']; simplify_eq/=; eauto.
    + by rewrite fmap_app, fmap_cons in *.
  - simpl. rewrite <-(length_fmap eloc), Hsame, length_fmap by done. done.
Qed.

(** The touched entry ends up last in its new bucket. *)
Lemma touched_decomp nb a1 b es1 es2 a2 :
  ∃ X1 T X2 Y1, ∀ e,
    touched nb a1 b es1 e es2 a2 = X1 ++ with_ents T (Y1 ++ [e]) :: X2.
Proof.
  unfold touched.
  exists (a1 ++ (if decide (es1 ++ es2 = [] ∧ bfreq b > 1)
                 then [] else [with_ents b (es1 ++ es2)])).
  destruct a2 as [|b2 a2'];
    [|destruct (decide (bfreq b2 > bfreq b + 1))].
  - exists (@mkABucket K V nb (bfreq b + 1) []), [], [].
    intros e. rewrite <-app_assoc. reflexivity.
  - exists (@mkABucket K V nb (bfreq b + 1) []), (b2 :: a2'), [].
    intros e. rewrite <-app_assoc. reflexivity.
  - exists b2, a2', (bents b2).
    intros e. rewrite <-app_assoc. reflexivity.
Qed.

Lemma elem_of_touched nb a1 b es1 e es2 a2 :
  e ∈ all_entries (touched nb a1 b es1 e es2 a2).
Proof.
  destruct (touched_decomp nb a1 b es1 es2 a2) as (X1 & T & X2 & Y1 & ->).
  rewrite all_entries_mid. simpl. apply elem_of_app. right.
  apply elem_of_app. left. apply elem_of_app. right. by left.
Qed.

Lemma Get_miss c k :
  index c !! k = None →
  Get zeroV k c = Ok ((zeroV, Some ErrKeyNotFound), c).
Proof. intros Hk. unfold Get. by rewrite Hk. Qed.

Lemma Get_hit c a1 b a2 es1 e es2 :
  Rep c (a1 ++ b :: a2) → bents b = es1 ++ e :: es2 →
  ∃ c',
    Get zeroV (ekey e) c = Ok ((evalue e, None), c')
    ∧ Rep c' (touched (length (bnodes c)) a1 b es1 e es2 a2)
    ∧ index c' = index c ∧ capacity c' = capacity c
    ∧ (length (bnodes c) ≤ length (bnodes c') ≤ S (length (bnodes c)))%nat.
Proof.
  intros HR Hb.
  destruct (touch_Rep c a1 b a2 es1 e es2 HR Hb)
    as (c' & Hrun & HR' & Hi' & Hc' & Hlb').
  exists c'. split; [|split_and!; [done|done|done|lia|lia]].
  unfold Get. erewrite Rep_index; [|done|]; last first.
  { rewrite all_entries_mid, Hb. apply elem_of_app. right.
    apply elem_of_app. left. apply elem_of_app. right. by left. }
  rewrite Hrun. ok_bind.
  pose proof (elem_of_touched (length (bnodes c)) a1 b es1 e es2 a2) as He.
  apply elem_of_all_entries in He as (b' & Hb' & He).
  destruct (Rep_entry _ _ _ _ HR' Hb' He) as (nd & Hnd & Hdata).
  rewrite (load_Some _ _ _ Hnd). ok_bind. by rewrite Hdata.
Qed.

Lemma Put_hit fuel c a1 b a2 es1 e es2 v :
  Rep c (a1 ++ b :: a2) → bents b = es1 ++ e :: es2 →
  ∃ c',
    Put fuel (ekey e) v c = Ok c'
    ∧ Rep c' (touched (length (bnodes c)) a1 b es1 (with_value e v) es2 a2)
    ∧ index c' = index c ∧ capacity c' = capacity c
    ∧ (length (bnodes c) ≤ length (bnodes c') ≤ S (length (bnodes c)))%nat.
Proof.
  intros HR Hb.
  destruct (touch_Rep c a1 b a2 es1 e es2 HR Hb)
    as (c' & Hrun & HR' & Hi' & Hc' & Hlb').
  unfold Put. erewrite Rep_index; [|done|]; last first.
  { rewrite all_entries_mid, Hb. apply elem_of_app. right.
    apply elem_of_app. left. apply elem_of_app. right. by left. }
  rewrite Hrun. ok_bind.
  destruct (touched_decomp (length (bnodes c)) a1 b es1 es2 a2)
    as (X1 & T & X2 & Y1 & Hdec).
  rewrite Hdec in HR'. rewrite Hdec.
  destruct (Rep_entry c' _ (with_ents T (Y1 ++ [e])) e HR')
    as (nd & Hnd & Hdata).
  { apply elem_of_app. right. by left. }
  { simpl. apply elem_of_app. right. by left. }
  rewrite (update_Some _ _ _ _ Hnd). ok_bind.
  eexists. split; [done|].
  split; [|split_and!; [done|done|simpl; lia|simpl; lia]].
  by apply (Rep_set_value c' X1 (with_ents T (Y1 ++ [e])) X2 Y1 e [] nd v).
Qed.
End Hit.

(** ** The cache: [Put] of a new key *)

Section Miss.
Context {K V : Type} `{Countable K}.
Implicit Types (c : @cacheImpl K V _ _) (a : list (@abucket K V)).
Implicit Types (b : @abucket K V) (e : @aentry K V).

Lemma Str_head c a :
  Str c a → head (sequence c) = hd_ptr (bloc <$> a) nil.
Proof. intros ((_ & _ & Hhd & _) & _). done. Qed.

Lemma Str_tail c a :
  Str c a → tail (sequence c) = last_ptr (bloc <$> a) nil.
Proof. intros ((_ & _ & _ & Htl) & _). done. Qed.

Lemma scan_eq fuel c cur :
  scan fuel c cur
  = (bk ← bucket_of c cur;
     if isEmpty (entries bk)
     then match fuel with
          | O => Timeout
          | S fuel => cn ← load (bnodes c) cur; scan fuel c (next cn)
          end
     else Ok cur).
Proof. by destruct fuel. Qed.

(** The eviction scan stops at the first bucket that has an entry. *)
Lemma scan_spec fuel c a0 a1 b a2 :
  Str c (a0 ++ a1 ++ b :: a2) →
  Forall (λ b', bents b' = []) a1 → bents b ≠ [] →
  (length a1 ≤ fuel)%nat →
  scan fuel c (hd_ptr (bloc <$> a1 ++ b :: a2) nil) = Ok (Some (bloc b)).
Proof.
  revert fuel a0. induction a1 as [|x a1 IH]; intros fuel a0 HS Hemp Hb Hfuel.
  - simpl. destruct (Str_bucket_of c _ b HS) as (d & Hd & _ & Hempty & _).
    { apply elem_of_app. right. by left. }
    rewrite scan_eq, Hd. ok_bind. rewrite Hempty.
    by rewrite bool_decide_eq_false_2.
  - apply Forall_cons in Hemp as (Hx & Hemp).
    destruct fuel as [|fuel]; [simpl in Hfuel; lia|].
    simpl in Hfuel. simpl hd_ptr.
    destruct (Str_bucket_of c _ x HS) as (d & Hd & _ & Hempty & _).
    { apply elem_of_app. right. by left. }
    rewrite scan_eq, Hd. ok_bind. rewrite Hempty.
    rewrite bool_decide_eq_true_2 by done.
    destruct (Str_links c a0 x (a1 ++ b :: a2) HS) as (n & Hn & Hnext & _).
    rewrite (load_Some _ _ _ Hn). ok_bind. rewrite Hnext.
    apply (IH fuel (a0 ++ [x])); [|done..|lia].
    by rewrite <-app_assoc.
Qed.

(** With no entry anywhere the scan runs off the end of the sequence. *)
Lemma scan_panic fuel c a0 a1 :
  Str c (a0 ++ a1) →
  Forall (λ b', bents b' = []) a1 →
  (length a1 ≤ fuel)%nat →
  scan fuel c (hd_ptr (bloc <$> a1) nil) = Panic.
Proof.
  revert fuel a0. induction a1 as [|x a1 IH]; intros fuel a0 HS Hemp Hfuel.
  - by destruct fuel.
  - apply Forall_cons in Hemp as (Hx & Hemp).
    destruct fuel as [|fuel]; [simpl in Hfuel; lia|].
    simpl in Hfuel. simpl hd_ptr.
    destruct (Str_bucket_of c _ x HS) as (d & Hd & _ & Hempty & _).
    { apply elem_of_app. right. by left. }
    rewrite scan_eq, Hd. ok_bind. rewrite Hempty.
    rewrite bool_decide_eq_true_2 by done.
    destruct (Str_links c a0 x a1 HS) as (n & Hn & Hnext & _).
    rewrite (load_Some _ _ _ Hn). ok_bind. rewrite Hnext.
    apply (IH fuel (a0 ++ [x])); [|done|lia].
    by rewrite <-app_assoc.
Qed.

Lemma all_entries_remove a1 b a2 es1 e es2 :
  bents b = es1 ++ e :: es2 →
  all_entries (a1 ++ b :: a2)
    = (all_entries a1 ++ es1) ++ e :: (es2 ++ all_entries a2)
  ∧ all_entries (a1 ++ with_ents b (es1 ++ es2) :: a2)
    = (all_entries a1 ++ es1) ++ (es2 ++ all_entries a2).
Proof.
  intros Hb. rewrite !all_entries_mid, Hb. simpl.
  by rewrite <-!app_assoc.
Qed.

Lemma length_all_entries_remove a1 b a2 es1 e es2 :
  bents b = es1 ++ e :: es2 →
  length (all_entries (a1 ++ b :: a2))
  = S (length (all_entries (a1 ++ with_ents b (es1 ++ es2) :: a2))).
Proof.
  intros Hb. destruct (all_entries_remove a1 b a2 es1 e es2 Hb) as [-> ->].
  rewrite !length_app. simpl. rewrite !length_app. lia.
Qed.

(** The eviction branch of [Put]. *)
Lemma evict_Rep fuel c a1 b a2 e es :
  Rep c (a1 ++ b :: a2) →
  Forall (λ b', bents b' = []) a1 → bents b = e :: es →
  (length a1 ≤ fuel)%nat →
  ∃ c1,
    (cur ← scan fuel c (head (sequence c));
     bk ← bucket_of c cur;
     '(_, c) ← on_entries cur
                 (λ s, r ← remove (head (entries bk)) s; Ok ((), r)) c;
     hn ← load (enodes c) (head (entries bk));
     Ok (set_index (delete (key (data hn)) (index c)) c)) = Ok c1
    ∧ Rep c1 (a1 ++ with_ents b es :: a2)
    ∧ index c1 = delete (ekey e) (index c)
    ∧ capacity c1 = capacity c
    ∧ length (bnodes c1) = length (bnodes c)
    ∧ length (enodes c1) = length (enodes c).
Proof.
  intros HR Hemp Hb Hfuel.
  pose proof HR as (HS & HE & Hnk & Hi & Hf & Hsz).
  rewrite (Str_head _ _ HS).
  rewrite (scan_spec fuel c [] a1 b a2); [|done..| |done];
    last by rewrite Hb.
  ok_bind.
  destruct (Str_bucket_of c _ b HS) as (d & Hd & _ & _ & Hhd).
  { apply elem_of_app. right. by left. }
  rewrite Hd. ok_bind. cbv zeta. rewrite Hhd, Hb. simpl hd_ptr.
  destruct (on_entries_remove c a1 b a2 [] e es HS Hb)
    as (c1 & Hrun1 & HS1 & Hi1 & Hc1 & Hs1 & Hlb1 & Hle1 & Hd1).
  rewrite Hrun1. ok_bind.
  destruct (Rep_entry c _ b e HR) as (nd & Hnd & Hdata).
  { apply elem_of_app. right. by left. }
  { rewrite Hb. by left. }
  assert (∃ nd1, enodes c1 !! eloc e = Some nd1 ∧ data nd1 = data nd)
    as (nd1 & Hnd1 & Hdata1).
  { specialize (Hd1 (eloc e)). rewrite Hnd in Hd1.
    destruct (enodes c1 !! eloc e) as [nd1|]; [|done].
    exists nd1. simpl in Hd1. split; congruence. }
  rewrite (load_Some _ _ _ Hnd1). ok_bind. rewrite Hdata1, Hdata.
  simpl key.
  eexists. split; [done|]. split_and!; simpl; [|congruence..].
  destruct (all_entries_remove a1 b a2 [] e es Hb) as (Hold & Hnew).
  simpl in Hnew. rewrite Hold in Hnk, Hsz.
  split_and!; simpl.
  - done.
  - apply (Ents_frame c); [by intros; apply Hd1|].
    unfold Ents in *. apply Forall_app in HE as (HE1 & HE2).
    apply Forall_cons in HE2 as (HEb & HE2).
    apply Forall_app. split; [done|]. apply Forall_cons. split; [|done].
    simpl. rewrite Hb in HEb. by apply Forall_cons in HEb as (_ & ?).
  - rewrite Hnew. rewrite fmap_app, fmap_cons in Hnk.
    rewrite fmap_app.
    apply NoDup_app in Hnk as (? & Hdis & (? & ?)%NoDup_cons).
    apply NoDup_app. split_and!; [done| |done].
    intros x Hx1 Hx2. eapply Hdis; [done|by right].
  - intros k p. simpl. rewrite Hi1.
    rewrite fmap_app, fmap_cons in Hnk.
    apply NoDup_mid_notin in Hnk. rewrite <-fmap_app in Hnk.
    rewrite Hnew. split.
    + intros (Hne & Hk)%lookup_delete_Some.
      apply Hi in Hk as (e0 & He0 & Hk0 & Hp). exists e0.
      split_and!; [|done..]. rewrite Hold in He0.
      apply elem_of_app in He0 as [?|[->|?]%elem_of_cons].
      * apply elem_of_app. by left.
      * done.
      * apply elem_of_app. by right.
    + intros (e0 & He0 & Hk0 & Hp). apply lookup_delete_Some. split.
      * intros Heq. apply Hnk. rewrite Heq, <-Hk0.
        by apply list_elem_of_fmap_2.
      * apply Hi. exists e0. split_and!; [|done..]. rewrite Hold.
        apply elem_of_app in He0 as [?|?].
        -- apply elem_of_app. by left.
        -- apply elem_of_app. right. by right.
  - destruct Hf as [(b0 & a' & Hhd0 & Hone) Hsort]. split.
    + destruct a1 as [|x a1']; simplify_eq/=; eauto.
    + by rewrite fmap_app, fmap_cons in *.
  - rewrite Hc1. rewrite <-Hold in Hsz.
    rewrite (length_all_entries_remove a1 b a2 [] e es Hb) in Hsz.
    simpl in Hsz. lia.
Qed.

(** The insertion that ends [Put] of a new key. *)
Lemma insert_Rep c a k v :
  Rep c a → index c !! k = None →
  Z.of_nat (length (all_entries a)) + 1 ≤ capacity c →
  ∃ c1 node c',
    on_entries (head (sequence c))
      (add {| key := k; value := v; container := head (sequence c) |}) c
      = Ok (node, c1)
    ∧ c' = set_index (<[k := node]> (index c1)) c1
    ∧ node = Some (length (enodes c))
    ∧ Rep c' (inserted a {| eloc := length (enodes c); ekey := k;
                            evalue := v |})
    ∧ index c' = <[k := Some (length (enodes c))]> (index c)
    ∧ capacity c' = capacity c
    ∧ length (bnodes c') = length (bnodes c).
Proof.
  intros HR Hk Hsz'.
  pose proof HR as (HS & HE & Hnk & Hi & Hf & Hsz).
  destruct Hf as [(b0 & a' & -> & Hone) Hsort].
  rewrite (Str_head _ _ HS). simpl hd_ptr.
  set (e := {| eloc := length (enodes c); ekey := k; evalue := v |}).
  destruct (on_entries_add c [] b0 a'
              {| key := k; value := v; container := Some (bloc b0) |} e HS)
    as (c1 & Hrun1 & HS1 & Hi1 & Hc1 & Hs1 & Hlb1 & Hle1 & Hnew & Hd1);
    [done|].
  simpl in Hrun1, HS1.
  exists c1, (Some (length (enodes c))),
    (set_index (<[k := Some (length (enodes c))]> (index c1)) c1).
  split; [exact Hrun1|].
  split; [done|]. split; [done|].
  split_and!; simpl; [|congruence..].
  apply (Rep_index_None _ _ k HR) in Hk.
  rewrite all_entries_cons in *.
  split_and!; simpl.
  - done.
  - unfold Ents in *. apply Forall_cons in HE as (HEb & HE).
    assert (∀ b', Forall (entry_ok (enodes c) (bloc b')) (bents b') →
                  Forall (entry_ok (enodes c1) (bloc b')) (bents b')) as Hold.
    { intros b' Hb'. eapply Forall_impl; [exact Hb'|]. intros e0 He0.
      eapply entry_ok_frame; [|done]. apply Hd1.
      unfold entry_ok in He0.
      destruct (enodes c !! eloc e0) eqn:E; [|done].
      by apply lookup_lt_Some in E. }
    apply Forall_cons. split; simpl.
    + apply Forall_app. split; [by apply Hold|].
      by apply Forall_singleton.
    + eapply Forall_impl; [exact HE|]. intros b' Hb'. by apply Hold.
  - rewrite all_entries_cons. simpl.
    rewrite <-app_assoc, (Permutation_app_comm [e]), app_assoc.
    rewrite fmap_app. simpl. apply NoDup_app.
    split_and!; [done| |apply NoDup_singleton].
    by intros x Hx ->%list_elem_of_singleton.
  - intros k' p. simpl. rewrite Hi1. rewrite all_entries_cons. simpl.
    rewrite lookup_insert_Some. split.
    + intros [[<- <-]|[Hne Hk']].
      * exists e. split_and!; [|done..].
        apply elem_of_app. left. apply elem_of_app. right. by left.
      * apply Hi in Hk' as (e0 & He0 & Hk0 & Hp). exists e0.
        split_and!; [|done..]. rewrite all_entries_cons in He0.
        apply elem_of_app in He0 as [?|?].
        -- apply elem_of_app. left. apply elem_of_app. by left.
        -- apply elem_of_app. by right.
    + intros (e0 & He0 & Hk0 & Hp).
      apply elem_of_app in He0
        as [[He0| ->%list_elem_of_singleton]%elem_of_app|He0].
      * right. split.
        -- intros <-. apply Hk. rewrite <-Hk0.
           apply list_elem_of_fmap_2, elem_of_app. by left.
        -- apply Hi. exists e0. split_and!; [|done..].
           rewrite all_entries_cons. apply elem_of_app. by left.
      * left. by subst.
      * right. split.
        -- intros <-. apply Hk. rewrite <-Hk0.
           apply list_elem_of_fmap_2, elem_of_app. by right.
        -- apply Hi. exists e0. split_and!; [|done..].
           rewrite all_entries_cons. apply elem_of_app. by right.
  - split; [|done]. eauto.
  - rewrite all_entries_cons. simpl. rewrite Hc1.
    rewrite !length_app in *. simpl. lia.
Qed.

Lemma Put_miss_evict fuel c a1 b a2 e es k v :
  Rep c (a1 ++ b :: a2) →
  Forall (λ b', bents b' = []) a1 → bents b = e :: es →
  index c !! k = None → Size c + 1 > Capacity c →
  (length a1 ≤ fuel)%nat →
  ∃ c',
    Put fuel k v c = Ok c'
    ∧ Rep c' (inserted (a1 ++ with_ents b es :: a2)
                {| eloc := length (enodes c); ekey := k; evalue := v |})
    ∧ index c' = <[k := Some (length (enodes c))]>
                   (delete (ekey e) (index c))
    ∧ capacity c' = capacity c
    ∧ length (bnodes c') = length (bnodes c).
Proof.
  intros HR Hemp Hb Hk Hfull Hfuel.
  destruct (evict_Rep fuel c a1 b a2 e es HR Hemp Hb Hfuel)
    as (c1 & Hrun1 & HR1 & Hi1 & Hc1 & Hlb1 & Hle1).
  unfold Put. rewrite Hk. rewrite decide_True by done. cbv zeta.
  rewrite Hrun1. ok_bind.
  destruct (insert_Rep c1 _ k v HR1)
    as (c2 & node & c' & Hrun2 & -> & -> & HR' & Hi' & Hc' & Hlb').
  { rewrite Hi1. by apply lookup_delete_None; right. }
  { destruct HR as (_ & _ & _ & _ & _ & Hsz).
    rewrite (length_all_entries_remove a1 b a2 [] e es Hb) in Hsz.
    simpl in Hsz. rewrite Hc1. lia. }
  rewrite Hrun2. ok_bind.
  eexists. split; [done|]. rewrite <-Hle1.
  split_and!; [done|by rewrite Hi', Hi1|congruence..].
Qed.

Lemma Put_miss_room fuel c a k v :
  Rep c a → index c !! k = None → ¬ Size c + 1 > Capacity c →
  ∃ c',
    Put fuel k v c = Ok c'
    ∧ Rep c' (inserted a {| eloc := length (enodes c); ekey := k;
                            evalue := v |})
    ∧ index c' = <[k := Some (length (enodes c))]> (index c)
    ∧ capacity c' = capacity c
    ∧ length (bnodes c') = length (bnodes c).
Proof.
  intros HR Hk Hroom.
  unfold Put. rewrite Hk. rewrite decide_False by done. ok_bind.
  destruct (insert_Rep c a k v HR Hk)
    as (c2 & node & c' & Hrun2 & -> & -> & HR' & Hi' & Hc' & Hlb').
  { rewrite (Rep_Size _ _ HR) in Hroom. unfold Capacity in Hroom. lia. }
  rewrite Hrun2. ok_bind. eexists. split; [done|]. done.
Qed.

(** A full cache without entries has capacity 0: the scan finds no victim
    and dereferences [nil]. *)
Lemma Put_miss_panic fuel c a k v :
  Rep c a → all_entries a = [] →
  index c !! k = None → Size c + 1 > Capacity c →
  (length a ≤ fuel)%nat →
  Put fuel k v c = Panic.
Proof.
  intros HR Hnone Hk Hfull Hfuel.
  pose proof HR as (HS & _).
  unfold Put. rewrite Hk. rewrite decide_True by done.
  rewrite (Str_head _ _ HS).
  rewrite (scan_panic fuel c [] a); [done..| |done].
  apply Forall_forall. intros b Hb.
  destruct (bents b) as [|e es] eqn:Hbe; [done|].
  assert (e ∈ all_entries a) as He.
  { apply elem_of_all_entries. exists b. split; [done|].
    rewrite Hbe. by left. }
  rewrite Hnone in He. by apply elem_of_nil in He.
Qed.

Lemma first_nonempty a :
  all_entries a ≠ [] →
  ∃ a1 b a2 e es,
    a = a1 ++ b :: a2 ∧ Forall (λ b', bents b' = []) a1
    ∧ bents b = e :: es.
Proof.
  induction a as [|b a IH]; [done|].
  rewrite all_entries_cons. intros Hne.
  destruct (bents b) as [|e es] eqn:Hb.
  - destruct (IH Hne) as (a1 & b' & a2 & e & es & -> & Hemp & Hb').
    exists (b :: a1), b', a2, e, es. split_and!; [done| |done].
    by apply Forall_cons.
  - exists [], b, a, e, es. split_and!; [done|constructor|done].
Qed.

Lemma Rep_length_buckets c a : Rep c a → (length a ≤ length (bnodes c))%nat.
Proof.
  intros (((Hnd & Hseg & _) & _) & _).
  rewrite <-(length_fmap bloc a).
  trans (length (seq 0 (length (bnodes c)))); [|by rewrite length_seq].
  apply submseteq_length, NoDup_submseteq; [done|].
  intros x Hx. apply elem_of_seq. split; [lia|]. simpl.
  by eapply dseg_lt.
Qed.
End Miss.

(** ** The cache: [All] *)

Section Iteration.
Context {K V : Type} `{Countable K}.
Implicit Types (c : @cacheImpl K V _ _) (a : list (@abucket K V)).
Implicit Types (b : @abucket K V) (e : @aentry K V).

Lemma feed_app {S} (yield : K → V → S → bool * S) kvs1 kvs2 s :
  feed yield (kvs1 ++ kvs2) s
  = let '(more, s') := feed yield kvs1 s in
    if more : bool then feed yield kvs2 s' else (false, s').
Proof.
  revert s. induction kvs1 as [|[k v] kvs1 IH]; intros s; simpl; [done|].
  destruct (yield k v s) as [[] s']; [apply IH|done].
Qed.

Lemma entries_loop_eq {S} fuel c cur (yield : K → V → S → bool * S) s :
  entries_loop fuel c cur yield s
  = if decide (cur ≠ nil)
    then match fuel with
         | O => Timeout
         | S fuel =>
             en ← load (enodes c) cur;
             let '(more, s) := yield (key (data en)) (value (data en)) s in
             if more : bool
             then entries_loop fuel c (prev en) yield s
             else Ok (false, s)
         end
    else Ok (true, s).
Proof. by destruct fuel. Qed.

Lemma buckets_loop_eq {S} efuel fuel c cur (yield : K → V → S → bool * S) s :
  buckets_loop efuel fuel c cur yield s
  = if decide (cur ≠ nil)
    then match fuel with
         | O => Timeout
         | S fuel =>
             bn ← load (bnodes c) cur;
             '(more, s) ← entries_loop efuel c (tail (entries (data bn)))
                            yield s;
             if more : bool
             then buckets_loop efuel fuel c (prev bn) yield s
             else Ok s
         end
    else Ok s.
Proof. by destruct fuel. Qed.

(** The inner loop visits the entries of a bucket from the newest back. *)
Lemma entries_loop_spec {S} fuel c bl (es : list aentry) q
    (yield : K → V → S → bool * S) s :
  dseg (enodes c) nil (eloc <$> es) q →
  Forall (entry_ok (enodes c) bl) es →
  (length es ≤ fuel)%nat →
  entries_loop fuel c (last_ptr (eloc <$> es) nil) yield s
  = Ok (feed yield ((λ e, (ekey e, evalue e)) <$> reverse es) s).
Proof.
  revert fuel q s.
  induction es as [|e es IH] using rev_ind; intros fuel q s Hseg HE Hfuel.
  - by rewrite entries_loop_eq.
  - rewrite fmap_app in Hseg |- *.
    change (eloc <$> [e]) with [eloc e] in *. rewrite last_ptr_snoc.
    rewrite entries_loop_eq. rewrite decide_True by done.
    rewrite length_app in Hfuel. simpl in Hfuel.
    destruct fuel as [|fuel]; [lia|].
    apply Forall_app in HE as (HE & He). rewrite Forall_singleton in He.
    pose proof Hseg as Hn. apply dseg_nth in Hn as (n & Hn & Hprev & _).
    rewrite (load_Some _ _ _ Hn). ok_bind.
    unfold entry_ok in He. rewrite Hn in He. simpl in He.
    injection He as He. rewrite He. simpl key. simpl value.
    rewrite reverse_snoc. simpl.
    destruct (yield (ekey e) (evalue e) s) as [[] s']; [|done].
    rewrite Hprev. apply dseg_app in Hseg as (Hseg & _).
    eapply IH; [done..|lia].
Qed.

Lemma pairs_snoc a b :
  pairs (a ++ [b])
  = ((λ e, (ekey e, evalue e)) <$> reverse (bents b)) ++ pairs a.
Proof.
  unfold pairs. rewrite all_entries_app, all_entries_cons, all_entries_nil.
  by rewrite app_nil_r, reverse_app, fmap_app.
Qed.

(** The outer loop visits the buckets from the highest frequency down. *)
Lemma buckets_loop_spec {S} efuel fuel c a q
    (yield : K → V → S → bool * S) s :
  dseg (bnodes c) nil (bloc <$> a) q →
  Forall (bucket_ok (enodes c) (bnodes c)) a →
  Ents c a →
  Forall (λ b, length (bents b) ≤ efuel)%nat a →
  (length a ≤ fuel)%nat →
  buckets_loop efuel fuel c (last_ptr (bloc <$> a) nil) yield s
  = Ok (feed yield (pairs a) s).2.
Proof.
  revert fuel q s.
  induction a as [|b a IH] using rev_ind;
    intros fuel q s Hseg Hbs HE Hef Hfuel.
  - by rewrite buckets_loop_eq.
  - rewrite fmap_app in Hseg |- *.
    change (bloc <$> [b]) with [bloc b] in *. rewrite last_ptr_snoc.
    rewrite buckets_loop_eq. rewrite decide_True by done.
    rewrite length_app in Hfuel. simpl in Hfuel.
    destruct fuel as [|fuel]; [lia|].
    unfold Ents in HE.
    apply Forall_app in Hbs as (Hbs & Hb). rewrite Forall_singleton in Hb.
    apply Forall_app in HE as (HE & He). rewrite Forall_singleton in He.
    apply Forall_app in Hef as (Hef & Hfb). rewrite Forall_singleton in Hfb.
    pose proof Hseg as Hn. apply dseg_nth in Hn as (n & Hn & Hprev & _).
    rewrite (load_Some _ _ _ Hn). ok_bind.
    destruct Hb as (n' & Hn' & _ & (_ & Hsegb & _ & Htl)).
    assert (n' = n) as -> by congruence.
    rewrite Htl.
    erewrite entries_loop_spec; [|done..].
    ok_bind. rewrite pairs_snoc, feed_app.
    destruct (feed yield _ s) as [[] s']; [|done].
    rewrite Hprev. apply dseg_app in Hseg as (Hseg & _).
    eapply IH; [done..|lia].
Qed.

(** [All] feeds the consumer the pairs of the picture, in order, until
    the consumer declines, and leaves the cache as it was. *)
Lemma All_spec {S} fuel c a (yield : K → V → S → bool * S) s :
  Rep c a →
  (length (all_entries a) ≤ fuel)%nat → (length a ≤ fuel)%nat →
  All fuel c yield s = Ok ((feed yield (pairs a) s).2, c).
Proof.
  intros (HS & HE & _) Hef Hfuel. unfold All.
  rewrite (Str_tail _ _ HS).
  destruct HS as ((_ & Hseg & _) & Hbs & _).
  erewrite buckets_loop_spec; [done|done..| |done].
  apply Forall_forall. intros b Hb.
  apply list_elem_of_split in Hb as (a1 & a2 & ->).
  rewrite all_entries_mid, !length_app in Hef. lia.
Qed.

Lemma feed_collect (kvs acc : list (K * V)) :
  feed collect kvs acc = (true, acc ++ kvs).
Proof.
  revert acc. induction kvs as [|[k v] kvs IH]; intros acc; simpl.
  - by rewrite app_nil_r.
  - rewrite IH. by rewrite <-app_assoc.
Qed.

Lemma feed_collect_upto n (kvs acc : list (K * V)) :
  (length acc < n)%nat →
  (feed (collect_upto n) kvs acc).2 = acc ++ take (n - length acc) kvs.
Proof.
  revert acc. induction kvs as [|[k v] kvs IH]; intros acc Hn; simpl.
  - by rewrite take_nil, app_nil_r.
  - case_bool_decide as Hlt.
    + rewrite IH by (rewrite length_app; simpl; lia).
      rewrite length_app. simpl.
      destruct (n - length acc)%nat as [|m] eqn:Hm; [lia|].
      simpl. rewrite <-app_assoc. simpl. do 2 f_equal. f_equal. lia.
    + simpl. destruct (n - length acc)%nat as [|m] eqn:Hm; [lia|].
      assert (m = 0)%nat as -> by lia. done.
Qed.
End Iteration.

(** ** Calls on pictures *)

Section Refinement.
Context {K V : Type} `{Countable K}.
Context (zeroV : V).
Implicit Types (c : @cacheImpl K V _ _) (a : list (@abucket K V)).
Implicit Types (b : @abucket K V) (e : @aentry K V).
Implicit Types (o : @call K V).

(** More fuel does not change a result. *)
Lemma scan_mono fuel fuel' c cur r :
  scan fuel c cur = Ok r → (fuel ≤ fuel')%nat → scan fuel' c cur = Ok r.
Proof.
  revert fuel' cur. induction fuel as [|fuel IH]; intros fuel' cur.
  - rewrite !scan_eq. destruct (bucket_of c cur) as [bk| |]; [|done..].
    simpl. destruct (isEmpty (entries bk)); done.
  - rewrite (scan_eq (S fuel)), (scan_eq fuel').
    destruct (bucket_of c cur) as [bk| |]; [|done..]. simpl.
    destruct (isEmpty (entries bk)); [|done].
    destruct fuel' as [|fuel']; [lia|].
    destruct (load (bnodes c) cur) as [cn| |]; [|done..]. simpl.
    intros Hs Hle. apply IH; [done|lia].
Qed.

Lemma Put_mono fuel fuel' k v c c' :
  Put fuel k v c = Ok c' → (fuel ≤ fuel')%nat → Put fuel' k v c = Ok c'.
Proof.
  unfold Put. destruct (index c !! k); [done|].
  case_decide; [|done].
  destruct (scan fuel c (head (sequence c))) as [r| |] eqn:Hs; [|done..].
  intros Hrun Hle. by rewrite (scan_mono _ _ _ _ _ Hs Hle).
Qed.

Lemma exec_mono fuel fuel' o c c' :
  exec zeroV fuel o c = Ok c' → (fuel ≤ fuel')%nat →
  exec zeroV fuel' o c = Ok c'.
Proof. destruct o; [done|]. apply Put_mono. Qed.

Lemma New_Rep cap :
  0 ≤ cap →
  ∃ c0 : cacheImpl (K:=K) (V:=V),
    New [cap] = Ok c0
    ∧ Rep c0 [{| bloc := 0; bfreq := 1; bents := [] |}]
    ∧ capacity c0 = cap
    ∧ length (bnodes c0) = 1%nat.
Proof.
  intros Hcap. unfold New. rewrite decide_False by (simpl; lia).
  rewrite decide_False by lia.
  eexists. split; [reflexivity|]. split_and!; [|done..].
  split_and!; simpl.
  - split_and!; simpl.
    + split_and!; [apply NoDup_singleton| |done..].
      simpl. split; [|done]. eexists. split; [reflexivity|]. done.
    + apply Forall_singleton. eexists. split; [reflexivity|].
      split; [done|]. apply dll_nil.
    + constructor.
  - apply Forall_singleton. constructor.
  - constructor.
  - intros k p. simpl. rewrite lookup_empty. split; [done|].
    intros (e & He & _). by apply elem_of_nil in He.
  - split; [eauto|]. repeat constructor.
  - lia.
Qed.

Lemma Rep_keys_index c a k :
  Rep c a → k ∉ keys a ↔ index c !! k = None.
Proof. intros HR. symmetry. by apply Rep_index_None. Qed.

(** Every call that returns does on pictures what [pic_step] says. *)
Lemma exec_pic fuel o c c' a :
  Rep c a → exec zeroV fuel o c = Ok c' →
  ∃ a',
    pic_step (length (bnodes c)) (length (enodes c)) (capacity c) o a a'
    ∧ Rep c' a'
    ∧ capacity c' = capacity c
    ∧ (length (bnodes c) ≤ length (bnodes c') ≤ S (length (bnodes c)))%nat.
Proof.
  intros HR Hrun. destruct o as [k|k v]; simpl in Hrun.
  - (* Get *)
    destruct (index c !! k) as [p|] eqn:Hk.
    + destruct (Rep_find _ _ _ _ HR Hk)
        as (a1 & b & a2 & es1 & e & es2 & -> & Hb & <- & ->).
      destruct (Get_hit zeroV c a1 b a2 es1 e es2 HR Hb)
        as (c1 & Hget & HR1 & Hi1 & Hc1 & Hlb1).
      rewrite Hget in Hrun. simpl in Hrun. injection Hrun as <-.
      eexists. split_and!; [by apply pic_get_hit|done|done|lia|lia].
    + rewrite (Get_miss _ _ _ Hk) in Hrun. simpl in Hrun.
      injection Hrun as <-. exists a. split_and!; [|done..|lia|lia].
      constructor. by apply (Rep_keys_index c).
  - (* Put *)
    destruct (index c !! k) as [p|] eqn:Hk.
    + destruct (Rep_find _ _ _ _ HR Hk)
        as (a1 & b & a2 & es1 & e & es2 & -> & Hb & <- & ->).
      destruct (Put_hit fuel c a1 b a2 es1 e es2 v HR Hb)
        as (c1 & Hput & HR1 & Hi1 & Hc1 & Hlb1).
      rewrite Hput in Hrun. injection Hrun as <-.
      eexists. split_and!; [by apply pic_put_hit|done|done|lia|lia].
    + destruct (decide (Size c + 1 > Capacity c)) as [Hfull|Hroom].
      * apply (Put_mono _ (fuel `max` length a)) in Hrun; [|lia].
        destruct (decide (all_entries a = [])) as [Hnone|Hsome].
        { rewrite (Put_miss_panic _ c a) in Hrun; [done..|lia]. }
        destruct (first_nonempty a Hsome)
          as (a1 & b & a2 & e & es & -> & Hemp & Hb).
        destruct (Put_miss_evict (fuel `max` length (a1 ++ b :: a2))
                    c a1 b a2 e es k v HR Hemp Hb Hk Hfull)
          as (c1 & Hput & HR1 & Hi1 & Hc1 & Hlb1).
        { rewrite length_app. lia. }
        rewrite Hput in Hrun. injection Hrun as <-.
        eexists. split_and!; [|done|done|lia|lia].
        eapply pic_put_evict; [|  |done..].
        -- by apply (Rep_keys_index c).
        -- rewrite (Rep_Size _ _ HR) in Hfull. done.
      * destruct (Put_miss_room fuel c a k v HR Hk Hroom)
          as (c1 & Hput & HR1 & Hi1 & Hc1 & Hlb1).
        rewrite Hput in Hrun. injection Hrun as <-.
        eexists. split_and!; [|done|done|lia|lia].
        apply pic_put_room.
        -- by apply (Rep_keys_index c).
        -- rewrite (Rep_Size _ _ HR) in Hroom. unfold Capacity in Hroom.
           lia.
Qed.

(** With a capacity of at least 1 and fuel for the buckets, a call
    returns. *)
Lemma exec_returns fuel o c a :
  Rep c a → 1 ≤ capacity c → (length (bnodes c) ≤ fuel)%nat →
  ∃ c', exec zeroV fuel o c = Ok c'.
Proof.
  intros HR Hcap Hfuel. destruct o as [k|k v]; simpl.
  - destruct (index c !! k) as [p|] eqn:Hk.
    + destruct (Rep_find _ _ _ _ HR Hk)
        as (a1 & b & a2 & es1 & e & es2 & -> & Hb & <- & ->).
      destruct (Get_hit zeroV c a1 b a2 es1 e es2 HR Hb)
        as (c1 & Hget & _).
      rewrite Hget. simpl. eauto.
    + rewrite (Get_miss _ _ _ Hk). simpl. eauto.
  - destruct (index c !! k) as [p|] eqn:Hk.
    + destruct (Rep_find _ _ _ _ HR Hk)
        as (a1 & b & a2 & es1 & e & es2 & -> & Hb & <- & ->).
      destruct (Put_hit fuel c a1 b a2 es1 e es2 v HR Hb)
        as (c1 & Hput & _). eauto.
    + destruct (decide (Size c + 1 > Capacity c)) as [Hfull|Hroom].
      * destruct (decide (all_entries a = [])) as [Hnone|Hsome].
        { rewrite (Rep_Size _ _ HR), Hnone in Hfull.
          unfold Capacity in Hfull. simpl in Hfull. lia. }
        destruct (first_nonempty a Hsome)
          as (a1 & b & a2 & e & es & -> & Hemp & Hb).
        destruct (Put_miss_evict fuel c a1 b a2 e es k v HR Hemp Hb Hk Hfull)
          as (c1 & Hput & _); [|eauto].
        pose proof (Rep_length_buckets _ _ HR) as Hlen.
        rewrite length_app in Hlen. lia.
      * destruct (Put_miss_room fuel c a k v HR Hk Hroom)
          as (c1 & Hput & _). eauto.
Qed.
End Refinement.

(** ** Properties of pictures *)

Section Pictures.
Context {K V : Type} `{Countable K}.
Implicit Types (a : list (@abucket K V)).
Implicit Types (b : @abucket K V) (e : @aentry K V).
Implicit Types (o : @call K V) (h : list (@call K V)).

(** *** Recency *)

Lemma last_use_snoc h o k :
  last_use (h ++ [o]) k
  = if decide (call_key o = k) then S (length h) else last_use h k.
Proof.
  unfold last_use. rewrite reverse_snoc. simpl.
  by rewrite length_reverse.
Qed.

Lemma last_use_le h k : (last_use h k ≤ length h)%nat.
Proof.
  induction h as [|o h IH] using rev_ind; [done|].
  rewrite last_use_snoc, length_app. simpl. case_decide; lia.
Qed.

Lemma StronglySorted_impl_elem {A} (R R' : relation A) (l : list A) :
  (∀ x y, x ∈ l → y ∈ l → R x y → R' x y) →
  StronglySorted R l → StronglySorted R' l.
Proof.
  induction l as [|x l IH]; intros Himp; [constructor|].
  rewrite !StronglySorted_cons, !Forall_forall. intros [Hx Hl]. split.
  - intros y Hy. apply Himp; [by left|by right|by apply Hx].
  - apply IH; [|done]. intros y z Hy Hz. apply Himp; by right.
Qed.

Lemma StronglySorted_remove {A} (R : relation A) (l1 l2 : list A) x :
  StronglySorted R (l1 ++ x :: l2) → StronglySorted R (l1 ++ l2).
Proof.
  rewrite !StronglySorted_app, StronglySorted_cons.
  intros (H12 & Hl1 & _ & Hl2). split_and!; [|done..].
  intros y z Hy Hz. apply H12; [done|by right].
Qed.

Abbreviation older h :=
  (λ e1 e2 : @aentry K V,
     (last_use h (ekey e1) < last_use h (ekey e2))%nat).

(** Entries whose keys the call does not name keep their order. *)
Lemma older_keep h o (es : list aentry) :
  call_key o ∉ ekey <$> es →
  StronglySorted (older h) es → StronglySorted (older (h ++ [o])) es.
Proof.
  intros Hk. apply StronglySorted_impl_elem. intros x y Hx Hy Hxy.
  rewrite !last_use_snoc.
  rewrite !decide_False; [done|..].
  - intros Heq. apply Hk. rewrite Heq. by apply list_elem_of_fmap_2.
  - intros Heq. apply Hk. rewrite Heq. by apply list_elem_of_fmap_2.
Qed.

(** The entry that the call names is newer than all others. *)
Lemma older_snoc h o (es : list aentry) e :
  call_key o ∉ ekey <$> es → ekey e = call_key o →
  StronglySorted (older h) es →
  StronglySorted (older (h ++ [o])) (es ++ [e]).
Proof.
  intros Hk He Hs. apply StronglySorted_app_2.
  - intros x y Hx ->%list_elem_of_singleton.
    rewrite !last_use_snoc.
    rewrite (decide_True (P:=call_key o = ekey e)) by done.
    rewrite (decide_False (P:=call_key o = ekey x)).
    + pose proof (last_use_le h (ekey x)). lia.
    + intros Heq. apply Hk. rewrite Heq. by apply list_elem_of_fmap_2.
  - by apply older_keep.
  - repeat constructor.
Qed.

Lemma keys_mid a1 b a2 :
  keys (a1 ++ b :: a2) = keys a1 ++ (ekey <$> bents b) ++ keys a2.
Proof. unfold keys. by rewrite all_entries_mid, !fmap_app. Qed.

Lemma keys_cons b a : keys (b :: a) = (ekey <$> bents b) ++ keys a.
Proof. unfold keys. by rewrite all_entries_cons, fmap_app. Qed.

Lemma elem_of_keys_bucket a b k :
  b ∈ a → k ∈ ekey <$> bents b → k ∈ keys a.
Proof.
  intros Hb (e & -> & He)%list_elem_of_fmap. unfold keys.
  apply list_elem_of_fmap_2, elem_of_all_entries. eauto.
Qed.

Lemma recent_ok_keep h o a :
  call_key o ∉ keys a → recent_ok h a → recent_ok (h ++ [o]) a.
Proof.
  intros Hk Hr. unfold recent_ok in *. rewrite Forall_forall in Hr.
  apply Forall_forall. intros b Hb. apply older_keep; [|by apply Hr].
  intros Hin. apply Hk. by eapply elem_of_keys_bucket.
Qed.

Lemma recent_ok_removed h a1 b a2 es1 e es2 :
  bents b = es1 ++ e :: es2 →
  recent_ok h (a1 ++ b :: a2) →
  recent_ok h (a1 ++ with_ents b (es1 ++ es2) :: a2).
Proof.
  intros Hb. unfold recent_ok. rewrite !Forall_app, !Forall_cons.
  intros (H1 & Hbs & H2). split_and!; [done| |done].
  simpl. rewrite Hb in Hbs. by eapply StronglySorted_remove.
Qed.

Lemma keys_removed a1 b a2 es1 e es2 :
  bents b = es1 ++ e :: es2 →
  NoDup (keys (a1 ++ b :: a2)) →
  NoDup (keys (a1 ++ with_ents b (es1 ++ es2) :: a2))
  ∧ (ekey e ∉ keys (a1 ++ with_ents b (es1 ++ es2) :: a2))
  ∧ (∀ k, k ∈ keys (a1 ++ b :: a2) ↔
          (k = ekey e ∨ k ∈ keys (a1 ++ with_ents b (es1 ++ es2) :: a2))).
Proof.
  intros Hb. unfold keys.
  destruct (all_entries_remove a1 b a2 es1 e es2 Hb) as [-> ->].
  set (L1 := all_entries a1 ++ es1). set (L2 := es2 ++ all_entries a2).
  rewrite !fmap_app, fmap_cons. intros Hnd. split_and!.
  - apply NoDup_app in Hnd as (? & Hd & (? & ?)%NoDup_cons).
    apply NoDup_app. split_and!; [done| |done].
    intros x Hx1 Hx2. eapply Hd; [done|by right].
  - by apply NoDup_mid_notin.
  - intros k. rewrite !elem_of_app, elem_of_cons. tauto.
Qed.

Lemma recent_ok_inserted h o a e :
  call_key o ∉ keys a → ekey e = call_key o →
  recent_ok h a → recent_ok (h ++ [o]) (inserted a e).
Proof.
  intros Hk He Hr. destruct a as [|b0 a]; [constructor|].
  unfold recent_ok in *. apply Forall_cons in Hr as (Hb0 & Hr).
  rewrite keys_cons, elem_of_app in Hk.
  simpl. apply Forall_cons. split.
  - simpl. apply older_snoc; [tauto|done..].
  - rewrite Forall_forall in Hr. apply Forall_forall. intros b Hb.
    apply older_keep; [|by apply Hr].
    intros Hin. apply Hk. right. by eapply elem_of_keys_bucket.
Qed.

Lemma recent_ok_touched h o nb a1 b a2 es1 e e' es2 :
  bents b = es1 ++ e :: es2 →
  NoDup (keys (a1 ++ b :: a2)) →
  call_key o = ekey e → ekey e' = ekey e →
  recent_ok h (a1 ++ b :: a2) →
  recent_ok (h ++ [o]) (touched nb a1 b es1 e' es2 a2).
Proof.
  intros Hb Hnd Ho He' Hr.
  destruct (keys_removed _ _ _ _ _ _ Hb Hnd) as (Hnd' & Hk & _).
  pose proof (recent_ok_removed _ _ _ _ _ _ _ Hb Hr) as Hr'.
  rewrite <-Ho in Hk.
  pose proof (recent_ok_keep h o _ Hk Hr') as Hr''.
  rewrite keys_mid, !elem_of_app in Hk.
  unfold recent_ok in *.
  apply Forall_app in Hr'' as (H1 & Hr'').
  apply Forall_cons in Hr'' as (Hb1 & H2).
  apply Forall_app in Hr' as (_ & Hr').
  apply Forall_cons in Hr' as (_ & H2').
  unfold touched. apply Forall_app. split; [done|].
  apply Forall_app. split.
  - case_decide; [constructor|]. by apply Forall_singleton.
  - destruct a2 as [|b2 a2']; [|destruct (decide (bfreq b2 > bfreq b + 1))].
    + apply Forall_singleton. simpl. repeat constructor.
    + apply Forall_cons. split; [|done]. simpl. repeat constructor.
    + apply Forall_cons in H2 as (_ & H2).
      apply Forall_cons in H2' as (Hb2 & _).
      apply Forall_cons. split; [|done]. simpl.
      apply older_snoc; [|congruence|done].
      intros Hin. apply Hk. right. right.
      rewrite keys_cons, elem_of_app. by left.
Qed.

(** *** Frequencies and values *)

Lemma has_nil k f v : has (K:=K) (V:=V) [] k f v ↔ False.
Proof.
  split; [|done]. intros (b & e & Hb & _). by apply elem_of_nil in Hb.
Qed.

Lemma has_cons b a k f v :
  has (b :: a) k f v ↔
  (∃ e, e ∈ bents b ∧ ekey e = k ∧ bfreq b = f ∧ evalue e = v)
  ∨ has a k f v.
Proof.
  unfold has. split.
  - intros (b' & e & [->|Hb]%elem_of_cons & He); [left|right]; eauto.
  - intros [(e & He)|(b' & e & Hb & He)].
    + exists b, e. split; [by left|done].
    + exists b', e. split; [by right|done].
Qed.

Lemma has_app a1 a2 k f v :
  has (a1 ++ a2) k f v ↔ has a1 k f v ∨ has a2 k f v.
Proof.
  induction a1 as [|b a1 IH]; simpl.
  - rewrite has_nil. tauto.
  - rewrite !has_cons, IH. tauto.
Qed.

Lemma has_key a k f v : has a k f v → k ∈ keys a.
Proof.
  intros (b & e & Hb & He & <- & _). unfold keys.
  apply list_elem_of_fmap_2, elem_of_all_entries. eauto.
Qed.

Lemma key_has a k : k ∈ keys a → ∃ f v, has a k f v.
Proof.
  intros (e & -> & (b & Hb & He)%elem_of_all_entries)%list_elem_of_fmap.
  exists (bfreq b), (evalue e), b, e. done.
Qed.

Lemma has_removed a1 b a2 es1 e es2 k f v :
  bents b = es1 ++ e :: es2 →
  NoDup (keys (a1 ++ b :: a2)) →
  has (a1 ++ with_ents b (es1 ++ es2) :: a2) k f v ↔
  k ≠ ekey e ∧ has (a1 ++ b :: a2) k f v.
Proof.
  intros Hb Hnd.
  destruct (keys_removed _ _ _ _ _ _ Hb Hnd) as (_ & Hk & _).
  split.
  - intros Hh. split.
    + intros ->. apply Hk. by eapply has_key.
    + revert Hh. rewrite !has_app, !has_cons. simpl. rewrite Hb.
      intros [?|[(e0 & He0 & ?)|?]]; [tauto| |tauto].
      right. left. exists e0. split; [|done].
      apply elem_of_app in He0 as [?|?]; apply elem_of_app;
        [by left|right; by right].
  - intros (Hne & Hh). revert Hh. rewrite !has_app, !has_cons. simpl.
    rewrite Hb.
    intros [?|[(e0 & He0 & Hk0 & ?)|?]]; [tauto| |tauto].
    right. left. exists e0. split; [|done].
    apply elem_of_app in He0 as [?|[->|?]%elem_of_cons]; apply elem_of_app;
      [by left|done|by right].
Qed.

Lemma has_inserted a e k f v :
  freqs_ok a →
  has (inserted a e) k f v ↔
  (k = ekey e ∧ f = 1 ∧ v = evalue e) ∨ has a k f v.
Proof.
  intros [(b0 & a' & -> & Hone) _]. simpl.
  rewrite !has_cons. simpl. split.
  - intros [(e0 & [He0| ->%list_elem_of_singleton]%elem_of_app & ? & ? & ?)|?].
    + right. left. eauto.
    + left. split_and!; congruence.
    + tauto.
  - intros [(-> & -> & ->)|[(e0 & He0 & ?)|?]].
    + left. exists e. split; [|done]. apply elem_of_app. right. by left.
    + left. exists e0. split; [|done]. apply elem_of_app. by left.
    + tauto.
Qed.

Lemma freqs_ok_next a1 b b2 a2' :
  freqs_ok (a1 ++ b :: b2 :: a2') → bfreq b < bfreq b2.
Proof.
  intros [_ Hs]. rewrite fmap_app in Hs. simpl in Hs.
  apply StronglySorted_app_1_r in Hs.
  apply StronglySorted_cons in Hs as (Hf & _).
  by apply Forall_cons in Hf as (? & _).
Qed.

Lemma has_touched nb a1 b a2 es1 e e' es2 k f v :
  bents b = es1 ++ e :: es2 →
  freqs_ok (a1 ++ b :: a2) →
  has (touched nb a1 b es1 e' es2 a2) k f v ↔
  (k = ekey e' ∧ f = bfreq b + 1 ∧ v = evalue e')
  ∨ has (a1 ++ with_ents b (es1 ++ es2) :: a2) k f v.
Proof.
  intros Hb Hf. unfold touched.
  rewrite !has_app, !has_cons.
  assert (has (if decide (es1 ++ es2 = [] ∧ bfreq b > 1)
               then [] else [with_ents b (es1 ++ es2)]) k f v
          ↔ ∃ e0, e0 ∈ es1 ++ es2 ∧ ekey e0 = k ∧ bfreq b = f
                  ∧ evalue e0 = v) as ->.
  { case_decide as Hd.
    - rewrite has_nil. destruct Hd as [-> _]. split; [done|].
      intros (e0 & He0 & _). by apply elem_of_nil in He0.
    - rewrite has_cons, has_nil. simpl. tauto. }
  simpl.
  destruct a2 as [|b2 a2']; [|destruct (decide (bfreq b2 > bfreq b + 1))].
  - rewrite !has_cons, !has_nil. simpl. split.
    + intros [?|[?|[(e0 & ->%list_elem_of_singleton & ? & ? & ?)|[]]]];
        [tauto|tauto|]. left. split_and!; congruence.
    + intros [(-> & -> & ->)|[?|[?|[]]]]; [|tauto..].
      right. right. left. exists e'. split; [by left|done].
  - rewrite !has_cons. simpl. split.
    + intros [?|[?|[(e0 & ->%list_elem_of_singleton & ? & ? & ?)|?]]];
        [tauto|tauto| |tauto]. left. split_and!; congruence.
    + intros [(-> & -> & ->)|[?|[?|?]]]; [|tauto..].
      right. right. left. exists e'. split; [by left|done].
  - pose proof (freqs_ok_next _ _ _ _ Hf) as Hlt.
    assert (bfreq b2 = bfreq b + 1) as Hb2 by lia.
    rewrite !has_cons. simpl. split.
    + intros [?|[?|[(e0 & [He0| ->%list_elem_of_singleton]%elem_of_app
                        & ? & ? & ?)|?]]]; [tauto|tauto| | |tauto].
      * right. right. right. left. eauto.
      * left. split_and!; congruence.
    + intros [(-> & -> & ->)|[?|[?|[(e0 & He0 & ?)|?]]]]; [| tauto..| |tauto].
      * right. right. left. exists e'. split; [|done].
        apply elem_of_app. right. by left.
      * right. right. left. exists e0. split; [|done].
        apply elem_of_app. by left.
Qed.

(** *** The first bucket *)

Lemma first_loc_touched nb a1 b es1 e es2 a2 :
  freqs_ok (a1 ++ b :: a2) →
  (∃ b0 a', a1 ++ b :: a2 = b0 :: a' ∧ bloc b0 = 0%nat) →
  ∃ b0 a', touched nb a1 b es1 e es2 a2 = b0 :: a' ∧ bloc b0 = 0%nat.
Proof.
  intros [(b1 & a1' & Heq & Hone) _] (b0 & a' & Heq' & Hloc).
  unfold touched. destruct a1 as [|x a1]; simplify_eq/=.
  - rewrite decide_False by lia. simpl. eauto.
  - eauto.
Qed.

Lemma first_loc_inserted a e :
  (∃ b0 a', a = b0 :: a' ∧ bloc b0 = 0%nat) →
  ∃ b0 a', inserted a e = b0 :: a' ∧ bloc b0 = 0%nat.
Proof. intros (b0 & a' & -> & Hloc). simpl. eauto. Qed.

Lemma first_loc_removed a1 b a2 es :
  (∃ b0 a', a1 ++ b :: a2 = b0 :: a' ∧ bloc b0 = 0%nat) →
  ∃ b0 a', a1 ++ with_ents b es :: a2 = b0 :: a' ∧ bloc b0 = 0%nat.
Proof.
  intros (b0 & a' & Heq & Hloc). destruct a1 as [|x a1]; simplify_eq/=; eauto.
Qed.
End Pictures.

(** ** Runs *)

Section Runs.
Context {K V : Type} `{Countable K}.
Context (zeroV : V).
Implicit Types (c : @cacheImpl K V _ _) (a : list (@abucket K V)).
Implicit Types (b : @abucket K V) (e : @aentry K V).
Implicit Types (o : @call K V) (h os : list (@call K V)).

Lemma pic_step_recent nb ne cap o a a' h :
  pic_step nb ne cap o a a' →
  NoDup (keys a) → recent_ok h a → recent_ok (h ++ [o]) a'.
Proof.
  intros Hstep Hnd Hr. destruct Hstep.
  - by apply recent_ok_keep.
  - by eapply recent_ok_touched.
  - by eapply recent_ok_touched.
  - by apply recent_ok_inserted.
  - destruct (keys_removed a1 b a2 [] e es) as (_ & _ & Hk); [done..|].
    apply recent_ok_inserted; [|done|].
    + simpl. intros Hin. apply H0. apply Hk. by right.
    + by apply (recent_ok_removed _ _ _ _ [] e es).
Qed.

Lemma pic_step_first_loc nb ne cap o a a' :
  pic_step nb ne cap o a a' → freqs_ok a →
  (∃ b0 a0, a = b0 :: a0 ∧ bloc b0 = 0%nat) →
  ∃ b0 a0, a' = b0 :: a0 ∧ bloc b0 = 0%nat.
Proof.
  intros Hstep Hf Hl. destruct Hstep.
  - done.
  - by apply first_loc_touched.
  - by apply first_loc_touched.
  - by apply first_loc_inserted.
  - by apply first_loc_inserted, first_loc_removed.
Qed.

(** One call that returns, from a pictured state. *)
Lemma exec_pictured fuel o c c' h a :
  pictured h c a → exec zeroV fuel o c = Ok c' →
  ∃ a',
    pic_step (length (bnodes c)) (length (enodes c)) (capacity c) o a a'
    ∧ pictured (h ++ [o]) c' a'
    ∧ capacity c' = capacity c
    ∧ (length (bnodes c) ≤ length (bnodes c') ≤ S (length (bnodes c)))%nat.
Proof.
  intros (HR & Hr & Hl) Hrun.
  destruct (exec_pic zeroV fuel o c c' a HR Hrun)
    as (a' & Hstep & HR' & Hc & Hlb).
  exists a'. split_and!; [done| |done|lia|lia].
  pose proof HR as (_ & _ & Hnd & _ & Hf & _).
  split_and!; [done| |].
  - by eapply pic_step_recent.
  - by eapply pic_step_first_loc.
Qed.

Lemma run_app fuel os1 os2 c :
  run zeroV fuel (os1 ++ os2) c
  = (c' ← run zeroV fuel os1 c; run zeroV fuel os2 c').
Proof.
  revert c. induction os1 as [|o os1 IH]; intros c; simpl; [done|].
  destruct (exec zeroV fuel o c) as [c1| |]; simpl; [|done..]. apply IH.
Qed.

Lemma run_pictured fuel os c c' h a :
  pictured h c a → run zeroV fuel os c = Ok c' →
  ∃ a',
    pictured (h ++ os) c' a'
    ∧ capacity c' = capacity c
    ∧ (length (bnodes c') ≤ length (bnodes c) + length os)%nat.
Proof.
  revert c h a. induction os as [|o os IH]; intros c h a Hp Hrun; simpl in *.
  - injection Hrun as <-. exists a. rewrite app_nil_r. split_and!; [done..|lia].
  - destruct (exec zeroV fuel o c) as [c1| |] eqn:Hex; [|done..].
    simpl in Hrun.
    destruct (exec_pictured _ _ _ _ _ _ Hp Hex) as (a1 & _ & Hp1 & Hc1 & Hlb1).
    destruct (IH _ _ _ Hp1 Hrun) as (a' & Hp' & Hc' & Hlb').
    exists a'. rewrite <-app_assoc in Hp'. split_and!; [done|congruence|lia].
Qed.

Lemma New_pictured caps (c0 : cacheImpl (K:=K) (V:=V)) :
  New caps = Ok c0 →
  pictured [] c0 [{| bloc := 0; bfreq := 1; bents := [] |}]
  ∧ capacity c0 = match caps with [cap] => cap | _ => DefaultCapacity end
  ∧ 0 ≤ capacity c0
  ∧ length (bnodes c0) = 1%nat.
Proof.
  intros Hnew.
  assert (∃ cap, 0 ≤ cap ∧ New (K:=K) (V:=V) caps = New [cap]
                 ∧ cap = match caps with
                         | [cap] => cap
                         | _ => DefaultCapacity
                         end) as (cap & Hcap & Heq & Hval).
  { destruct caps as [|cap [|cap' caps]].
    - exists DefaultCapacity. done.
    - exists cap. split_and!; [|done..].
      unfold New in Hnew. simpl in Hnew.
      destruct (decide (cap < 0)); [done|lia].
    - unfold New in Hnew. simpl in Hnew.
      destruct (decide (1 < S (S (length caps)))%nat); [done|lia]. }
  destruct (New_Rep (K:=K) (V:=V) cap Hcap) as (c0' & Hnew' & HR & Hc & Hlb).
  assert (c0' = c0) as -> by congruence.
  split_and!; [|congruence|lia|done].
  split_and!; [done| |eauto]. repeat constructor.
Qed.

(** Every reachable state has a picture. *)
Lemma reachable_pictured c :
  reachable zeroV c → ∃ h a, pictured h c a.
Proof.
  intros (caps & os & fuel & c0 & Hnew & Hrun).
  destruct (New_pictured _ _ Hnew) as (Hp0 & _).
  destruct (run_pictured _ _ _ _ _ _ Hp0 Hrun) as (a & Hp & _).
  eauto.
Qed.

(** With a capacity of at least 1 and fuel for the buckets that the run
    can create, a run returns. *)
Lemma run_returns fuel os c h a :
  pictured h c a → 1 ≤ capacity c →
  (length (bnodes c) + length os ≤ fuel)%nat →
  ∃ c', run zeroV fuel os c = Ok c'.
Proof.
  revert c h a. induction os as [|o os IH]; intros c h a Hp Hcap Hfuel;
    simpl in *; [eauto|].
  destruct (exec_returns zeroV fuel o c a) as (c1 & Hex);
    [apply Hp|done|lia|].
  rewrite Hex. simpl.
  destruct (exec_pictured _ _ _ _ _ _ Hp Hex) as (a1 & _ & Hp1 & Hc1 & Hlb1).
  eapply IH; [done|lia|lia].
Qed.
End Runs.

(** ** What the client observes of a picture *)

Section Observations.
Context {K V : Type} `{Countable K}.
Context (zeroV : V).
Implicit Types (c : @cacheImpl K V _ _) (a : list (@abucket K V)).
Implicit Types (b : @abucket K V) (e : @aentry K V).
Implicit Types (o : @call K V) (h os : list (@call K V)).

Lemma NoDup_fmap_eq {A B} (f : A → B) (l : list A) x y :
  NoDup (f <$> l) → x ∈ l → y ∈ l → f x = f y → x = y.
Proof.
  induction l as [|z l IH]; [by intros _ ?%elem_of_nil|].
  rewrite fmap_cons, NoDup_cons.
  intros (Hz & Hnd) [->|Hx]%elem_of_cons [->|Hy]%elem_of_cons Heq.
  - done.
  - exfalso. apply Hz. rewrite Heq. by apply list_elem_of_fmap_2.
  - exfalso. apply Hz. rewrite <-Heq. by apply list_elem_of_fmap_2.
  - by apply IH.
Qed.

(** A key is cached once, in one bucket. *)
Lemma has_functional a k f v f' v' :
  NoDup (keys a) → has a k f v → has a k f' v' → f = f' ∧ v = v'.
Proof.
  induction a as [|b a IH].
  { intros _ Hh. by apply has_nil in Hh. }
  rewrite keys_cons, NoDup_app, !has_cons.
  intros (Hb & Hdis & Ha) [(e1 & He1 & Hk1 & Hf1 & Hv1)|H1]
         [(e2 & He2 & Hk2 & Hf2 & Hv2)|H2].
  - assert (e1 = e2) as ->; [|split; congruence].
    apply (NoDup_fmap_eq ekey (bents b)); [done..|congruence].
  - exfalso. eapply Hdis; [|by eapply has_key].
    rewrite <-Hk1. by apply list_elem_of_fmap_2.
  - exfalso. eapply Hdis; [|by eapply has_key].
    rewrite <-Hk2. by apply list_elem_of_fmap_2.
  - by apply IH.
Qed.

Lemma GetKeyFrequency_entry c a b e :
  Rep c a → b ∈ a → e ∈ bents b →
  GetKeyFrequency (ekey e) c = Ok (bfreq b, None).
Proof.
  intros HR Hb He. unfold GetKeyFrequency.
  erewrite Rep_index; [|done|]; last first.
  { apply elem_of_all_entries. eauto. }
  destruct (Rep_entry _ _ _ _ HR Hb He) as (nd & Hnd & Hdata).
  unfold container_of. rewrite (load_Some _ _ _ Hnd). ok_bind.
  rewrite Hdata. simpl container.
  destruct (Str_bucket_of c a b) as (d & Hd & Hf & _); [apply HR|done|].
  rewrite Hd. ok_bind. by rewrite Hf.
Qed.

Lemma GetKeyFrequency_miss c k :
  index c !! k = None → GetKeyFrequency k c = Ok (0, Some ErrKeyNotFound).
Proof. intros Hk. unfold GetKeyFrequency. by rewrite Hk. Qed.

Lemma GetKeyFrequency_has c a k f :
  Rep c a → GetKeyFrequency k c = Ok (f, None) ↔ ∃ v, has a k f v.
Proof.
  intros HR. split.
  - intros Hg. destruct (index c !! k) as [p|] eqn:Hk.
    + destruct (Rep_find _ _ _ _ HR Hk)
        as (a1 & b & a2 & es1 & e & es2 & -> & Hb & <- & ->).
      assert (b ∈ a1 ++ b :: a2) as Hin.
      { apply elem_of_app. right. by left. }
      assert (e ∈ bents b) as He.
      { rewrite Hb. apply elem_of_app. right. by left. }
      rewrite (GetKeyFrequency_entry _ _ _ _ HR Hin He) in Hg.
      injection Hg as <-. exists (evalue e), b, e. done.
    + by rewrite (GetKeyFrequency_miss _ _ Hk) in Hg.
  - intros (v & b & e & Hb & He & <- & <- & _).
    by eapply GetKeyFrequency_entry.
Qed.

Lemma GetKeyFrequency_absent c a k :
  Rep c a →
  GetKeyFrequency k c = Ok (0, Some ErrKeyNotFound) ↔ k ∉ keys a.
Proof.
  intros HR. rewrite (Rep_keys_index c a k HR). split.
  - intros Hg. destruct (index c !! k) as [p|] eqn:Hk; [|done].
    destruct (Rep_find _ _ _ _ HR Hk)
      as (a1 & b & a2 & es1 & e & es2 & -> & Hb & <- & ->).
    erewrite GetKeyFrequency_entry in Hg; [done|done| |].
    + apply elem_of_app. right. by left.
    + rewrite Hb. apply elem_of_app. right. by left.
  - apply GetKeyFrequency_miss.
Qed.

Lemma Get_has c a k v :
  Rep c a →
  (∃ c', Get zeroV k c = Ok ((v, None), c')) ↔ ∃ f, has a k f v.
Proof.
  intros HR. split.
  - intros (c' & Hg). destruct (index c !! k) as [p|] eqn:Hk.
    + destruct (Rep_find _ _ _ _ HR Hk)
        as (a1 & b & a2 & es1 & e & es2 & -> & Hb & <- & ->).
      destruct (Get_hit zeroV c a1 b a2 es1 e es2 HR Hb) as (c1 & Hget & _).
      rewrite Hget in Hg. injection Hg as <- <-.
      exists (bfreq b), b, e. split_and!; [|  |done..].
      * apply elem_of_app. right. by left.
      * rewrite Hb. apply elem_of_app. right. by left.
    + by rewrite (Get_miss _ _ _ Hk) in Hg.
  - intros (f & b & e & (a1 & a2 & ->)%list_elem_of_split
            & (es1 & es2 & Hb)%list_elem_of_split & <- & _ & <-).
    destruct (Get_hit zeroV c a1 b a2 es1 e es2 HR Hb) as (c1 & Hget & _).
    eauto.
Qed.

(** *** The order of [All] *)

Lemma pairs_has a k v : (k, v) ∈ pairs a ↔ ∃ f, has a k f v.
Proof.
  unfold pairs. rewrite list_elem_of_fmap. split.
  - intros (e & [= -> ->] & Hin).
    rewrite elem_of_reverse, elem_of_all_entries in Hin.
    destruct Hin as (b & Hb & He). exists (bfreq b), b, e. done.
  - intros (f & b & e & Hb & He & <- & _ & <-). exists e. split; [done|].
    apply elem_of_reverse, elem_of_all_entries. eauto.
Qed.

Lemma pairs_keys a : (pairs a).*1 = reverse (keys a).
Proof.
  unfold pairs, keys. rewrite <-list_fmap_compose, fmap_reverse. done.
Qed.

Lemma NoDup_pairs a : NoDup (keys a) → NoDup (pairs a).*1.
Proof. rewrite pairs_keys. by rewrite reverse_Permutation. Qed.

Lemma length_pairs a : length (pairs a) = length (all_entries a).
Proof. unfold pairs. by rewrite length_fmap, length_reverse. Qed.

Lemma tagged_cons b a : tagged (b :: a) = tag b ++ tagged a.
Proof. done. Qed.

Lemma elem_of_tagged a f e :
  (f, e) ∈ tagged a ↔ ∃ b, b ∈ a ∧ e ∈ bents b ∧ bfreq b = f.
Proof.
  induction a as [|b a IH].
  - split; [by intros ?%elem_of_nil|].
    by intros (b & ?%elem_of_nil & _).
  - rewrite tagged_cons, elem_of_app, IH. unfold tag.
    rewrite list_elem_of_fmap. split.
    + intros [(e0 & [= -> ->] & He0)|(b' & Hb' & ?)].
      * exists b. split_and!; [by left|done..].
      * exists b'. split; [by right|done].
    + intros (b' & [->|Hb']%elem_of_cons & He & Hf).
      * left. exists e. split; [by rewrite Hf|done].
      * right. eauto.
Qed.

Lemma tagged_entries a : (tagged a).*2 = all_entries a.
Proof.
  induction a as [|b a IH]; [done|].
  rewrite tagged_cons, fmap_app, IH, all_entries_cons. f_equal.
  unfold tag. rewrite <-list_fmap_compose. apply list_fmap_id.
Qed.

Lemma pairs_tagged a :
  pairs a = (λ p, (ekey p.2, evalue p.2)) <$> reverse (tagged a).
Proof.
  unfold pairs. rewrite <-tagged_entries, <-fmap_reverse.
  by rewrite <-list_fmap_compose.
Qed.

(** Along a picture, entries come in eviction order. *)
Lemma tagged_sorted h a :
  freqs_ok a → recent_ok h a → StronglySorted (lfu_before h) (tagged a).
Proof.
  intros [_ Hs] Hr. induction a as [|b a IH]; [constructor|].
  rewrite fmap_cons in Hs. apply StronglySorted_cons in Hs as (Hb & Hs).
  apply Forall_cons in Hr as (Hrb & Hr).
  rewrite tagged_cons. apply StronglySorted_app_2; [| |by apply IH].
  - intros [f1 e1] [f2 e2] (e & [= -> ->] & He)%list_elem_of_fmap
           (b' & Hb' & He' & <-)%elem_of_tagged.
    left. simpl. rewrite Forall_forall in Hb. apply Hb.
    by apply list_elem_of_fmap_2.
  - unfold tag. eapply StronglySorted_fmap; [|exact Hrb].
    intros x y Hxy. right. done.
Qed.

Lemma StronglySorted_reverse {A} (R : relation A) (l : list A) :
  StronglySorted R l → StronglySorted (flip R) (reverse l).
Proof.
  induction l as [|x l IH]; [constructor|].
  rewrite StronglySorted_cons, Forall_forall, reverse_cons.
  intros (Hx & Hl). apply StronglySorted_app_2.
  - intros y z Hy ->%list_elem_of_singleton.
    rewrite elem_of_reverse in Hy. unfold flip. by apply Hx.
  - by apply IH.
  - repeat constructor.
Qed.

(** In the order of [All], an earlier pair has a higher frequency than a
    later one, or the same frequency and a more recent use. *)
Lemma pairs_order h a l1 k1 v1 l2 k2 v2 l3 :
  freqs_ok a → recent_ok h a →
  pairs a = l1 ++ (k1, v1) :: l2 ++ (k2, v2) :: l3 →
  ∃ f1 f2,
    has a k1 f1 v1 ∧ has a k2 f2 v2
    ∧ (f2 < f1 ∨ (f1 = f2 ∧ (last_use h k2 < last_use h k1)%nat)).
Proof.
  intros Hf Hr. rewrite pairs_tagged. intros Hp.
  apply fmap_app_inv in Hp as (t1 & t' & -> & Ht' & Ht).
  symmetry in Ht'.
  apply fmap_cons_inv in Ht' as ([f1 e1] & t'' & Heq1 & Ht'' & ->).
  symmetry in Ht''.
  apply fmap_app_inv in Ht'' as (t2 & t''' & -> & Ht''' & ->).
  symmetry in Ht'''.
  apply fmap_cons_inv in Ht''' as ([f2 e2] & t3 & Heq2 & -> & ->).
  simpl in Heq1, Heq2. injection Heq1 as -> ->. injection Heq2 as -> ->.
  pose proof (StronglySorted_reverse _ _ (tagged_sorted h a Hf Hr)) as Hs.
  rewrite Ht in Hs.
  apply StronglySorted_app_1_r, StronglySorted_cons in Hs as (Hs & _).
  rewrite Forall_forall in Hs.
  assert (lfu_before h (f2, e2) (f1, e1)) as Hlt.
  { apply Hs. apply elem_of_app. right. by left. }
  assert (∀ f e, (f, e) ∈ reverse (tagged a) → has a (ekey e) f (evalue e))
    as Hhas.
  { intros f e Hin. rewrite elem_of_reverse, elem_of_tagged in Hin.
    destruct Hin as (b & Hb & He & <-). by exists b, e. }
  exists f1, f2. split_and!.
  - apply Hhas. rewrite Ht. apply elem_of_app. right. by left.
  - apply Hhas. rewrite Ht. apply elem_of_app. right. right.
    apply elem_of_app. right. by left.
  - destruct Hlt as [?|[? ?]]; simpl in *; [by left|right; done].
Qed.
End Observations.

(** ** Calls and frequencies *)

Section Steps.
Context {K V : Type} `{Countable K}.
Context (zeroV : V).
Implicit Types (c : @cacheImpl K V _ _) (a : list (@abucket K V)).
Implicit Types (b : @abucket K V) (e : @aentry K V).
Implicit Types (o : @call K V) (h os : list (@call K V)).

(** A call adds one to the frequency of the key it names and leaves the
    frequency of every other key that stays cached alone. *)
Lemma has_step nb ne cap o a a' k f v f' v' :
  pic_step nb ne cap o a a' →
  NoDup (keys a) → freqs_ok a →
  has a k f v → has a' k f' v' →
  f' = f + (if decide (call_key o = k) then 1 else 0).
Proof.
  intros Hstep Hnd Hf Hh Hh'. destruct Hstep as
    [k0 a Hk0|a1 b a2 es1 e es2 Hb|a1 b a2 es1 e es2 v0 Hb
    |a k0 v0 Hk0 Hroom|a1 b a2 e es k0 v0 Hk0 Hfull Hemp Hb]; simpl.
  - rewrite decide_False.
    + destruct (has_functional _ _ _ _ _ _ Hnd Hh Hh'). lia.
    + intros ->. apply Hk0. by eapply has_key.
  - apply (has_touched _ _ _ _ _ e) in Hh'; [|done..].
    destruct Hh' as [(-> & -> & ->)|Hh'].
    + rewrite decide_True by done.
      assert (has (a1 ++ b :: a2) (ekey e) (bfreq b) (evalue e)) as Hhe.
      { exists b, e. split_and!; [| |done..].
        - apply elem_of_app. right. by left.
        - rewrite Hb. apply elem_of_app. right. by left. }
      destruct (has_functional _ _ _ _ _ _ Hnd Hh Hhe). lia.
    + apply (has_removed a1 b a2 es1 e es2) in Hh' as (Hne & Hh');
        [|done..].
      rewrite decide_False by done.
      destruct (has_functional _ _ _ _ _ _ Hnd Hh Hh'). lia.
  - apply (has_touched _ _ _ _ _ e) in Hh'; [|done..].
    destruct Hh' as [(-> & -> & ->)|Hh'].
    + rewrite decide_True by done.
      assert (has (a1 ++ b :: a2) (ekey e) (bfreq b) (evalue e)) as Hhe.
      { exists b, e. split_and!; [| |done..].
        - apply elem_of_app. right. by left.
        - rewrite Hb. apply elem_of_app. right. by left. }
      destruct (has_functional _ _ _ _ _ _ Hnd Hh Hhe). lia.
    + apply (has_removed a1 b a2 es1 e es2) in Hh' as (Hne & Hh');
        [|done..].
      rewrite decide_False by done.
      destruct (has_functional _ _ _ _ _ _ Hnd Hh Hh'). lia.
  - rewrite decide_False.
    + apply has_inserted in Hh'; [|done].
      destruct Hh' as [(-> & _)|Hh'].
      * exfalso. apply Hk0. by eapply has_key.
      * destruct (has_functional _ _ _ _ _ _ Hnd Hh Hh'). lia.
    + intros ->. apply Hk0. by eapply has_key.
  - rewrite decide_False.
    + apply has_inserted in Hh'; last first.
      { destruct Hf as [(b0 & a0 & Heq & Hone) Hs]. split.
        - destruct a1 as [|x a1]; simplify_eq/=; eauto.
        - by rewrite fmap_app, fmap_cons in *. }
      destruct Hh' as [(-> & _)|Hh'].
      * exfalso. apply Hk0. by eapply has_key.
      * apply (has_removed a1 b a2 [] e es) in Hh' as (_ & Hh'); [|done..].
        destruct (has_functional _ _ _ _ _ _ Hnd Hh Hh'). lia.
    + intros ->. apply Hk0. by eapply has_key.
Qed.

(** The size of a picture grows by the insertion and shrinks by the
    eviction that the call makes. *)
Lemma length_step c o a a' :
  Rep c a →
  pic_step (length (bnodes c)) (length (enodes c)) (capacity c) o a a' →
  Z.of_nat (length (all_entries a'))
  = Z.of_nat (length (all_entries a))
    + (if inserts o c then 1 else 0) - (if evicts o c then 1 else 0).
Proof.
  intros HR Hstep.
  assert (∀ k, k ∈ keys a → bool_decide (index c !! k = None) = false)
    as Hin.
  { intros k Hk. apply bool_decide_eq_false_2.
    rewrite <-(Rep_keys_index c a k HR). tauto. }
  assert (∀ k, k ∉ keys a → bool_decide (index c !! k = None) = true)
    as Hout.
  { intros k Hk. apply bool_decide_eq_true_2.
    by rewrite <-(Rep_keys_index c a k HR). }
  pose proof (Rep_Size _ _ HR) as Hsz.
  assert (∀ a1 b a2 es1 e es2 e',
            a = a1 ++ b :: a2 → bents b = es1 ++ e :: es2 →
            ekey e' = ekey e →
            ekey e' ∈ keys a
            ∧ length (all_entries (touched (length (bnodes c)) a1 b
                                     es1 e' es2 a2))
              = length (all_entries a)) as Htouch.
  { intros a1 b a2 es1 e es2 e' -> Hb He'. split.
    - rewrite He'. unfold keys. apply list_elem_of_fmap_2.
      rewrite all_entries_mid, Hb. apply elem_of_app. right.
      apply elem_of_app. left. apply elem_of_app. right. by left.
    - set (b' := with_ents b (es1 ++ e' :: es2)).
      change (touched (length (bnodes c)) a1 b es1 e' es2 a2)
        with (touched (length (bnodes c)) a1 b' es1 e' es2 a2).
      rewrite (all_entries_touched _ a1 b' es1 e' es2 a2) by done.
      rewrite !all_entries_mid, Hb. simpl.
      rewrite !length_app. simpl. rewrite ?length_app. simpl. lia. }
  unfold evicts.
  destruct Hstep as
    [k0 a Hk0|a1 b a2 es1 e es2 Hb|a1 b a2 es1 e es2 v0 Hb
    |a k0 v0 Hk0 Hroom|a1 b a2 e es k0 v0 Hk0 Hfull Hemp Hb]; simpl.
  - lia.
  - destruct (Htouch a1 b a2 es1 e es2 e) as (_ & ->); [done..|]. lia.
  - destruct (Htouch a1 b a2 es1 e es2 (with_value e v0)) as (Hk & ->);
      [done..|].
    simpl in Hk. rewrite (Hin _ Hk). simpl. lia.
  - rewrite (Hout _ Hk0). simpl.
    rewrite bool_decide_eq_false_2 by (unfold Capacity; lia).
    destruct HR as (_ & _ & _ & _ & [(b0 & a0 & -> & _) _] & _).
    simpl. rewrite !all_entries_cons. simpl.
    rewrite !length_app. simpl. rewrite ?length_app. simpl. lia.
  - rewrite (Hout _ Hk0). simpl.
    rewrite bool_decide_eq_true_2 by (unfold Capacity; lia).
    rewrite (length_all_entries_remove a1 b a2 [] e es Hb). simpl.
    assert (∀ a0 e0, a0 ≠ [] →
              length (all_entries (inserted a0 e0))
              = S (length (all_entries a0))) as Hins.
    { intros [|b0 a0] e0 Hne; [done|]. simpl.
      rewrite !all_entries_cons. simpl.
      rewrite !length_app. simpl. rewrite ?length_app. simpl. lia. }
    rewrite Hins; [lia|]. by destruct a1.
Qed.
End Steps.

(** * The specification, claim by claim *)

Section Claims.
Context {K V : Type} `{Countable K}.
Context (zeroV : V).
Implicit Types (c : @cacheImpl K V _ _) (a : list (@abucket K V)).
Implicit Types (o : @call K V) (h os : list (@call K V)).

Lemma reachable_New caps (c0 : cacheImpl (K:=K) (V:=V)) :
  New caps = Ok c0 → reachable zeroV c0.
Proof. intros Hnew. by exists caps, [], 0%nat, c0. Qed.

Lemma reachable_run caps c0 fuel os c :
  New caps = Ok c0 → run zeroV fuel os c0 = Ok c → reachable zeroV c.
Proof. intros Hnew Hrun. by exists caps, os, fuel, c0. Qed.

(** C9: a negative capacity makes [New] panic, so that no instance is
    returned; without a capacity argument the capacity is 5; every
    construction that returns gives an empty cache of the capacity asked
    for, and no run of calls changes that capacity. *)
Theorem New_construction :
  (∀ cap, cap < 0 → New (K:=K) (V:=V) [cap] = Panic)
  ∧ (∃ c0 : cacheImpl (K:=K) (V:=V),
       New [] = Ok c0 ∧ Capacity c0 = 5 ∧ Size c0 = 0)
  ∧ (∀ cap, 0 ≤ cap →
       ∃ c0 : cacheImpl (K:=K) (V:=V),
         New [cap] = Ok c0 ∧ Capacity c0 = cap ∧ Size c0 = 0)
  ∧ (∀ caps c0 fuel os c,
       New caps = Ok c0 → run zeroV fuel os c0 = Ok c →
       Capacity c = Capacity c0).
Proof.
  split_and!.
  - intros cap Hcap. unfold New. simpl.
    by rewrite decide_True by done.
  - eexists. split; [reflexivity|]. done.
  - intros cap Hcap.
    destruct (New_Rep (K:=K) (V:=V) cap Hcap) as (c0 & Hnew & HR & Hc & _).
    exists c0. split_and!; [done..|].
    by rewrite (Rep_Size _ _ HR).
  - intros caps c0 fuel os c Hnew Hrun.
    destruct (New_pictured _ _ Hnew) as (Hp0 & _).
    by destruct (run_pictured zeroV _ _ _ _ _ _ Hp0 Hrun) as (a & _ & Hc & _).
Qed.

(** C6: on a key for which the index has no handle, [Get] and
    [GetKeyFrequency] both answer [ErrKeyNotFound], and [Get] hands back
    the very state it was given: size, buckets, frequencies and values
    are what they were.  [GetKeyFrequency] only reads. *)
Theorem absent_key_not_found c k :
  index c !! k = None →
  Get zeroV k c = Ok ((zeroV, Some ErrKeyNotFound), c)
  ∧ GetKeyFrequency k c = Ok (0, Some ErrKeyNotFound).
Proof.
  intros Hk. split.
  - by apply Get_miss.
  - by apply GetKeyFrequency_miss.
Qed.

(** C8: the state that [New] returns has a picture, and every call that
    returns takes a state with a picture to a state with a picture.  A
    picture [a] of [c] ([Rep c a]) says that the bucket sequence and
    every entry list are well-formed doubly linked lists ([Str]), that
    every entry points back to the bucket that lists it ([Ents]), that
    the index holds exactly one handle per cached key ([index_ok], with
    keys that are pairwise distinct), and that the frequencies start at 1
    and increase strictly ([freqs_ok]).  The first bucket stays the node
    that [New] allocated, and the size of the index, the number of
    entries and [Size] agree. *)
Theorem structural_invariant :
  (∀ caps (c0 : cacheImpl (K:=K) (V:=V)),
     New caps = Ok c0 →
     ∃ a, Rep c0 a ∧ ∃ b a', a = b :: a' ∧ bloc b = 0%nat)
  ∧ (∀ fuel o c c' a,
       Rep c a → (∃ b a', a = b :: a' ∧ bloc b = 0%nat) →
       exec zeroV fuel o c = Ok c' →
       ∃ a', Rep c' a' ∧ ∃ b a'', a' = b :: a'' ∧ bloc b = 0%nat)
  ∧ (∀ c a,
       Rep c a →
       size (index c) = length (all_entries a)
       ∧ Size c = Z.of_nat (length (all_entries a))
       ∧ Size c ≤ Capacity c
       ∧ head (sequence c) = Some (hd 0%nat (bloc <$> a))
       ∧ ∃ b a', a = b :: a' ∧ bfreq b = 1).
Proof.
  split_and!.
  - intros caps c0 Hnew.
    destruct (New_pictured _ _ Hnew) as ((HR & _ & Hl) & _). eauto.
  - intros fuel o c c' a HR Hl Hex.
    destruct (exec_pic zeroV _ _ _ _ _ HR Hex) as (a' & Hstep & HR' & _).
    exists a'. split; [done|].
    eapply pic_step_first_loc; [done| |done]. apply HR.
  - intros c a HR. pose proof (Rep_Size _ _ HR) as Hsz.
    pose proof HR as (HS & _ & _ & _ & [(b & a' & -> & Hone) _] & Hcap).
    split_and!.
    + unfold Size in Hsz. lia.
    + done.
    + unfold Capacity. lia.
    + by rewrite (Str_head _ _ HS).
    + eauto.
Qed.

(** C10: [Put] on a key that is present returns for any fuel, evicts
    nothing and leaves the index, hence the key set and [Size], as they
    were, also when the cache is full; the key gets the new value and one
    more access, and every other key keeps its frequency and its
    value. *)
Theorem Put_present_key fuel c k v p :
  reachable zeroV c → index c !! k = Some p →
  ∃ c' f,
    Put fuel k v c = Ok c'
    ∧ index c' = index c
    ∧ Size c' = Size c ∧ Capacity c' = Capacity c
    ∧ GetKeyFrequency k c = Ok (f, None)
    ∧ GetKeyFrequency k c' = Ok (f + 1, None)
    ∧ (∃ c'', Get zeroV k c' = Ok ((v, None), c''))
    ∧ (∀ k', k' ≠ k → GetKeyFrequency k' c' = GetKeyFrequency k' c)
    ∧ (∀ k' v', k' ≠ k →
         (∃ c1, Get zeroV k' c' = Ok ((v', None), c1))
         ↔ (∃ c1, Get zeroV k' c = Ok ((v', None), c1))).
Proof.
  intros Hreach Hk.
  destruct (reachable_pictured zeroV c Hreach) as (h & a & HR & _).
  destruct (Rep_find _ _ _ _ HR Hk)
    as (a1 & b & a2 & es1 & e & es2 & -> & Hb & <- & ->).
  destruct (Put_hit fuel c a1 b a2 es1 e es2 v HR Hb)
    as (c' & Hput & HR' & Hi' & Hc' & _).
  pose proof HR as (_ & _ & Hnd & _ & Hf & _).
  set (a' := touched (length (bnodes c)) a1 b es1 (with_value e v) es2 a2)
    in *.
  assert (∀ k' f' v',
            has a' k' f' v' ↔
            (k' = ekey e ∧ f' = bfreq b + 1 ∧ v' = v)
            ∨ (k' ≠ ekey e ∧ has (a1 ++ b :: a2) k' f' v')) as Hhas.
  { intros k' f' v'. unfold a'.
    rewrite (has_touched _ a1 b a2 es1 e (with_value e v) es2) by done.
    by rewrite (has_removed a1 b a2 es1 e es2) by done. }
  assert (has (a1 ++ b :: a2) (ekey e) (bfreq b) (evalue e)) as Hhe.
  { exists b, e. split_and!; [| |done..].
    - apply elem_of_app. right. by left.
    - rewrite Hb. apply elem_of_app. right. by left. }
  exists c', (bfreq b). split_and!; [done|done| |done| | | | |].
  - unfold Size. by rewrite Hi'.
  - apply (GetKeyFrequency_has c _ _ _ HR). eauto.
  - apply (GetKeyFrequency_has c' _ _ _ HR'). exists v. apply Hhas. tauto.
  - apply (Get_has zeroV c' _ _ _ HR'). exists (bfreq b + 1).
    apply Hhas. tauto.
  - intros k' Hk'.
    destruct (index c !! k') as [p'|] eqn:Hp'.
    + destruct (Rep_find _ _ _ _ HR Hp')
        as (x1 & bx & x2 & y1 & ex & y2 & Heq & Hbx & <- & ->).
      assert (has (a1 ++ b :: a2) (ekey ex) (bfreq bx) (evalue ex)) as Hx.
      { exists bx, ex. split_and!; [| |done..].
        - rewrite Heq. apply elem_of_app. right. by left.
        - rewrite Hbx. apply elem_of_app. right. by left. }
      transitivity (Ok (A:=Z * option error) (bfreq bx, None)).
      * apply (GetKeyFrequency_has c' _ _ _ HR'). exists (evalue ex).
        apply Hhas. tauto.
      * symmetry. apply (GetKeyFrequency_has c _ _ _ HR). eauto.
    + rewrite !GetKeyFrequency_miss; [done..|by rewrite Hi'].
  - intros k' v' Hk'.
    rewrite (Get_has zeroV c' _ _ _ HR'), (Get_has zeroV c _ _ _ HR).
    split; intros (f' & Hh); exists f'.
    + apply Hhas in Hh. tauto.
    + apply Hhas. tauto.
Qed.

(** With a capacity of at least 1 and fuel for the buckets, [Put]
    returns. *)
Lemma Put_returns fuel c k v :
  reachable zeroV c → 1 ≤ Capacity c → (length (bnodes c) ≤ fuel)%nat →
  ∃ c', Put fuel k v c = Ok c'.
Proof.
  intros Hreach Hcap Hfuel.
  destruct (reachable_pictured zeroV c Hreach) as (h & a & HR & _).
  by apply (exec_returns zeroV fuel (CPut k v) c a).
Qed.

(** On the cache that [New] builds for capacity 0, [Put] of any key
    panics as soon as it has fuel for one step of the eviction scan: the
    scan leaves the empty first bucket through its [nil] successor and
    dereferences it. *)
Lemma Put_New_zero fuel (c0 : cacheImpl (K:=K) (V:=V)) k v :
  New [0] = Ok c0 → Put (S fuel) k v c0 = Panic.
Proof.
  intros Hnew.
  destruct (New_Rep (K:=K) (V:=V) 0) as (c & Hnew' & HR & Hc & Hlb); [done|].
  rewrite Hnew in Hnew'. injection Hnew' as <-.
  apply (Put_miss_panic _ c0 _ k v HR); [done| | |simpl; lia].
  - apply (Rep_keys_index c0 _ k HR). by intros ?%elem_of_nil.
  - rewrite (Rep_Size _ _ HR). unfold Capacity. simpl. lia.
Qed.

(** C3: in a reachable cache of capacity at least 1, [Put k v] returns
    and [Get k] right after it returns [v] without error; when the index
    had no handle for [k] before the [Put], the frequency of [k] is 1
    after the [Put] and 2 after the [Get].  On the cache of capacity 0
    the [Put] panics, so that the [Get] is never reached. *)
Theorem Put_Get_roundtrip :
  (∀ fuel c k v,
     reachable zeroV c → 1 ≤ Capacity c → (length (bnodes c) ≤ fuel)%nat →
     ∃ c1 c2,
       Put fuel k v c = Ok c1
       ∧ Get zeroV k c1 = Ok ((v, None), c2)
       ∧ (index c !! k = None →
            GetKeyFrequency k c1 = Ok (1, None)
            ∧ GetKeyFrequency k c2 = Ok (2, None)))
  ∧ (∀ fuel (k : K) (v : V),
       (c0 ← New [0]; c1 ← Put (S fuel) k v c0; Get zeroV k c1) = Panic).
Proof.
  split; [|intros fuel k v;
           destruct (New_Rep (K:=K) (V:=V) 0) as (c0 & Hnew & _); [done|];
           rewrite Hnew; ok_bind;
           by rewrite (Put_New_zero fuel c0 k v Hnew)].
  intros fuel c k v Hreach Hcap Hfuel.
  destruct (Put_returns fuel c k v Hreach Hcap Hfuel) as (c1 & Hput).
  destruct (reachable_pictured zeroV c Hreach) as (h & a & HR & _).
  destruct (exec_pic zeroV fuel (CPut k v) c c1 a HR Hput)
    as (a1 & Hstep & HR1 & _).
  pose proof HR as (_ & _ & Hnd & _ & Hf & _).
  (* after the [Put], [k] is cached with value [v] *)
  assert (∃ f, has a1 k f v ∧ (index c !! k = None → f = 1))
    as (f & Hh1 & Hf1).
  { inversion Hstep as
      [|x1 b x2 y1 e y2 v0 Hb|x1 b x2 y1 e y2 v0 Hb
      |a0 k0 v0 Hk0 Hroom|x1 b x2 e es k0 v0 Hk0 Hfull Hemp Hb]; subst.
    - exists (bfreq b + 1). split.
      + apply (has_touched _ x1 b x2 y1 e (with_value e v) y2); [done..|].
        left. done.
      + intros Hk. apply (Rep_keys_index c _ _ HR) in Hk.
        exfalso. apply Hk. unfold keys. apply list_elem_of_fmap_2.
        rewrite all_entries_mid, Hb. apply elem_of_app. right.
        apply elem_of_app. left. apply elem_of_app. right. by left.
    - exists 1. split; [|done]. apply has_inserted; [done|]. left. done.
    - exists 1. split; [|done]. apply has_inserted; [|left; done].
      destruct Hf as [(b0 & a0 & Heq & Hone) Hs]. split.
      + destruct x1 as [|x x1]; simplify_eq/=; eauto.
      + by rewrite fmap_app, fmap_cons in *. }
  destruct (proj2 (Get_has zeroV c1 a1 k v HR1)) as (c2 & Hget); [eauto|].
  exists c1, c2. split_and!; [done..|].
  intros Hk. rewrite (Hf1 Hk) in Hh1. split.
  - apply (GetKeyFrequency_has c1 _ _ _ HR1). eauto.
  - assert (exec zeroV fuel (CGet k) c1 = Ok c2) as Hex.
    { simpl. by rewrite Hget. }
    destruct (exec_pic zeroV fuel (CGet k) c1 c2 a1 HR1 Hex)
      as (a2 & Hstep2 & HR2 & _).
    pose proof HR1 as (_ & _ & Hnd1 & _ & Hfr1 & _).
    assert (k ∈ keys a2) as Hk2.
    { inversion Hstep2 as [k0 a0 Hk0|x1 b x2 y1 e y2 Hb| | |]; subst.
      - exfalso. apply Hk0. by eapply has_key.
      - unfold keys. apply list_elem_of_fmap_2. apply elem_of_touched. }
    destruct (key_has _ _ Hk2) as (f2 & v2 & Hh2).
    pose proof (has_step _ _ _ _ _ _ _ _ _ _ _ Hstep2 Hnd1 Hfr1 Hh1 Hh2)
      as Hf2.
    simpl in Hf2. rewrite decide_True in Hf2 by done.
    apply (GetKeyFrequency_has c2 _ _ _ HR2). exists v2.
    by replace 2 with f2 by lia.
Qed.

(** C4: on the cache that [New] builds for capacity 0, [Put] of any key
    panics whatever the fuel (and runs out of fuel when it has none): the
    eviction scan leaves the empty first bucket through its [nil]
    successor and dereferences it. *)
Theorem Put_capacity_zero_panics fuel (k : K) (v : V) :
  (c0 ← New [0]; Put (S fuel) k v c0) = Panic.
Proof.
  destruct (New_Rep (K:=K) (V:=V) 0) as (c0 & Hnew & _); [done|].
  rewrite Hnew. ok_bind. by apply Put_New_zero.
Qed.

(** One call that keeps [k] cached adds 1 to its frequency when it is a
    call on [k], and leaves it alone otherwise. *)
Lemma frequency_step fuel c a o c' k f :
  Rep c a →
  GetKeyFrequency k c = Ok (f, None) →
  exec zeroV fuel o c = Ok c' → is_Some (index c' !! k) →
  GetKeyFrequency k c'
  = Ok (f + (if decide (call_key o = k) then 1 else 0), None).
Proof.
  intros HR Hg Hex Hk'.
  destruct (exec_pic zeroV _ _ _ _ _ HR Hex) as (a' & Hstep & HR' & _).
  apply (GetKeyFrequency_has c _ _ _ HR) in Hg as (v & Hh).
  assert (k ∈ keys a') as Hin.
  { destruct (decide (k ∈ keys a')) as [|Hn]; [done|].
    apply (Rep_keys_index c' _ _ HR') in Hn. rewrite Hn in Hk'.
    by destruct Hk'. }
  destruct (key_has _ _ Hin) as (f' & v' & Hh').
  pose proof HR as (_ & _ & Hnd & _ & Hf & _).
  rewrite <-(has_step _ _ _ _ _ _ _ _ _ _ _ Hstep Hnd Hf Hh Hh').
  apply (GetKeyFrequency_has c' _ _ _ HR'). eauto.
Qed.

Lemma survives_cons fuel k o os c c1 :
  survives zeroV fuel k (o :: os) c → exec zeroV fuel o c = Ok c1 →
  is_Some (index c1 !! k) ∧ survives zeroV fuel k os c1.
Proof.
  unfold survives. simpl. intros Hs Hex. rewrite Hex in Hs.
  apply andb_true_iff in Hs as (_ & Hs). split; [|done].
  destruct os; simpl in Hs; apply andb_true_iff in Hs as (Hk & _);
    by apply bool_decide_eq_true in Hk.
Qed.

Lemma frequency_run fuel os c a c' k f :
  Rep c a →
  GetKeyFrequency k c = Ok (f, None) →
  run zeroV fuel os c = Ok c' → survives zeroV fuel k os c →
  GetKeyFrequency k c' = Ok (f + Z.of_nat (accesses k os), None).
Proof.
  revert c a f. induction os as [|o os IH]; intros c a f HR Hg Hrun Hs.
  - simpl in Hrun. injection Hrun as <-. unfold accesses. simpl.
    by rewrite Z.add_0_r.
  - simpl in Hrun.
    destruct (exec zeroV fuel o c) as [c1| |] eqn:Hex; [|done..].
    simpl in Hrun.
    destruct (survives_cons _ _ _ _ _ _ Hs Hex) as (Hk1 & Hs1).
    pose proof (frequency_step _ _ _ _ _ _ _ HR Hg Hex Hk1) as Hg1.
    destruct (exec_pic zeroV _ _ _ _ _ HR Hex) as (a1 & _ & HR1 & _).
    rewrite (IH _ _ _ HR1 Hg1 Hrun Hs1). do 2 f_equal.
    unfold accesses. rewrite filter_cons. case_decide; simpl; lia.
Qed.

(** C5: in a reachable cache, a call that returns and keeps [k] cached
    adds exactly 1 to the frequency of [k] when it is a [Get] or [Put] on
    [k] and leaves it unchanged otherwise, so that the frequency never
    decreases; and after the [Put] that inserts [k] and any run of calls
    all along which [k] stays cached, the frequency of [k] is 1 plus the
    number of calls of the run made on [k]. *)
Theorem frequency_counts_accesses fuel c k :
  reachable zeroV c →
  (∀ o c' f,
     GetKeyFrequency k c = Ok (f, None) →
     exec zeroV fuel o c = Ok c' → is_Some (index c' !! k) →
     GetKeyFrequency k c'
     = Ok (f + (if decide (call_key o = k) then 1 else 0), None))
  ∧ (∀ v c1 os c2,
       index c !! k = None → Put fuel k v c = Ok c1 →
       run zeroV fuel os c1 = Ok c2 → survives zeroV fuel k os c1 →
       GetKeyFrequency k c1 = Ok (1, None)
       ∧ GetKeyFrequency k c2
         = Ok (1 + Z.of_nat (accesses k os), None)).
Proof.
  intros Hreach.
  destruct (reachable_pictured zeroV c Hreach) as (h & a & HR & _).
  split.
  - intros o c' f. by apply (frequency_step fuel c a).
  - intros v c1 os c2 Hk Hput Hrun Hs.
    destruct (exec_pic zeroV fuel (CPut k v) c c1 a HR Hput)
      as (a1 & Hstep & HR1 & _).
    pose proof HR as (_ & _ & Hnd & _ & Hf & _).
    assert (has a1 k 1 v) as Hh1.
    { apply (Rep_keys_index c _ _ HR) in Hk.
      inversion Hstep as
        [|x1 b x2 y1 e y2 v0 Hb|x1 b x2 y1 e y2 v0 Hb
        |a0 k0 v0 Hk0 Hroom|x1 b x2 e es k0 v0 Hk0 Hfull Hemp Hb]; subst.
      - exfalso. apply Hk. unfold keys. apply list_elem_of_fmap_2.
        rewrite all_entries_mid, Hb. apply elem_of_app. right.
        apply elem_of_app. left. apply elem_of_app. right. by left.
      - apply has_inserted; [done|]. left. done.
      - apply has_inserted; [|left; done].
        destruct Hf as [(b0 & a0 & Heq & Hone) Hsrt]. split.
        + destruct x1 as [|x x1]; simplify_eq/=; eauto.
        + by rewrite fmap_app, fmap_cons in *. }
    assert (GetKeyFrequency k c1 = Ok (1, None)) as Hg1.
    { apply (GetKeyFrequency_has c1 _ _ _ HR1). eauto. }
    split; [done|]. by apply (frequency_run fuel os c1 a1).
Qed.

(** *** Size *)

Lemma tally_run fuel os c i e c' :
  tally zeroV fuel os c = Ok (i, e, c') → run zeroV fuel os c = Ok c'.
Proof.
  revert c i e. induction os as [|o os IH]; intros c i e; simpl.
  - by intros [= _ _ ->].
  - destruct (exec zeroV fuel o c) as [c1| |]; [|done..]. simpl.
    destruct (tally zeroV fuel os c1) as [[[i1 e1] c2]| |] eqn:Ht; [|done..].
    simpl. intros [= _ _ <-]. by eapply IH.
Qed.

Lemma tally_size fuel os c a i e c' :
  Rep c a → tally zeroV fuel os c = Ok (i, e, c') →
  Size c' = Size c + Z.of_nat i - Z.of_nat e.
Proof.
  revert c a i e. induction os as [|o os IH]; intros c a i e HR; simpl.
  - intros [= <- <- <-]. lia.
  - destruct (exec zeroV fuel o c) as [c1| |] eqn:Hex; [|done..]. simpl.
    destruct (tally zeroV fuel os c1) as [[[i1 e1] c2]| |] eqn:Ht; [|done..].
    simpl. intros [= <- <- <-].
    destruct (exec_pic zeroV _ _ _ _ _ HR Hex) as (a1 & Hstep & HR1 & _).
    rewrite (IH _ _ _ _ HR1 Ht).
    rewrite (Rep_Size _ _ HR1), (Rep_Size _ _ HR).
    rewrite (length_step c o a a1 HR Hstep).
    destruct (inserts o c), (evicts o c); lia.
Qed.

(** What [All] yields to the consumer that collects everything. *)
Lemma All_collect fuel c a :
  Rep c a → (length (bnodes c) ≤ fuel)%nat → Size c ≤ Z.of_nat fuel →
  All fuel c collect [] = Ok (pairs a, c).
Proof.
  intros HR Hfb Hfe.
  rewrite (All_spec fuel c a); [by rewrite feed_collect|done| |].
  - rewrite (Rep_Size _ _ HR) in Hfe. lia.
  - pose proof (Rep_length_buckets _ _ HR). lia.
Qed.

(** C7, amended: along any run from [New], [Size] is the number of
    insertions ([Put] of a key that is absent when the call is made, so
    that a key put again after its eviction counts again) minus the
    number of evictions; it is the number of pairs that [All] enumerates,
    whose keys are pairwise distinct; and it never exceeds [Capacity]. *)
Theorem Size_is_insertions_minus_evictions caps c0 fuel os i e c :
  New caps = Ok c0 → tally zeroV fuel os c0 = Ok (i, e, c) →
  run zeroV fuel os c0 = Ok c
  ∧ Size c = Z.of_nat i - Z.of_nat e
  ∧ Size c ≤ Capacity c
  ∧ (∀ fuel', (length (bnodes c) ≤ fuel')%nat → Size c ≤ Z.of_nat fuel' →
       ∃ out, All fuel' c collect [] = Ok (out, c)
              ∧ NoDup out.*1 ∧ Size c = Z.of_nat (length out)).
Proof.
  intros Hnew Ht. pose proof (tally_run _ _ _ _ _ _ Ht) as Hrun.
  destruct (New_pictured _ _ Hnew) as (Hp0 & _).
  pose proof Hp0 as (HR0 & _).
  destruct (run_pictured zeroV _ _ _ _ _ _ Hp0 Hrun) as (a & (HR & _) & _).
  split_and!; [done| | |].
  - rewrite (tally_size _ _ _ _ _ _ _ HR0 Ht).
    rewrite (Rep_Size _ _ HR0). simpl. lia.
  - rewrite (Rep_Size _ _ HR). unfold Capacity. apply HR.
  - intros fuel' Hfb Hfe. exists (pairs a). split_and!.
    + by apply All_collect.
    + apply NoDup_pairs, HR.
    + by rewrite length_pairs, (Rep_Size _ _ HR).
Qed.

(** C2: in a state reached from [New] by the calls [h], [All] with fuel
    for the buckets and the entries enumerates a list [out] such that:
    the keys of [out] are pairwise distinct and its pairs are exactly
    the pairs [(k, v)] for which [Get k] returns [v]; of two pairs, the
    earlier has the higher frequency, or the same frequency and the more
    recent use; any consumer is fed [out] in order until it declines, so
    that the consumer that stops after [n] pairs has seen the first [n];
    and in every case the state that [All] leaves is the state it was
    given. *)
Theorem All_enumerates caps c0 fuel h c fuel' :
  New caps = Ok c0 → run zeroV fuel h c0 = Ok c →
  (length (bnodes c) ≤ fuel')%nat → Size c ≤ Z.of_nat fuel' →
  ∃ out,
    All fuel' c collect [] = Ok (out, c)
    ∧ NoDup out.*1
    ∧ (∀ k v, (k, v) ∈ out ↔ ∃ c', Get zeroV k c = Ok ((v, None), c'))
    ∧ (∀ l1 k1 v1 l2 k2 v2 l3,
         out = l1 ++ (k1, v1) :: l2 ++ (k2, v2) :: l3 →
         ∃ f1 f2,
           GetKeyFrequency k1 c = Ok (f1, None)
           ∧ GetKeyFrequency k2 c = Ok (f2, None)
           ∧ (f2 < f1
              ∨ (f1 = f2 ∧ (last_use h k2 < last_use h k1)%nat)))
    ∧ (∀ S (yield : K → V → S → bool * S) s,
         All fuel' c yield s = Ok ((feed yield out s).2, c))
    ∧ (∀ n, (0 < n)%nat →
         All fuel' c (collect_upto n) [] = Ok (take n out, c)).
Proof.
  intros Hnew Hrun Hfb Hfe.
  destruct (New_pictured _ _ Hnew) as (Hp0 & _).
  destruct (run_pictured zeroV _ _ _ _ _ _ Hp0 Hrun)
    as (a & (HR & Hr & _) & _).
  simpl in Hr.
  assert (length (all_entries a) ≤ fuel')%nat as Hfe'.
  { rewrite (Rep_Size _ _ HR) in Hfe. lia. }
  assert (length a ≤ fuel')%nat as Hfb'.
  { pose proof (Rep_length_buckets _ _ HR). lia. }
  pose proof HR as (_ & _ & Hnd & _ & Hf & _).
  exists (pairs a). split_and!.
  - by apply All_collect.
  - by apply NoDup_pairs.
  - intros k v. by rewrite pairs_has, (Get_has zeroV c a k v HR).
  - intros l1 k1 v1 l2 k2 v2 l3 Hout.
    destruct (pairs_order h a _ _ _ _ _ _ _ Hf Hr Hout)
      as (f1 & f2 & Hh1 & Hh2 & Hord).
    exists f1, f2. split_and!; [| |done].
    + apply (GetKeyFrequency_has c _ _ _ HR). eauto.
    + apply (GetKeyFrequency_has c _ _ _ HR). eauto.
  - intros S yield s. by apply All_spec.
  - intros n Hn. rewrite (All_spec fuel' c a) by done.
    rewrite feed_collect_upto by (simpl; lia). simpl.
    by rewrite Nat.sub_0_r.
Qed.

(** *** Eviction *)

(** In a picture whose first buckets are empty, the first entry of the
    first bucket that has one comes before every other entry in the
    eviction order. *)
Lemma victim_first h a1 b a2 e es k f v :
  freqs_ok (a1 ++ b :: a2) → recent_ok h (a1 ++ b :: a2) →
  NoDup (keys (a1 ++ b :: a2)) →
  Forall (λ b', bents b' = []) a1 → bents b = e :: es →
  has (a1 ++ b :: a2) k f v → k ≠ ekey e →
  bfreq b < f
  ∨ (bfreq b = f ∧ (last_use h (ekey e) < last_use h k)%nat).
Proof.
  intros Hf Hr Hnd Hemp Hb Hh Hk.
  pose proof (tagged_sorted h _ Hf Hr) as Hs.
  assert (tagged (a1 ++ b :: a2)
          = (bfreq b, e) :: (((λ e0, (bfreq b, e0)) <$> es) ++ tagged a2))
    as Ht.
  { clear -Hemp Hb. induction a1 as [|x a1 IH].
    - simpl. rewrite tagged_cons. unfold tag. by rewrite Hb.
    - apply Forall_cons in Hemp as (Hx & Hemp). simpl.
      rewrite tagged_cons. unfold tag at 1. rewrite Hx. simpl.
      by apply IH. }
  rewrite Ht in Hs. apply StronglySorted_cons in Hs as (Hs & _).
  rewrite Forall_forall in Hs.
  destruct Hh as (b' & e' & Hb' & He' & <- & <- & _).
  assert ((bfreq b', e') ∈ tagged (a1 ++ b :: a2)) as Hin.
  { apply elem_of_tagged. eauto. }
  rewrite Ht in Hin. apply elem_of_cons in Hin as [[= Hfb ->]|Hin].
  { done. }
  destruct (Hs _ Hin) as [?|[? ?]]; simpl in *; [by left|by right].
Qed.

Lemma Put_full_evicts caps c0 fuel h c k v :
  New caps = Ok c0 → run zeroV fuel h c0 = Ok c →
  1 ≤ Capacity c → Size c = Capacity c → index c !! k = None →
  (length (bnodes c) ≤ fuel)%nat →
  ∃ c' kv fv,
    Put fuel k v c = Ok c'
    ∧ GetKeyFrequency kv c = Ok (fv, None)
    ∧ GetKeyFrequency kv c' = Ok (0, Some ErrKeyNotFound)
    ∧ dom (index c') = {[k]} ∪ (dom (index c) ∖ {[kv]})
    ∧ Size c' = Size c
    ∧ GetKeyFrequency k c' = Ok (1, None)
    ∧ (∃ c'', Get zeroV k c' = Ok ((v, None), c''))
    ∧ (∀ k' f', k' ≠ kv → GetKeyFrequency k' c = Ok (f', None) →
         (fv < f' ∨ (fv = f' ∧ (last_use h kv < last_use h k')%nat))
         ∧ GetKeyFrequency k' c' = Ok (f', None)).
Proof.
  intros Hnew Hrun Hcap Hfull Hk Hfuel.
  destruct (New_pictured _ _ Hnew) as (Hp0 & _).
  destruct (run_pictured zeroV _ _ _ _ _ _ Hp0 Hrun)
    as (a & (HR & Hr & _) & _).
  simpl in Hr.
  pose proof HR as (_ & _ & Hnd & _ & Hf & _).
  pose proof (Rep_Size _ _ HR) as Hsz.
  destruct (first_nonempty a) as (a1 & b & a2 & e & es & -> & Hemp & Hb).
  { intros Hnil. rewrite Hnil in Hsz. simpl in Hsz. lia. }
  destruct (Put_miss_evict fuel c a1 b a2 e es k v HR Hemp Hb Hk)
    as (c' & Hput & HR' & Hi' & Hc' & Hlb'); [lia| |].
  { pose proof (Rep_length_buckets _ _ HR) as Hlen.
    rewrite length_app in Hlen. lia. }
  set (enew := {| eloc := length (enodes c); ekey := k; evalue := v |}) in *.
  set (a' := inserted (a1 ++ with_ents b es :: a2) enew) in *.
  assert (freqs_ok (a1 ++ with_ents b es :: a2)) as Hf'.
  { destruct Hf as [(b0 & a0 & Heq & Hone) Hs]. split.
    - destruct a1 as [|x a1]; simplify_eq/=; eauto.
    - by rewrite fmap_app, fmap_cons in *. }
  assert (∀ k' f' v',
            has a' k' f' v' ↔
            (k' = k ∧ f' = 1 ∧ v' = v)
            ∨ (k' ≠ ekey e ∧ has (a1 ++ b :: a2) k' f' v')) as Hhas.
  { intros k' f' v'. unfold a'. rewrite has_inserted by done.
    by rewrite (has_removed a1 b a2 [] e es) by done. }
  assert (has (a1 ++ b :: a2) (ekey e) (bfreq b) (evalue e)) as Hhe.
  { exists b, e. split_and!; [| |done..].
    - apply elem_of_app. right. by left.
    - rewrite Hb. by left. }
  assert (ekey e ≠ k) as Hne.
  { intros Heq. apply (Rep_keys_index c _ _ HR) in Hk. apply Hk.
    rewrite <-Heq. by eapply has_key. }
  exists c', (ekey e), (bfreq b). split_and!; [done| | | | | | |].
  - apply (GetKeyFrequency_has c _ _ _ HR). eauto.
  - apply GetKeyFrequency_miss. rewrite Hi'.
    rewrite lookup_insert_ne by done. apply lookup_delete_eq.
  - rewrite Hi'. by rewrite dom_insert_L, dom_delete_L.
  - rewrite (Rep_Size _ _ HR'), Hsz. unfold a'.
    rewrite (length_all_entries_remove a1 b a2 [] e es Hb). simpl.
    destruct a1 as [|x a1]; simpl; rewrite !all_entries_cons; simpl;
      rewrite !length_app; simpl; rewrite ?length_app; simpl; lia.
  - apply (GetKeyFrequency_has c' _ _ _ HR'). exists v. apply Hhas. tauto.
  - apply (Get_has zeroV c' _ _ _ HR'). exists 1. apply Hhas. tauto.
  - intros k' f' Hk' Hg.
    apply (GetKeyFrequency_has c _ _ _ HR) in Hg as (v' & Hh). split.
    + by eapply victim_first.
    + apply (GetKeyFrequency_has c' _ _ _ HR'). exists v'.
      apply Hhas. tauto.
Qed.

(** Distinct keys put into a new cache that has room for them all land
    in the first bucket, in order. *)
Lemma fill fuel cap (c0 : cacheImpl (K:=K) (V:=V)) (kvs : list (K * V)) :
  New [cap] = Ok c0 → NoDup kvs.*1 → Z.of_nat (length kvs) ≤ cap →
  ∃ c es,
    run zeroV fuel (puts kvs) c0 = Ok c
    ∧ Rep c [{| bloc := 0; bfreq := 1; bents := es |}]
    ∧ (λ e, (ekey e, evalue e)) <$> es = kvs
    ∧ capacity c = cap
    ∧ length (bnodes c) = 1%nat.
Proof.
  intros Hnew.
  destruct (New_pictured _ _ Hnew) as ((HR0 & _) & Hc0 & _ & Hlb0).
  induction kvs as [|[k v] kvs IH] using rev_ind; intros Hnd Hlen.
  - exists c0, []. done.
  - rewrite fmap_app in Hnd. apply NoDup_app in Hnd as (Hnd & Hdis & _).
    rewrite length_app in Hlen. simpl in Hlen.
    destruct IH as (c & es & Hrun & HR & Hes & Hc & Hlb); [done|lia|].
    assert (k ∉ keys [{| bloc := 0%nat; bfreq := 1; bents := es |}])
      as Hk.
    { unfold keys. rewrite all_entries_cons, all_entries_nil, app_nil_r.
      simpl. intros Hin. apply (Hdis k); [|by left].
      rewrite <-Hes, <-list_fmap_compose. done. }
    destruct (Put_miss_room fuel c _ k v HR)
      as (c' & Hput & HR' & _ & Hc' & Hlb').
    { by apply (Rep_keys_index c _ _ HR). }
    { rewrite (Rep_Size _ _ HR).
      rewrite all_entries_cons, all_entries_nil, app_nil_r. simpl.
      rewrite <-Hes, length_fmap in Hlen. unfold Capacity. lia. }
    eexists c', _. unfold puts. rewrite fmap_app, run_app.
    fold (puts kvs). rewrite Hrun. simpl. rewrite Hput. ok_bind.
    split_and!; [done|exact HR'| |congruence..].
    simpl. rewrite fmap_app. simpl. by rewrite Hes.
Qed.

Lemma fill_overflow fuel fuel' (cap : nat) kv0 (kvs : list (K * V)) :
  (1 ≤ cap)%nat → NoDup (kv0 :: kvs).*1 → length kvs = cap →
  (cap < fuel')%nat →
  ∃ c0 c,
    New [Z.of_nat cap] = Ok c0
    ∧ run zeroV fuel (puts (kv0 :: kvs)) c0 = Ok c
    ∧ GetKeyFrequency kv0.1 c = Ok (0, Some ErrKeyNotFound)
    ∧ All fuel' c collect [] = Ok (reverse kvs, c).
Proof.
  intros Hcap Hnd Hlen Hfuel'.
  destruct (New_Rep (K:=K) (V:=V) (Z.of_nat cap)) as (c0 & Hnew & _);
    [lia|].
  destruct kvs as [|[k v] kvs _] using rev_ind; [simpl in Hlen; lia|].
  rewrite length_app in Hlen. simpl in Hlen.
  rewrite app_comm_cons in Hnd. rewrite fmap_app in Hnd.
  apply NoDup_app in Hnd as (Hnd & Hdis & _).
  destruct (fill fuel _ c0 (kv0 :: kvs) Hnew Hnd)
    as (c & es & Hrun & HR & Hes & Hc & Hlb); [simpl; lia|].
  destruct es as [|e es]; [done|]. rewrite fmap_cons in Hes.
  injection Hes as He Hes.
  assert (k ∉ keys [{| bloc := 0%nat; bfreq := 1; bents := e :: es |}])
    as Hk.
  { unfold keys. rewrite all_entries_cons, all_entries_nil, app_nil_r.
    intros Hin. apply (Hdis k); [|by left].
    rewrite <-He, <-Hes. simpl in *.
    by rewrite <-list_fmap_compose. }
  destruct (Put_miss_evict fuel c [] _ [] e es k v HR)
    as (c' & Hput & HR' & Hi' & Hc' & Hlb'); [done|done| | |simpl; lia|].
  { by apply (Rep_keys_index c _ _ HR). }
  { rewrite (Rep_Size _ _ HR).
    rewrite all_entries_cons, all_entries_nil, app_nil_r.
    unfold Capacity. simpl.
    assert (length es = length kvs) by (by rewrite <-Hes, length_fmap).
    lia. }
  exists c0, c'. split; [done|]. split_and!.
  - rewrite app_comm_cons. unfold puts. rewrite fmap_app, run_app.
    fold (puts (kv0 :: kvs)). rewrite Hrun. simpl. by rewrite Hput.
  - apply GetKeyFrequency_miss. rewrite Hi', <-He. simpl.
    rewrite lookup_insert_ne; [apply lookup_delete_eq|].
    intros Heq. apply Hk. rewrite Heq. unfold keys.
    rewrite all_entries_cons. simpl. by left.
  - rewrite (All_collect fuel' c' _ HR'); [|lia|].
    + do 2 f_equal. unfold pairs. simpl.
      rewrite all_entries_cons, all_entries_nil, app_nil_r. simpl.
      rewrite fmap_reverse, fmap_app, Hes. done.
    + rewrite (Rep_Size _ _ HR'). simpl.
      rewrite all_entries_cons, all_entries_nil, app_nil_r. simpl.
      rewrite length_app. simpl.
      assert (length es = length kvs) by (by rewrite <-Hes, length_fmap).
      lia.
Qed.

(** C1: a [Put] of an absent key into a full cache of capacity at least 1,
    reached from [New] by the calls [h], returns; exactly one key [kv]
    that was cached is gone after it and the new key is cached with
    frequency 1 and its value, so that the size is unchanged; every other
    key keeps its frequency, and had a higher frequency than [kv], or the
    same frequency and a more recent use.  In particular, [C + 1] pairs
    of distinct keys put into a new cache of capacity [C] leave the first
    key out and the others in, newest first. *)
Theorem Put_evicts_least_frequent_then_oldest :
  (∀ caps c0 fuel h c k v,
     New caps = Ok c0 → run zeroV fuel h c0 = Ok c →
     1 ≤ Capacity c → Size c = Capacity c → index c !! k = None →
     (length (bnodes c) ≤ fuel)%nat →
     ∃ c' kv fv,
       Put fuel k v c = Ok c'
       ∧ GetKeyFrequency kv c = Ok (fv, None)
       ∧ GetKeyFrequency kv c' = Ok (0, Some ErrKeyNotFound)
       ∧ dom (index c') = {[k]} ∪ (dom (index c) ∖ {[kv]})
       ∧ Size c' = Size c
       ∧ GetKeyFrequency k c' = Ok (1, None)
       ∧ (∃ c'', Get zeroV k c' = Ok ((v, None), c''))
       ∧ (∀ k' f', k' ≠ kv → GetKeyFrequency k' c = Ok (f', None) →
            (fv < f' ∨ (fv = f' ∧ (last_use h kv < last_use h k')%nat))
            ∧ GetKeyFrequency k' c' = Ok (f', None)))
  ∧ (∀ fuel fuel' (cap : nat) kv0 (kvs : list (K * V)),
       (1 ≤ cap)%nat → NoDup (kv0 :: kvs).*1 → length kvs = cap →
       (cap < fuel')%nat →
       ∃ c0 c,
         New [Z.of_nat cap] = Ok c0
         ∧ run zeroV fuel (puts (kv0 :: kvs)) c0 = Ok c
         ∧ GetKeyFrequency kv0.1 c = Ok (0, Some ErrKeyNotFound)
         ∧ All fuel' c collect [] = Ok (reverse kvs, c)).
Proof.
  split.
  - apply Put_full_evicts.
  - apply fill_overflow.
Qed.
End Claims.

(** * The claims on concrete runs *)

(** Evaluates a closed goal of the model. *)
Ltac run_model := vm_compute; first [reflexivity | lia | done].

(** Sets the state that the goal leaves open to the one [H] returned. *)
Ltac rewrite_state H :=
  match type of H with
  | _ = Ok ?c =>
      match goal with
      | |- ?f ?x = _ => is_evar x; unify x c
      end
  end.

(** A negative capacity, and the capacities 0 and 3. *)
Lemma New_construction_witness :
  New (K:=nat) (V:=Z) [-1] = Panic
  ∧ ∃ c0 : cache, New [3] = Ok c0 ∧ Capacity c0 = 3 ∧ Size c0 = 0.
Proof.
  split.
  - apply (proj1 (New_construction (K:=nat) 0)). lia.
  - apply (proj1 (proj2 (proj2 (New_construction (K:=nat) 0)))). lia.
Defined.

(** [key_c] is looked up in a cache that holds [key_a] and [key_b]. *)
Lemma absent_key_not_found_witness :
  ∃ c0 c : cache,
    New [2] = Ok c0
    ∧ run 0 4 [CPut key_a 1; CPut key_b 2] c0 = Ok c
    ∧ index c !! key_c = None
    ∧ Get 0 key_c c = Ok ((0, Some ErrKeyNotFound), c)
    ∧ GetKeyFrequency key_c c = Ok (0, Some ErrKeyNotFound).
Proof.
  eexists _, _. split; [run_model|]. split; [run_model|].
  split; [run_model|]. apply absent_key_not_found. run_model.
Defined.

(** The invariant holds in the new cache of capacity 2 and after
    [Put key_a 1] on it, with the consequences stated for it. *)
Lemma structural_invariant_witness :
  ∃ (c0 c : cache) a,
    New [2] = Ok c0
    ∧ exec 0 4 (CPut key_a 1) c0 = Ok c
    ∧ Rep c a
    ∧ size (index c) = length (all_entries a)
    ∧ Size c = Z.of_nat (length (all_entries a))
    ∧ Size c ≤ Capacity c
    ∧ head (sequence c) = Some (hd 0%nat (bloc <$> a))
    ∧ ∃ b a', a = b :: a' ∧ bfreq b = 1.
Proof.
  eassert (New (K:=nat) (V:=Z) [2] = Ok _) as Hnew by run_model.
  destruct (proj1 (structural_invariant (K:=nat) 0) _ _ Hnew)
    as (a0 & HR0 & Hl0).
  eassert (exec 0 4 (CPut key_a 1) _ = Ok _) as Hex
    by (rewrite_state Hnew; run_model).
  destruct (proj1 (proj2 (structural_invariant (K:=nat) 0))
              _ _ _ _ _ HR0 Hl0 Hex) as (a1 & HR1 & Hl1).
  eexists _, _, a1. split; [exact Hnew|]. split; [exact Hex|].
  split; [exact HR1|].
  exact (proj2 (proj2 (structural_invariant (K:=nat) 0)) _ _ HR1).
Defined.

(** [Put key_a 7] on the full cache of capacity 2 that holds [key_a] and
    [key_b]. *)
Lemma Put_present_key_witness :
  ∃ (c0 c : cache) p,
    New [2] = Ok c0
    ∧ run 0 4 [CPut key_a 1; CPut key_b 2] c0 = Ok c
    ∧ index c !! key_a = Some p
    ∧ Size c = Capacity c
    ∧ ∃ c' f,
        Put 4 key_a 7 c = Ok c'
        ∧ index c' = index c
        ∧ Size c' = Size c ∧ Capacity c' = Capacity c
        ∧ GetKeyFrequency key_a c = Ok (f, None)
        ∧ GetKeyFrequency key_a c' = Ok (f + 1, None)
        ∧ (∃ c'', Get 0 key_a c' = Ok ((7, None), c''))
        ∧ (∀ k', k' ≠ key_a → GetKeyFrequency k' c' = GetKeyFrequency k' c)
        ∧ (∀ k' v', k' ≠ key_a →
             (∃ c1, Get 0 k' c' = Ok ((v', None), c1))
             ↔ (∃ c1, Get 0 k' c = Ok ((v', None), c1))).
Proof.
  eexists _, _, _. split; [run_model|]. split; [run_model|].
  split; [run_model|]. split; [run_model|].
  eapply (Put_present_key (K:=nat) 0 4).
  - eapply (reachable_run 0 [2] _ 4 [CPut key_a 1; CPut key_b 2]); run_model.
  - run_model.
Defined.

(** [Put key_b 2] then [Get key_b] on the cache of capacity 1 that holds
    [key_a]. *)
Lemma Put_Get_roundtrip_witness :
  ∃ c0 c : cache,
    New [1] = Ok c0
    ∧ run 0 4 [CPut key_a 1] c0 = Ok c
    ∧ 1 ≤ Capacity c
    ∧ (length (bnodes c) ≤ 4)%nat
    ∧ ∃ c1 c2,
        Put 4 key_b 2 c = Ok c1
        ∧ Get 0 key_b c1 = Ok ((2, None), c2)
        ∧ (index c !! key_b = None →
             GetKeyFrequency key_b c1 = Ok (1, None)
             ∧ GetKeyFrequency key_b c2 = Ok (2, None)).
Proof.
  eexists _, _. split; [run_model|]. split; [run_model|].
  split; [run_model|]. split; [run_model|].
  apply (proj1 (Put_Get_roundtrip (K:=nat) 0)).
  - eapply (reachable_run 0 [1] _ 4 [CPut key_a 1]); run_model.
  - run_model.
  - run_model.
Defined.

(** [key_b] is inserted into the cache of capacity 2 that holds [key_a],
    then read, left alone and rewritten: three accesses in all. *)
Lemma frequency_counts_accesses_witness :
  ∃ c0 c c1 c2 : cache,
    New [2] = Ok c0
    ∧ run 0 4 [CPut key_a 1] c0 = Ok c
    ∧ index c !! key_b = None
    ∧ Put 4 key_b 2 c = Ok c1
    ∧ run 0 4 [CGet key_b; CGet key_a; CPut key_b 5] c1 = Ok c2
    ∧ survives 0 4 key_b [CGet key_b; CGet key_a; CPut key_b 5] c1
    ∧ accesses key_b [CGet key_b; CGet key_a; CPut key_b 5] = 2%nat
    ∧ GetKeyFrequency key_b c1 = Ok (1, None)
    ∧ GetKeyFrequency key_b c2
      = Ok (1 + Z.of_nat
                  (accesses key_b [CGet key_b; CGet key_a; CPut key_b 5]),
            None).
Proof.
  eassert (New (K:=nat) (V:=Z) [2] = Ok _) as Hnew by run_model.
  eassert (run 0 4 [CPut key_a 1] _ = Ok _) as Hrun
    by (rewrite_state Hnew; run_model).
  eassert (Put 4 key_b 2 _ = Ok _) as Hput
    by (rewrite_state Hrun; run_model).
  eassert (run 0 4 [CGet key_b; CGet key_a; CPut key_b 5] _ = Ok _) as Hrun'
    by (rewrite_state Hput; run_model).
  eexists _, _, _, _. split; [exact Hnew|]. split; [exact Hrun|].
  split; [run_model|]. split; [exact Hput|]. split; [exact Hrun'|].
  split; [run_model|]. split; [run_model|].
  apply (proj2 (frequency_counts_accesses (K:=nat) 0 4 _ key_b
                  (reachable_run 0 _ _ _ _ _ Hnew Hrun))
           _ _ _ _ ltac:(run_model) Hput Hrun' ltac:(run_model)).
Defined.

(** Capacity 1: [key_a] is put, evicted by [key_b], and put again, which
    evicts [key_b]: three insertions and two evictions. *)
Lemma Size_is_insertions_minus_evictions_witness :
  ∃ c0 c : cache,
    New [1] = Ok c0
    ∧ tally 0 4 [CPut key_a 1; CPut key_b 2; CPut key_a 3] c0
      = Ok (3%nat, 2%nat, c)
    ∧ run 0 4 [CPut key_a 1; CPut key_b 2; CPut key_a 3] c0 = Ok c
    ∧ Size c = Z.of_nat 3 - Z.of_nat 2
    ∧ Size c ≤ Capacity c
    ∧ (∀ fuel', (length (bnodes c) ≤ fuel')%nat → Size c ≤ Z.of_nat fuel' →
         ∃ out, All fuel' c collect [] = Ok (out, c)
                ∧ NoDup out.*1 ∧ Size c = Z.of_nat (length out)).
Proof.
  eexists _, _. split; [run_model|]. split; [run_model|].
  eapply (Size_is_insertions_minus_evictions (K:=nat) 0 [1]); run_model.
Defined.

(** On that run the cache holds one key, while the calls put two distinct
    keys and evicted two: the difference of those two numbers is not the
    size. *)
Lemma Size_is_not_distinct_puts_minus_evictions :
  ∃ c0 c : cache,
    New [1] = Ok c0
    ∧ tally 0 4 [CPut key_a 1; CPut key_b 2; CPut key_a 3] c0
      = Ok (3%nat, 2%nat, c)
    ∧ size (put_keys [CPut key_a 1; CPut key_b 2; CPut key_a (3 : Z)])
      = 2%nat
    ∧ Size c = 1
    ∧ Size c
      ≠ Z.of_nat
          (size (put_keys [CPut key_a 1; CPut key_b 2; CPut key_a (3 : Z)]))
        - Z.of_nat 2.
Proof.
  eexists _, _. split; [run_model|]. split; [run_model|].
  split; [run_model|]. split; [run_model|]. run_model.
Qed.

(** Capacity 3, three keys put, then [key_b] read once and [key_c] twice:
    [All] yields [key_c], [key_b], [key_a] in that order; stopping after two
    pairs yields the first two; the state is the one [All] was given. *)
Lemma All_enumerates_witness :
  ∃ c0 c : cache,
    New [3] = Ok c0
    ∧ run 0 4 [CPut key_a 1; CPut key_b 2; CPut key_c 3;
               CGet key_b; CGet key_c; CGet key_c] c0 = Ok c
    ∧ (length (bnodes c) ≤ 4)%nat
    ∧ Size c ≤ Z.of_nat 4
    ∧ All 4 c collect [] = Ok ([(key_c, 3); (key_b, 2); (key_a, 1)], c)
    ∧ All 4 c (collect_upto 2) [] = Ok ([(key_c, 3); (key_b, 2)], c)
    ∧ (∀ k v, (k, v) ∈ [(key_c, 3); (key_b, 2); (key_a, 1)]
              ↔ ∃ c', Get 0 k c = Ok ((v, None), c')).
Proof.
  eassert (New (K:=nat) (V:=Z) [3] = Ok _) as Hnew by run_model.
  eassert (run 0 4 [CPut key_a 1; CPut key_b 2; CPut key_c 3;
                    CGet key_b; CGet key_c; CGet key_c] _ = Ok _) as Hrun
    by (rewrite_state Hnew; run_model).
  destruct (All_enumerates (K:=nat) 0 _ _ _ _ _ 4 Hnew Hrun
              ltac:(run_model) ltac:(run_model))
    as (out & Hall & _ & Hmem & _ & _ & Hupto).
  vm_compute in Hall. injection Hall as <-.
  eexists _, _. split; [exact Hnew|]. split; [exact Hrun|].
  split; [run_model|]. split; [run_model|]. split; [run_model|].
  split; [exact (Hupto 2%nat ltac:(lia))|]. exact Hmem.
Defined.

(** Capacity 2: [key_a] and [key_b] are put and [key_a] is read; the cache
    is full when [key_c] is put.  And three distinct keys put into a new
    cache of capacity 2 leave the first one out. *)
Lemma Put_evicts_least_frequent_then_oldest_witness :
  (∃ c0 c : cache,
     New [2] = Ok c0
     ∧ run 0 4 [CPut key_a 1; CPut key_b 2; CGet key_a] c0 = Ok c
     ∧ 1 ≤ Capacity c ∧ Size c = Capacity c
     ∧ index c !! key_c = None
     ∧ (length (bnodes c) ≤ 4)%nat
     ∧ ∃ c' kv fv,
         Put 4 key_c 3 c = Ok c'
         ∧ GetKeyFrequency kv c = Ok (fv, None)
         ∧ GetKeyFrequency kv c' = Ok (0, Some ErrKeyNotFound)
         ∧ dom (index c') = {[key_c]} ∪ (dom (index c) ∖ {[kv]})
         ∧ Size c' = Size c
         ∧ GetKeyFrequency key_c c' = Ok (1, None)
         ∧ (∃ c'', Get 0 key_c c' = Ok ((3, None), c''))
         ∧ (∀ k' f', k' ≠ kv → GetKeyFrequency k' c = Ok (f', None) →
              (fv < f'
               ∨ (fv = f'
                  ∧ (last_use [CPut key_a 1; CPut key_b 2; CGet key_a] kv
                     < last_use [CPut key_a 1; CPut key_b 2; CGet key_a] k'
                    )%nat))
              ∧ GetKeyFrequency k' c' = Ok (f', None)))
  ∧ (∃ c0 c : cache,
       New [Z.of_nat 2] = Ok c0
       ∧ run 0 4 (puts [(key_a, 1); (key_b, 2); (key_c, 3)]) c0 = Ok c
       ∧ GetKeyFrequency key_a c = Ok (0, Some ErrKeyNotFound)
       ∧ All 4 c collect [] = Ok (reverse [(key_b, 2); (key_c, 3)], c)).
Proof.
  split.
  - eassert (New (K:=nat) (V:=Z) [2] = Ok _) as Hnew by run_model.
    eassert (run 0 4 [CPut key_a 1; CPut key_b 2; CGet key_a] _ = Ok _)
      as Hrun by (rewrite_state Hnew; run_model).
    eexists _, _. split; [exact Hnew|]. split; [exact Hrun|].
    split; [run_model|]. split; [run_model|]. split; [run_model|].
    split; [run_model|].
    apply (proj1 (Put_evicts_least_frequent_then_oldest (K:=nat) 0)
             _ _ _ _ _ key_c 3 Hnew Hrun); run_model.
  - apply (proj2 (Put_evicts_least_frequent_then_oldest (K:=nat) 0)
             4%nat 4%nat 2%nat (key_a, 1) [(key_b, 2); (key_c, 3)]).
    + lia.
    + apply (bool_decide_unpack _). by vm_compute.
    + reflexivity.
    + lia.
Defined.

(** ** The examples of the specification *)

(** Capacity 2, [put(a,1)], [put(b,2)], [get(a)], [put(c,3)]: [b] is
    evicted, not [a]. *)
Example eviction_respects_frequency :
  ∃ c0 c : cache,
    New [2] = Ok c0
    ∧ run 0 4 [CPut key_a 1; CPut key_b 2; CGet key_a; CPut key_c 3] c0
      = Ok c
    ∧ GetKeyFrequency key_b c = Ok (0, Some ErrKeyNotFound)
    ∧ GetKeyFrequency key_a c = Ok (2, None)
    ∧ GetKeyFrequency key_c c = Ok (1, None)
    ∧ All 4 c collect [] = Ok ([(key_a, 1); (key_c, 3)], c).
Proof.
  eexists _, _. split; [run_model|]. split; [run_model|].
  split; [run_model|]. split; [run_model|]. split; [run_model|]. run_model.
Qed.

(** Capacity 0: the new cache is empty and reads on it answer
    [ErrKeyNotFound], but the first [Put] panics. *)
Example capacity_zero :
  ∃ c0 : cache,
    New [0] = Ok c0
    ∧ Size c0 = 0 ∧ Capacity c0 = 0
    ∧ Get 0 key_a c0 = Ok ((0, Some ErrKeyNotFound), c0)
    ∧ Put 4 key_a 1 c0 = Panic.
Proof.
  eexists. split; [run_model|]. split; [run_model|]. split; [run_model|].
  split; run_model.
Qed.

(** * Further properties of the code *)

(** ** The linked list *)

Section LinkedListProperties.
Context {Data : Type}.
Implicit Types (h : list (linkedListNode Data)) (l : linkedList).

(** X1: [add] on a well-formed list returns, without panic, a node it has
    just allocated, which holds the data given; the list then consists of
    the nodes it had, in their order, followed by the new node; no earlier
    node changes its data, and the list is not empty. *)
Theorem add_appends h locs l (d : Data) :
  dll h locs l →
  ∃ h' l',
    add d (h, l) = Ok (Some (length h), (h', l'))
    ∧ dll h' (locs ++ [length h]) l'
    ∧ (∀ b, b ∈ locs → (b < length h)%nat)
    ∧ data <$> h' !! length h = Some d
    ∧ (∀ b, (b < length h)%nat → data <$> h' !! b = data <$> h !! b)
    ∧ isEmpty l' = false.
Proof.
  intros Hdll.
  destruct (add_spec h locs l d Hdll)
    as (h' & l' & Hadd & Hdll' & _ & Hnew & Hold & _).
  exists h', l'. split_and!; [done..| |done|done|].
  - intros b. by apply (dll_lt h locs l).
  - rewrite (dll_isEmpty _ _ _ Hdll'). apply bool_decide_eq_false.
    by intros ?%app_nil_r_inv%eq_sym%nil_cons.
Qed.

(** X2: [insertAfter] with a pivot that is a node of a well-formed list
    returns, without panic, a node it has just allocated, which holds the
    data given and sits right after the pivot; the other nodes keep their
    order and their data. *)
Theorem insertAfter_links_after_pivot h locs1 a locs2 l (d : Data) :
  dll h (locs1 ++ a :: locs2) l →
  ∃ h' l',
    insertAfter (Some a) d (h, l) = Ok (Some (length h), (h', l'))
    ∧ dll h' (locs1 ++ a :: length h :: locs2) l'
    ∧ data <$> h' !! length h = Some d
    ∧ (∀ b, (b < length h)%nat → data <$> h' !! b = data <$> h !! b)
    ∧ head l' = head l
    ∧ (locs2 ≠ [] → tail l' = tail l)
    ∧ (locs2 = [] → tail l' = Some (length h)).
Proof.
  intros Hdll.
  destruct (insertAfter_spec h locs1 a locs2 l d Hdll)
    as (h' & l' & Hins & Hdll' & _ & Hnew & Hold & _).
  exists h', l'. split_and!; [done..| | |].
  - destruct Hdll as (_ & _ & -> & _), Hdll' as (_ & _ & -> & _).
    by destruct locs1.
  - intros Hne.
    destruct Hdll as (_ & _ & _ & ->), Hdll' as (_ & _ & _ & ->).
    destruct locs2 as [|y locs2 _] using rev_ind; [done|].
    rewrite !app_comm_cons, !app_assoc. by rewrite !last_ptr_snoc.
  - intros ->. destruct Hdll' as (_ & _ & _ & ->).
    replace (locs1 ++ [a; length h]) with ((locs1 ++ [a]) ++ [length h])
      by (by rewrite <-app_assoc).
    by rewrite last_ptr_snoc.
Qed.

(** X3: [remove] of a node of a well-formed list returns without panic
    and leaves the list of the other nodes, in their order; it changes
    the data of no node and allocates nothing; the list is empty
    afterwards exactly when the node was its only one. *)
Theorem remove_unlinks h locs1 a locs2 l :
  dll h (locs1 ++ a :: locs2) l →
  ∃ h' l',
    remove (Some a) (h, l) = Ok (h', l')
    ∧ dll h' (locs1 ++ locs2) l'
    ∧ length h' = length h
    ∧ (∀ b, data <$> h' !! b = data <$> h !! b)
    ∧ isEmpty l' = bool_decide (locs1 = [] ∧ locs2 = []).
Proof.
  intros Hdll.
  destruct (remove_spec h locs1 a locs2 l Hdll)
    as (h' & l' & Hrm & Hdll' & Hlen & Hdata & _).
  exists h', l'. split_and!; [done..|].
  rewrite (dll_isEmpty _ _ _ Hdll').
  apply bool_decide_ext. split.
  - by intros [-> ->]%app_eq_nil.
  - by intros [-> ->].
Qed.

(** X4: [add] followed by [remove] of the node that [add] returned gives
    back the list as it was: the same header, the same nodes in the same
    order, with the data they had. *)
Theorem add_then_remove h locs l (d : Data) :
  dll h locs l →
  ∃ node h' l' h'',
    add d (h, l) = Ok (node, (h', l'))
    ∧ remove node (h', l') = Ok (h'', l)
    ∧ dll h'' locs l
    ∧ (∀ b, (b < length h)%nat → data <$> h'' !! b = data <$> h !! b).
Proof.
  intros Hdll.
  destruct (add_spec h locs l d Hdll)
    as (h' & l' & Hadd & Hdll' & _ & _ & Hold & _).
  destruct (remove_spec h' locs (length h) [] l' Hdll')
    as (h'' & l'' & Hrm & Hdll'' & _ & Hdata & _).
  rewrite app_nil_r in Hdll''.
  assert (l'' = l) as ->.
  { rewrite (dll_header _ _ _ Hdll''). by rewrite (dll_header _ _ _ Hdll). }
  exists (Some (length h)), h', l', h''. split_and!; [done..|].
  intros b Hb. by rewrite Hdata, Hold.
Qed.

(** X14: [remove] of a node followed by [addNode] of the same node moves
    it to the tail: both calls return without panic, the stale links of
    the node are overwritten, the other nodes keep their order, and no
    node changes its data. *)
Theorem remove_then_addNode h locs1 a locs2 l :
  dll h (locs1 ++ a :: locs2) l →
  ∃ h' l' h'' l'',
    remove (Some a) (h, l) = Ok (h', l')
    ∧ addNode (Some a) (h', l') = Ok (Some a, (h'', l''))
    ∧ dll h'' (locs1 ++ locs2 ++ [a]) l''
    ∧ tail l'' = Some a
    ∧ length h'' = length h
    ∧ (∀ b, data <$> h'' !! b = data <$> h !! b).
Proof.
  intros Hdll.
  assert (a ∉ locs1 ++ locs2) as Ha.
  { destruct Hdll as (Hnd & _). by apply NoDup_mid_notin in Hnd. }
  assert (a < length h)%nat as Hlt.
  { apply (dll_lt h _ l a Hdll), elem_of_app. right. by left. }
  destruct (remove_spec h locs1 a locs2 l Hdll)
    as (h' & l' & Hrm & Hdll' & Hlen & Hdata & _).
  destruct (lookup_lt_is_Some_2 h' a) as (nd & Hnd); [lia|].
  destruct (addNode_spec h' (locs1 ++ locs2) l' a nd Hdll' Ha Hnd)
    as (h'' & l'' & Hadd & Hdll'' & Hlen' & Hdata' & _).
  rewrite <-app_assoc in Hdll''.
  exists h', l', h'', l''. split_and!; [done..| |congruence|].
  - destruct Hdll'' as (_ & _ & _ & ->).
    by rewrite (app_assoc locs1 locs2 [a]), last_ptr_snoc.
  - intros b. by rewrite Hdata', Hdata.
Qed.
End LinkedListProperties.

(** ** Histories: what a run leaves in the picture *)

Section Histories.
Context {K V : Type} `{Countable K}.
Context (zeroV : V).
Implicit Types (c : @cacheImpl K V _ _) (a : list (@abucket K V)).
Implicit Types (b : @abucket K V) (e : @aentry K V).
Implicit Types (o : @call K V) (h os : list (@call K V)).

Lemma freqs_ok_with_ents a1 b a2 es :
  freqs_ok (a1 ++ b :: a2) → freqs_ok (a1 ++ with_ents b es :: a2).
Proof.
  intros [(b0 & a0 & Heq & Hone) Hs]. split.
  - destruct a1 as [|x a1]; simplify_eq/=; eauto.
  - by rewrite fmap_app, fmap_cons in *.
Qed.

Lemma has_mid a1 b a2 es1 e es2 :
  bents b = es1 ++ e :: es2 →
  has (a1 ++ b :: a2) (ekey e) (bfreq b) (evalue e).
Proof.
  intros Hb. exists b, e. split_and!; [| |done..].
  - apply elem_of_app. right. by left.
  - rewrite Hb. apply elem_of_app. right. by left.
Qed.

(** Where a key cached after a call comes from: it was cached before,
    with the frequency it has now less the access that the call made,
    and with the value it has now unless the call put another; or the
    call is the [Put] that inserted it. *)
Lemma has_after nb ne cap o a a' k f' v' :
  pic_step nb ne cap o a a' →
  NoDup (keys a) → freqs_ok a →
  has a' k f' v' →
  (∃ f v,
     has a k f v
     ∧ f' = f + (if decide (call_key o = k) then 1 else 0)
     ∧ v' = match o with
            | CPut k0 v0 => if decide (k0 = k) then v0 else v
            | CGet _ => v
            end)
  ∨ ((k ∉ keys a) ∧ f' = 1 ∧ o = CPut k v').
Proof.
  intros Hstep Hnd Hf Hh'. destruct Hstep as
    [k0 a Hk0|a1 b a2 es1 e es2 Hb|a1 b a2 es1 e es2 v0 Hb
    |a k0 v0 Hk0 Hroom|a1 b a2 e es k0 v0 Hk0 Hfull Hemp Hb]; simpl.
  - left. exists f', v'. split; [done|].
    rewrite decide_False; [split; [lia|done]|].
    intros ->. apply Hk0. by eapply has_key.
  - left. apply (has_touched _ _ _ _ _ e) in Hh'; [|done..].
    destruct Hh' as [(-> & -> & ->)|Hh'].
    + exists (bfreq b), (evalue e). rewrite decide_True by done.
      split; [by eapply has_mid|done].
    + apply (has_removed a1 b a2 es1 e es2) in Hh' as (Hne & Hh');
        [|done..].
      exists f', v'. rewrite decide_False by done. split; [done|].
      split; [lia|done].
  - left. apply (has_touched _ _ _ _ _ e) in Hh'; [|done..].
    destruct Hh' as [(-> & -> & ->)|Hh'].
    + exists (bfreq b), (evalue e). simpl. rewrite !decide_True by done.
      split; [by eapply has_mid|done].
    + apply (has_removed a1 b a2 es1 e es2) in Hh' as (Hne & Hh');
        [|done..].
      exists f', v'. rewrite !decide_False by done. split; [done|].
      split; [lia|done].
  - apply has_inserted in Hh'; [|done]. simpl in Hh'.
    destruct Hh' as [(-> & -> & ->)|Hh']; [by right|].
    left. exists f', v'. split; [done|].
    assert (k0 ≠ k) as Hne.
    { intros ->. apply Hk0. by eapply has_key. }
    rewrite !decide_False by done. split; [lia|done].
  - apply has_inserted in Hh'; [|by apply freqs_ok_with_ents].
    simpl in Hh'. destruct Hh' as [(-> & -> & ->)|Hh']; [by right|].
    apply (has_removed a1 b a2 [] e es) in Hh' as (Hne & Hh'); [|done..].
    left. exists f', v'. split; [done|].
    assert (k0 ≠ k) as Hne'.
    { intros ->. apply Hk0. by eapply has_key. }
    rewrite !decide_False by done. split; [lia|done].
Qed.

Lemma accesses_snoc k h o :
  accesses k (h ++ [o])
  = (accesses k h + (if decide (call_key o = k) then 1 else 0))%nat.
Proof.
  unfold accesses. rewrite filter_app, length_app. f_equal.
  rewrite filter_cons, filter_nil. by case_decide.
Qed.

Lemma last_put_snoc h o k :
  last_put (h ++ [o]) k
  = match o with
    | CPut k0 v0 => if decide (k0 = k) then Some v0 else last_put h k
    | CGet _ => last_put h k
    end.
Proof.
  unfold last_put. rewrite omap_app. simpl.
  destruct o as [k0|k0 v0]; simpl.
  - by rewrite app_nil_r.
  - case_decide; simpl; [by rewrite last_snoc|by rewrite app_nil_r].
Qed.

(** The eviction scan passes at most the first bucket. *)
Lemma low_ok_prefix a1 b a2 :
  low_ok (a1 ++ b :: a2) → Forall (λ b', bents b' = []) a1 →
  bents b ≠ [] → (length a1 ≤ 1)%nat.
Proof.
  intros Hl Hemp Hb. destruct a1 as [|b0 [|b1 a1]]; simpl; [lia..|].
  exfalso. apply Forall_cons in Hemp as (H0 & Hemp).
  apply Forall_cons in Hemp as (H1 & _). simpl in Hl. tauto.
Qed.

Lemma low_ok_inserted a e : low_ok (inserted a e).
Proof.
  destruct a as [|b0 [|b1 a]]; simpl; [done..|]. left.
  by intros ?%app_nil_r_inv%eq_sym%nil_cons.
Qed.

Lemma low_ok_touched nb a1 b es1 e es2 a2 :
  freqs_ok (a1 ++ b :: a2) → low_ok (a1 ++ b :: a2) →
  low_ok (touched nb a1 b es1 e es2 a2).
Proof.
  intros Hf Hl.
  assert (∃ t rest,
            match a2 with
            | [] => [@mkABucket K V nb (bfreq b + 1) [e]]
            | b2 :: a2' =>
                if decide (bfreq b2 > bfreq b + 1)
                then @mkABucket K V nb (bfreq b + 1) [e] :: a2
                else with_ents b2 (bents b2 ++ [e]) :: a2'
            end = t :: rest ∧ bents t ≠ []) as (t & rest & Ht & Hne).
  { destruct a2 as [|b2 a2']; [|case_decide]; eexists _, _;
      (split; [reflexivity|]); simpl; try done;
      by intros ?%app_nil_r_inv%eq_sym%nil_cons. }
  unfold touched. cbv zeta. rewrite Ht.
  destruct a1 as [|b0 [|b1 a1]].
  - (* the touched bucket is the first one and stays *)
    destruct Hf as [(b' & a' & [= <- <-] & Hone) _].
    rewrite decide_False by lia. simpl. by right.
  - assert (bfreq b0 < bfreq b) as Hlt by (by apply (freqs_ok_next [] b0 b a2)).
    destruct Hf as [(b' & a' & [= <- <-] & Hone) _].
    case_decide as Hd; simpl; right; [done|].
    intros Hnil. apply Hd. split; [done|lia].
  - simpl. simpl in Hl. done.
Qed.

Lemma pic_step_low nb ne cap o a a' :
  pic_step nb ne cap o a a' → freqs_ok a → low_ok a → low_ok a'.
Proof.
  intros Hstep Hf Hl. destruct Hstep.
  - done.
  - by apply low_ok_touched.
  - by apply low_ok_touched.
  - apply low_ok_inserted.
  - apply low_ok_inserted.
Qed.

Lemma traced_step nb ne cap o a a' h :
  pic_step nb ne cap o a a' → NoDup (keys a) → freqs_ok a →
  traced h a → traced (h ++ [o]) a'.
Proof.
  intros Hstep Hnd Hf (Hl & Hall). split; [by eapply pic_step_low|].
  intros k f' v' Hh'. rewrite accesses_snoc, last_put_snoc.
  destruct (has_after _ _ _ _ _ _ _ _ _ Hstep Hnd Hf Hh')
    as [(f & v & Hh & -> & ->)|(Hk & -> & ->)].
  - destruct (Hall _ _ _ Hh) as (Hfb & Hv). split.
    + case_decide; lia.
    + destruct o as [k0|k0 v0]; [done|]. by destruct (decide (k0 = k)).
  - simpl. rewrite !decide_True by done. split; [lia|done].
Qed.

Lemma run_traced fuel os c c' h a :
  pictured h c a → traced h a → run zeroV fuel os c = Ok c' →
  ∃ a', pictured (h ++ os) c' a' ∧ traced (h ++ os) a'
        ∧ capacity c' = capacity c.
Proof.
  revert c h a. induction os as [|o os IH]; intros c h a Hp Ht Hrun;
    simpl in *.
  - injection Hrun as <-. exists a. by rewrite app_nil_r.
  - destruct (exec zeroV fuel o c) as [c1| |] eqn:Hex; [|done..].
    simpl in Hrun.
    destruct (exec_pictured _ _ _ _ _ _ _ Hp Hex)
      as (a1 & Hstep & Hp1 & Hc1 & _).
    pose proof Hp as ((_ & _ & Hnd & _ & Hf & _) & _).
    pose proof (traced_step _ _ _ _ _ _ _ Hstep Hnd Hf Ht) as Ht1.
    destruct (IH _ _ _ Hp1 Ht1 Hrun) as (a' & Hp' & Ht' & Hc').
    exists a'.
    replace (h ++ o :: os) with ((h ++ [o]) ++ os)
      by (by rewrite <-app_assoc).
    split_and!; [done..|congruence].
Qed.

Lemma New_traced caps (c0 : cacheImpl (K:=K) (V:=V)) fuel os c :
  New caps = Ok c0 → run zeroV fuel os c0 = Ok c →
  ∃ a, pictured os c a ∧ traced os a ∧ capacity c = capacity c0.
Proof.
  intros Hnew Hrun.
  destruct (New_pictured _ _ Hnew) as (Hp0 & _).
  apply (run_traced fuel os c0 c [] _ Hp0); [|done].
  split; [done|]. intros k f v Hh. exfalso.
  destruct Hh as (b & e & ->%list_elem_of_singleton & He & _).
  by apply elem_of_nil in He.
Qed.

Lemma reachable_traced c :
  reachable zeroV c → ∃ h a, pictured h c a ∧ traced h a.
Proof.
  intros (caps & os & fuel & c0 & Hnew & Hrun).
  destruct (New_traced _ _ _ _ _ Hnew Hrun) as (a & Hp & Ht & _). eauto.
Qed.

(** With a capacity of at least 1, a call returns as soon as it has fuel
    for one step of the eviction scan. *)
Lemma exec_returns_one fuel o c a :
  Rep c a → low_ok a → 1 ≤ capacity c →
  ∃ c', exec zeroV (S fuel) o c = Ok c'.
Proof.
  intros HR Hl Hcap. destruct o as [k|k v]; simpl.
  - destruct (index c !! k) as [p|] eqn:Hk.
    + destruct (Rep_find _ _ _ _ HR Hk)
        as (a1 & b & a2 & es1 & e & es2 & -> & Hb & <- & ->).
      destruct (Get_hit zeroV c a1 b a2 es1 e es2 HR Hb)
        as (c1 & Hget & _).
      rewrite Hget. simpl. eauto.
    + rewrite (Get_miss _ _ _ Hk). simpl. eauto.
  - destruct (index c !! k) as [p|] eqn:Hk.
    + destruct (Rep_find _ _ _ _ HR Hk)
        as (a1 & b & a2 & es1 & e & es2 & -> & Hb & <- & ->).
      destruct (Put_hit (S fuel) c a1 b a2 es1 e es2 v HR Hb)
        as (c1 & Hput & _). eauto.
    + destruct (decide (Size c + 1 > Capacity c)) as [Hfull|Hroom].
      * destruct (decide (all_entries a = [])) as [Hnone|Hsome].
        { rewrite (Rep_Size _ _ HR), Hnone in Hfull.
          unfold Capacity in Hfull. simpl in Hfull. lia. }
        destruct (first_nonempty a Hsome)
          as (a1 & b & a2 & e & es & -> & Hemp & Hb).
        destruct (Put_miss_evict (S fuel) c a1 b a2 e es k v
                    HR Hemp Hb Hk Hfull) as (c1 & Hput & _); [|eauto].
        assert (length a1 ≤ 1)%nat; [|lia].
        apply (low_ok_prefix a1 b a2); [done..|]. by rewrite Hb.
      * destruct (Put_miss_room (S fuel) c a k v HR Hk Hroom)
          as (c1 & Hput & _). eauto.
Qed.

Lemma run_returns_one fuel os c h a :
  pictured h c a → traced h a → 1 ≤ capacity c →
  ∃ c', run zeroV (S fuel) os c = Ok c'.
Proof.
  revert c h a. induction os as [|o os IH]; intros c h a Hp Ht Hcap;
    simpl; [eauto|].
  destruct (exec_returns_one fuel o c a) as (c1 & Hex);
    [apply Hp|apply Ht|done|].
  rewrite Hex. simpl.
  destruct (run_traced (S fuel) [o] c c1 h a Hp Ht) as (a1 & Hp1 & Ht1 & Hc1).
  { simpl. by rewrite Hex. }
  eapply IH; [done..|lia].
Qed.
End Histories.

(** ** The cache *)

Section CacheProperties.
Context {K V : Type} `{Countable K}.
Context (zeroV : V).
Implicit Types (c : @cacheImpl K V _ _) (a : list (@abucket K V)).
Implicit Types (o : @call K V) (h os : list (@call K V)).

(** X5: [Get] on a key that is present returns its value without error
    and evicts nothing: the index, hence the key set and [Size], and
    [Capacity] are as they were; the key has one more access, every other
    key keeps its frequency, and every key, the one read included, keeps
    its value. *)
Theorem Get_present_key c k p :
  reachable zeroV c → index c !! k = Some p →
  ∃ v f c',
    Get zeroV k c = Ok ((v, None), c')
    ∧ index c' = index c
    ∧ Size c' = Size c ∧ Capacity c' = Capacity c
    ∧ GetKeyFrequency k c = Ok (f, None)
    ∧ GetKeyFrequency k c' = Ok (f + 1, None)
    ∧ (∀ k', k' ≠ k → GetKeyFrequency k' c' = GetKeyFrequency k' c)
    ∧ (∀ k' v',
         (∃ c1, Get zeroV k' c' = Ok ((v', None), c1))
         ↔ (∃ c1, Get zeroV k' c = Ok ((v', None), c1))).
Proof.
  intros Hreach Hk.
  destruct (reachable_pictured zeroV c Hreach) as (h & a & HR & _).
  destruct (Rep_find _ _ _ _ HR Hk)
    as (a1 & b & a2 & es1 & e & es2 & -> & Hb & <- & ->).
  destruct (Get_hit zeroV c a1 b a2 es1 e es2 HR Hb)
    as (c' & Hget & HR' & Hi' & Hc' & _).
  pose proof HR as (_ & _ & Hnd & _ & Hf & _).
  set (a' := touched (length (bnodes c)) a1 b es1 e es2 a2) in *.
  assert (∀ k' f' v',
            has a' k' f' v' ↔
            (k' = ekey e ∧ f' = bfreq b + 1 ∧ v' = evalue e)
            ∨ (k' ≠ ekey e ∧ has (a1 ++ b :: a2) k' f' v')) as Hhas.
  { intros k' f' v'. unfold a'.
    rewrite (has_touched _ a1 b a2 es1 e e es2) by done.
    by rewrite (has_removed a1 b a2 es1 e es2) by done. }
  pose proof (has_mid a1 b a2 es1 e es2 Hb) as Hhe.
  exists (evalue e), (bfreq b), c'.
  split_and!; [done|done| |done| | | |].
  - unfold Size. by rewrite Hi'.
  - apply (GetKeyFrequency_has c _ _ _ HR). eauto.
  - apply (GetKeyFrequency_has c' _ _ _ HR'). exists (evalue e).
    apply Hhas. tauto.
  - intros k' Hk'.
    destruct (index c !! k') as [p'|] eqn:Hp'.
    + destruct (Rep_find _ _ _ _ HR Hp')
        as (x1 & bx & x2 & y1 & ex & y2 & Heq & Hbx & <- & ->).
      assert (has (a1 ++ b :: a2) (ekey ex) (bfreq bx) (evalue ex)) as Hx.
      { rewrite Heq. by eapply has_mid. }
      transitivity (Ok (A:=Z * option error) (bfreq bx, None)).
      * apply (GetKeyFrequency_has c' _ _ _ HR'). exists (evalue ex).
        apply Hhas. tauto.
      * symmetry. apply (GetKeyFrequency_has c _ _ _ HR). eauto.
    + rewrite !GetKeyFrequency_miss; [done..|by rewrite Hi'].
  - intros k' v'.
    rewrite (Get_has zeroV c' _ _ _ HR'), (Get_has zeroV c _ _ _ HR).
    split.
    + intros (f' & [(-> & -> & ->)|(_ & Hh)]%Hhas); eauto.
    + intros (f' & Hh).
      destruct (decide (k' = ekey e)) as [->|Hne].
      * destruct (has_functional _ _ _ _ _ _ Hnd Hh Hhe) as (-> & ->).
        exists (bfreq b + 1). apply Hhas. tauto.
      * exists f'. apply Hhas. tauto.
Qed.

(** X6: [Put] of a key that is absent into a cache that is not full
    returns for any fuel and evicts nothing: the key joins the key set
    with frequency 1 and the value given, [Size] grows by 1, and every
    other key keeps its frequency and its value. *)
Theorem Put_absent_key_with_room fuel c k v :
  reachable zeroV c → index c !! k = None → Size c < Capacity c →
  ∃ c',
    Put fuel k v c = Ok c'
    ∧ dom (index c') = {[k]} ∪ dom (index c)
    ∧ Size c' = Size c + 1 ∧ Capacity c' = Capacity c
    ∧ GetKeyFrequency k c' = Ok (1, None)
    ∧ (∃ c'', Get zeroV k c' = Ok ((v, None), c''))
    ∧ (∀ k', k' ≠ k → GetKeyFrequency k' c' = GetKeyFrequency k' c)
    ∧ (∀ k' v', k' ≠ k →
         (∃ c1, Get zeroV k' c' = Ok ((v', None), c1))
         ↔ (∃ c1, Get zeroV k' c = Ok ((v', None), c1))).
Proof.
  intros Hreach Hk Hroom.
  destruct (reachable_pictured zeroV c Hreach) as (h & a & HR & _).
  destruct (Put_miss_room fuel c a k v HR Hk) as (c' & Hput & HR' & Hi' & Hc' & _);
    [lia|].
  pose proof HR as (_ & _ & Hnd & _ & Hf & _).
  set (enew := {| eloc := length (enodes c); ekey := k; evalue := v |}) in *.
  assert (∀ k' f' v',
            has (inserted a enew) k' f' v' ↔
            (k' = k ∧ f' = 1 ∧ v' = v) ∨ has a k' f' v') as Hhas.
  { intros k' f' v'. by rewrite has_inserted by done. }
  assert (∀ f' v', ¬ has a k f' v') as Hnot.
  { intros f' v' Hh. apply (Rep_keys_index c _ _ HR) in Hk. apply Hk.
    by eapply has_key. }
  exists c'. split_and!; [done| | |done| | | |].
  - rewrite Hi'. by rewrite dom_insert_L.
  - unfold Size. rewrite Hi'. rewrite map_size_insert_None by done. lia.
  - apply (GetKeyFrequency_has c' _ _ _ HR'). exists v. apply Hhas. tauto.
  - apply (Get_has zeroV c' _ _ _ HR'). exists 1. apply Hhas. tauto.
  - intros k' Hk'.
    destruct (index c !! k') as [p'|] eqn:Hp'.
    + destruct (Rep_find _ _ _ _ HR Hp')
        as (x1 & bx & x2 & y1 & ex & y2 & Heq & Hbx & <- & ->).
      assert (has a (ekey ex) (bfreq bx) (evalue ex)) as Hx.
      { rewrite Heq. by eapply has_mid. }
      transitivity (Ok (A:=Z * option error) (bfreq bx, None)).
      * apply (GetKeyFrequency_has c' _ _ _ HR'). exists (evalue ex).
        apply Hhas. tauto.
      * symmetry. apply (GetKeyFrequency_has c _ _ _ HR). eauto.
    + rewrite !GetKeyFrequency_miss; [done..|].
      rewrite Hi'. by rewrite lookup_insert_ne.
  - intros k' v' Hk'.
    rewrite (Get_has zeroV c' _ _ _ HR'), (Get_has zeroV c _ _ _ HR).
    split; intros (f' & Hh); exists f'.
    + apply Hhas in Hh. tauto.
    + apply Hhas. tauto.
Qed.

(** X7: [New] returns exactly when it is given at most one capacity and
    that capacity is not negative, and panics otherwise, also when it is
    given two capacities or more.  The cache it returns has the capacity
    given, or 5, and holds nothing: every [Get] answers
    [ErrKeyNotFound] and [All] yields no pair to any consumer. *)
Theorem New_returns_iff (caps : list Z) :
  ((length caps ≤ 1)%nat ∧ Forall (λ cap, 0 ≤ cap) caps →
   ∃ c0 : cacheImpl (K:=K) (V:=V),
     New caps = Ok c0
     ∧ Capacity c0 = hd DefaultCapacity caps
     ∧ Size c0 = 0
     ∧ (∀ k, Get zeroV k c0 = Ok ((zeroV, Some ErrKeyNotFound), c0))
     ∧ (∀ fuel S (yield : K → V → S → bool * S) s,
          All (Datatypes.S fuel) c0 yield s = Ok (s, c0)))
  ∧ (¬ ((length caps ≤ 1)%nat ∧ Forall (λ cap, 0 ≤ cap) caps) →
     New (K:=K) (V:=V) caps = Panic).
Proof.
  split.
  - intros (Hlen & Hpos).
    assert (0 ≤ hd DefaultCapacity caps) as Hcap.
    { destruct caps as [|cap caps]; [done|].
      by apply Forall_cons in Hpos as (? & _). }
    assert (New (K:=K) (V:=V) caps = New [hd DefaultCapacity caps]) as ->.
    { destruct caps as [|cap [|cap' caps]]; simpl in *; [| |lia].
      - reflexivity.
      - reflexivity. }
    unfold New. rewrite decide_False by (simpl; lia).
    rewrite decide_False by lia.
    eexists. split; [reflexivity|].
    split_and!; [done|done|done|intros fuel S yield s; by destruct fuel].
  - intros Hnot. unfold New.
    destruct (decide (1 < length caps)%nat) as [|Hlen]; [done|].
    destruct caps as [|cap [|cap' caps]]; simpl in *; [| |lia].
    + exfalso. apply Hnot. split; [lia|done].
    + destruct (decide (cap < 0)) as [|Hcap]; [done|].
      exfalso. apply Hnot. split; [lia|]. apply Forall_singleton. lia.
Qed.

(** X8: in a state reached from [New] by the calls [h], the frequency
    that [GetKeyFrequency] reports for a cached key is at least 1 and at
    most the number of calls of [h] made on that key. *)
Theorem frequency_bounds caps c0 fuel h c k f :
  New caps = Ok c0 → run zeroV fuel h c0 = Ok c →
  GetKeyFrequency k c = Ok (f, None) →
  1 ≤ f ≤ Z.of_nat (accesses k h).
Proof.
  intros Hnew Hrun Hg.
  destruct (New_traced zeroV _ _ _ _ _ Hnew Hrun)
    as (a & (HR & _) & (_ & Ht) & _).
  destruct (proj1 (GetKeyFrequency_has c a k f HR) Hg) as (v & Hh).
  by destruct (Ht _ _ _ Hh).
Qed.

(** X9: on a reachable cache of capacity at least 1, every sequence of
    [Get] and [Put] calls returns, and it does so with fuel for a single
    step of the eviction scan: no call panics, and the loop of [Put]
    passes at most one bucket, the first, before it finds its victim. *)
Theorem calls_never_panic fuel c os :
  reachable zeroV c → 1 ≤ Capacity c →
  ∃ c', run zeroV (S fuel) os c = Ok c'.
Proof.
  intros Hreach Hcap.
  destruct (reachable_traced zeroV c Hreach) as (h & a & Hp & Ht).
  by apply (run_returns_one zeroV fuel os c h a).
Qed.

(** X10: in every reachable state, whatever the capacity, [Get] and
    [GetKeyFrequency] return, and they report the same outcome for a
    key: both succeed, the frequency being at least 1, or both answer
    [ErrKeyNotFound], with the zero value, frequency 0 and the state
    left as it was. *)
Theorem reads_never_panic c k :
  reachable zeroV c →
  ∃ v f e c',
    Get zeroV k c = Ok ((v, e), c')
    ∧ GetKeyFrequency k c = Ok (f, e)
    ∧ (e = None ↔ is_Some (index c !! k))
    ∧ (e = None → 1 ≤ f)
    ∧ (e ≠ None → e = Some ErrKeyNotFound ∧ v = zeroV ∧ f = 0 ∧ c' = c).
Proof.
  intros Hreach.
  destruct (reachable_traced zeroV c Hreach) as (h & a & (HR & _) & _ & Ht).
  destruct (index c !! k) as [p|] eqn:Hk.
  - destruct (Rep_find _ _ _ _ HR Hk)
      as (a1 & b & a2 & es1 & e & es2 & -> & Hb & <- & ->).
    destruct (Get_hit zeroV c a1 b a2 es1 e es2 HR Hb) as (c' & Hget & _).
    pose proof (has_mid a1 b a2 es1 e es2 Hb) as Hh.
    exists (evalue e), (bfreq b), None, c'. split_and!; [done| | | |done].
    + apply (GetKeyFrequency_has c _ _ _ HR). eauto.
    + split; [eauto|done].
    + intros _. by destruct (Ht _ _ _ Hh) as ((? & _) & _).
  - exists zeroV, 0, (Some ErrKeyNotFound), c.
    split_and!; [by apply Get_miss|by apply GetKeyFrequency_miss| |done|done].
    split; [done|]. by intros ?%is_Some_None.
Qed.

(** X11: in a state reached from [New] by the calls [h], a key that
    [Get] finds holds the value of the last [Put] that [h] makes on
    it. *)
Theorem cached_value_is_last_put caps c0 fuel h c k v c' :
  New caps = Ok c0 → run zeroV fuel h c0 = Ok c →
  Get zeroV k c = Ok ((v, None), c') →
  last_put h k = Some v.
Proof.
  intros Hnew Hrun Hg.
  destruct (New_traced zeroV _ _ _ _ _ Hnew Hrun)
    as (a & (HR & _) & (_ & Ht) & _).
  destruct (proj1 (Get_has zeroV c a k v HR)) as (f & Hh); [eauto|].
  by destruct (Ht _ _ _ Hh).
Qed.

Lemma all_entries_empty a :
  Forall (λ b, bents b = []) a → all_entries a = [].
Proof.
  induction 1 as [|b a Hb _ IH]; [done|].
  by rewrite all_entries_cons, Hb, IH.
Qed.

(** X12: the key that a [Put] evicts is the last one that [All]
    enumerates.  In a full cache of capacity at least 1 reached from
    [New], [All] ends with the pair of the key that [Put] of an absent
    key evicts; after the [Put], [All] enumerates the other pairs in the
    order they had, with the new pair among them. *)
Theorem evicted_key_is_last_of_All caps c0 fuel h c k v pfuel fuel' :
  New caps = Ok c0 → run zeroV fuel h c0 = Ok c →
  1 ≤ Capacity c → Size c = Capacity c → index c !! k = None →
  (length (bnodes c) ≤ fuel')%nat → Size c ≤ Z.of_nat fuel' →
  ∃ out kv vv c' l1 l2,
    All fuel' c collect [] = Ok (out ++ [(kv, vv)], c)
    ∧ Put (S pfuel) k v c = Ok c'
    ∧ GetKeyFrequency kv c' = Ok (0, Some ErrKeyNotFound)
    ∧ All fuel' c' collect [] = Ok (l1 ++ (k, v) :: l2, c')
    ∧ out = l1 ++ l2.
Proof.
  intros Hnew Hrun Hcap Hfull Hk Hfb Hfe.
  destruct (New_traced zeroV _ _ _ _ _ Hnew Hrun)
    as (a & (HR & _) & (Hl & _) & _).
  pose proof (Rep_Size _ _ HR) as Hsz.
  destruct (first_nonempty a) as (a1 & b & a2 & e & es & -> & Hemp & Hb).
  { intros Hnil. rewrite Hnil in Hsz. simpl in Hsz. lia. }
  destruct (Put_miss_evict (S pfuel) c a1 b a2 e es k v HR Hemp Hb Hk)
    as (c' & Hput & HR' & Hi' & Hc' & Hlb'); [lia| |].
  { assert (length a1 ≤ 1)%nat; [|lia].
    apply (low_ok_prefix a1 b a2); [done..|]. by rewrite Hb. }
  set (enew := {| eloc := length (enodes c); ekey := k; evalue := v |}) in *.
  set (pr := λ e0 : aentry (K:=K) (V:=V), (ekey e0, evalue e0)).
  assert (ekey e ≠ k) as Hne.
  { intros Heq. apply (Rep_keys_index c _ _ HR) in Hk. apply Hk.
    rewrite <-Heq. eapply has_key. by apply (has_mid a1 b a2 [] e es). }
  assert (Size c' = Size c) as Hsz'.
  { rewrite (Rep_Size _ _ HR'), Hsz.
    rewrite (length_all_entries_remove a1 b a2 [] e es Hb). simpl.
    destruct a1 as [|x a1]; simpl; rewrite !all_entries_cons; simpl;
      rewrite !length_app; simpl; rewrite ?length_app; simpl; lia. }
  assert (pairs (a1 ++ b :: a2)
          = (pr <$> reverse (es ++ all_entries a2)) ++ [pr e]) as Hout.
  { unfold pairs. rewrite all_entries_mid, (all_entries_empty a1 Hemp), Hb.
    simpl. by rewrite reverse_cons, fmap_app. }
  assert (∃ l1 l2,
            pairs (inserted (a1 ++ with_ents b es :: a2) enew)
            = l1 ++ pr enew :: l2
            ∧ pr <$> reverse (es ++ all_entries a2) = l1 ++ l2)
    as (l1 & l2 & Hout' & Hsplit).
  { unfold pairs. destruct a1 as [|b0 a1']; simpl.
    - exists (pr <$> reverse (all_entries a2)), (pr <$> reverse es).
      rewrite all_entries_cons. simpl.
      rewrite <-app_assoc, !reverse_app, !fmap_app. simpl.
      by rewrite <-app_assoc.
    - apply Forall_cons in Hemp as (Hb0 & Hemp').
      exists (pr <$> reverse (es ++ all_entries a2)), [].
      rewrite all_entries_cons, all_entries_mid. simpl.
      rewrite Hb0, (all_entries_empty a1' Hemp'). simpl.
      rewrite reverse_cons, fmap_app, app_nil_r. done. }
  exists (pr <$> reverse (es ++ all_entries a2)), (ekey e), (evalue e),
    c', l1, l2.
  split_and!; [|done| | |done].
  - rewrite (All_collect fuel' c _ HR Hfb Hfe). by rewrite Hout.
  - apply GetKeyFrequency_miss. rewrite Hi'.
    rewrite lookup_insert_ne by done. apply lookup_delete_eq.
  - rewrite (All_collect fuel' c' _ HR'); [by rewrite Hout'|lia|lia].
Qed.

Lemma Size_step fuel o c a c' :
  Rep c a → exec zeroV fuel o c = Ok c' →
  Size c ≤ Size c' ≤ Size c + 1
  ∧ (Size c = Capacity c → Size c' = Size c)
  ∧ ∃ a', Rep c' a' ∧ capacity c' = capacity c.
Proof.
  intros HR Hex.
  destruct (exec_pic zeroV _ _ _ _ _ HR Hex) as (a' & Hstep & HR' & Hc' & _).
  pose proof (length_step c o a a' HR Hstep) as Hlen.
  rewrite <-(Rep_Size _ _ HR), <-(Rep_Size _ _ HR') in Hlen.
  split_and!; [..|eauto]; unfold evicts in Hlen;
    destruct (inserts o c); simpl in Hlen;
    try case_bool_decide; lia.
Qed.

(** X13: no call shrinks the cache.  Along any run from a reachable
    state, [Size] never decreases and grows by at most 1 per call, it
    stays within [Capacity], which does not change, and a cache that is
    full stays full. *)
Theorem Size_never_decreases fuel c os c' :
  reachable zeroV c → run zeroV fuel os c = Ok c' →
  Size c ≤ Size c' ≤ Size c + Z.of_nat (length os)
  ∧ Size c' ≤ Capacity c'
  ∧ Capacity c' = Capacity c
  ∧ (Size c = Capacity c → Size c' = Capacity c').
Proof.
  intros Hreach Hrun.
  destruct (reachable_pictured zeroV c Hreach) as (h & a & HR & _).
  clear Hreach h. revert c a HR Hrun.
  induction os as [|o os IH]; intros c a HR Hrun; simpl in Hrun.
  - injection Hrun as <-. simpl.
    pose proof HR as (_ & _ & _ & _ & _ & Hcap).
    rewrite <-(Rep_Size _ _ HR) in Hcap. unfold Capacity. lia.
  - destruct (exec zeroV fuel o c) as [c1| |] eqn:Hex; [|done..].
    simpl in Hrun.
    destruct (Size_step _ _ _ _ _ HR Hex) as (Hs & Hfull & a1 & HR1 & Hc1).
    destruct (IH _ _ HR1 Hrun) as (Hs' & Hcap' & Hc' & Hfull').
    unfold Capacity in *. simpl length.
    split_and!; [lia|lia|lia|congruence|].
    intros Heq. rewrite Hfull' by (rewrite Hfull by done; lia). done.
Qed.
End CacheProperties.

(** * The further properties on concrete runs *)

(** [three_nodes] and [three_list] are what three calls of [add] build. *)
Example three_adds :
  (s1 ← add 10 ([], emptyList); s2 ← add 20 s1.2; add 30 s2.2)
  = Ok (Some 2%nat, (three_nodes, three_list)).
Proof. reflexivity. Qed.

Lemma three_dll : dll three_nodes [0; 1; 2]%nat three_list.
Proof.
  split_and!; [apply (bool_decide_unpack _); by vm_compute| |done..].
  simpl. split_and!; eauto.
Qed.

(** [add 40] on the list of three nodes. *)
Lemma add_appends_witness :
  dll three_nodes [0; 1; 2]%nat three_list
  ∧ ∃ h' l',
      add 40 (three_nodes, three_list) = Ok (Some 3%nat, (h', l'))
      ∧ dll h' [0; 1; 2; 3]%nat l'
      ∧ (∀ b, b ∈ [0; 1; 2]%nat → (b < 3)%nat)
      ∧ data <$> h' !! 3%nat = Some 40
      ∧ (∀ b, (b < 3)%nat → data <$> h' !! b = data <$> three_nodes !! b)
      ∧ isEmpty l' = false.
Proof.
  split; [exact three_dll|].
  exact (add_appends three_nodes [0; 1; 2]%nat three_list 40 three_dll).
Defined.

(** [insertAfter] with the middle node as pivot. *)
Lemma insertAfter_links_after_pivot_witness :
  dll three_nodes ([0%nat] ++ 1%nat :: [2%nat]) three_list
  ∧ ∃ h' l',
      insertAfter (Some 1%nat) 25 (three_nodes, three_list)
      = Ok (Some 3%nat, (h', l'))
      ∧ dll h' ([0%nat] ++ 1%nat :: 3%nat :: [2%nat]) l'
      ∧ data <$> h' !! 3%nat = Some 25
      ∧ (∀ b, (b < 3)%nat → data <$> h' !! b = data <$> three_nodes !! b)
      ∧ head l' = head three_list
      ∧ ([2%nat] ≠ [] → tail l' = tail three_list)
      ∧ ([2%nat] = [] → tail l' = Some 3%nat).
Proof.
  split; [exact three_dll|].
  exact (insertAfter_links_after_pivot three_nodes [0%nat] 1%nat [2%nat]
           three_list 25 three_dll).
Defined.

(** [remove] of the middle node. *)
Lemma remove_unlinks_witness :
  dll three_nodes ([0%nat] ++ 1%nat :: [2%nat]) three_list
  ∧ ∃ h' l',
      remove (Some 1%nat) (three_nodes, three_list) = Ok (h', l')
      ∧ dll h' ([0%nat] ++ [2%nat]) l'
      ∧ length h' = length three_nodes
      ∧ (∀ b, data <$> h' !! b = data <$> three_nodes !! b)
      ∧ isEmpty l' = bool_decide ([0%nat] = [] ∧ [2%nat] = []).
Proof.
  split; [exact three_dll|].
  exact (remove_unlinks three_nodes [0%nat] 1%nat [2%nat] three_list
           three_dll).
Defined.

(** [add 40] on the list of three nodes, undone by [remove]. *)
Lemma add_then_remove_witness :
  dll three_nodes [0; 1; 2]%nat three_list
  ∧ ∃ node h' l' h'',
      add 40 (three_nodes, three_list) = Ok (node, (h', l'))
      ∧ remove node (h', l') = Ok (h'', three_list)
      ∧ dll h'' [0; 1; 2]%nat three_list
      ∧ (∀ b, (b < length three_nodes)%nat →
              data <$> h'' !! b = data <$> three_nodes !! b).
Proof.
  split; [exact three_dll|].
  exact (add_then_remove three_nodes [0; 1; 2]%nat three_list 40 three_dll).
Defined.

(** The first node is moved behind the other two. *)
Lemma remove_then_addNode_witness :
  dll three_nodes ([] ++ 0%nat :: [1; 2]%nat) three_list
  ∧ ∃ h' l' h'' l'',
      remove (Some 0%nat) (three_nodes, three_list) = Ok (h', l')
      ∧ addNode (Some 0%nat) (h', l') = Ok (Some 0%nat, (h'', l''))
      ∧ dll h'' ([] ++ [1; 2]%nat ++ [0%nat]) l''
      ∧ tail l'' = Some 0%nat
      ∧ length h'' = length three_nodes
      ∧ (∀ b, data <$> h'' !! b = data <$> three_nodes !! b).
Proof.
  split; [exact three_dll|].
  exact (remove_then_addNode three_nodes [] 0%nat [1; 2]%nat three_list
           three_dll).
Defined.

(** [Get key_a] on the full cache of capacity 2 that holds [key_a] and
    [key_b]. *)
Lemma Get_present_key_witness :
  ∃ (c0 c : cache) p,
    New [2] = Ok c0
    ∧ run 0 4 [CPut key_a 1; CPut key_b 2] c0 = Ok c
    ∧ index c !! key_a = Some p
    ∧ ∃ v f c',
        Get 0 key_a c = Ok ((v, None), c')
        ∧ index c' = index c
        ∧ Size c' = Size c ∧ Capacity c' = Capacity c
        ∧ GetKeyFrequency key_a c = Ok (f, None)
        ∧ GetKeyFrequency key_a c' = Ok (f + 1, None)
        ∧ (∀ k', k' ≠ key_a → GetKeyFrequency k' c' = GetKeyFrequency k' c)
        ∧ (∀ k' v',
             (∃ c1, Get 0 k' c' = Ok ((v', None), c1))
             ↔ (∃ c1, Get 0 k' c = Ok ((v', None), c1))).
Proof.
  eassert (New (K:=nat) (V:=Z) [2] = Ok _) as Hnew by run_model.
  eassert (run 0 4 [CPut key_a 1; CPut key_b 2] _ = Ok _) as Hrun
    by (rewrite_state Hnew; run_model).
  eexists _, _, _. split; [exact Hnew|]. split; [exact Hrun|].
  split; [run_model|].
  eapply (Get_present_key (K:=nat) 0 _ key_a).
  - exact (reachable_run 0 _ _ _ _ _ Hnew Hrun).
  - run_model.
Defined.

(** [Put key_b 2] into the cache of capacity 2 that holds [key_a]. *)
Lemma Put_absent_key_with_room_witness :
  ∃ c0 c : cache,
    New [2] = Ok c0
    ∧ run 0 4 [CPut key_a 1] c0 = Ok c
    ∧ index c !! key_b = None
    ∧ Size c < Capacity c
    ∧ ∃ c',
        Put 0 key_b 2 c = Ok c'
        ∧ dom (index c') = {[key_b]} ∪ dom (index c)
        ∧ Size c' = Size c + 1 ∧ Capacity c' = Capacity c
        ∧ GetKeyFrequency key_b c' = Ok (1, None)
        ∧ (∃ c'', Get 0 key_b c' = Ok ((2, None), c''))
        ∧ (∀ k', k' ≠ key_b → GetKeyFrequency k' c' = GetKeyFrequency k' c)
        ∧ (∀ k' v', k' ≠ key_b →
             (∃ c1, Get 0 k' c' = Ok ((v', None), c1))
             ↔ (∃ c1, Get 0 k' c = Ok ((v', None), c1))).
Proof.
  eassert (New (K:=nat) (V:=Z) [2] = Ok _) as Hnew by run_model.
  eassert (run 0 4 [CPut key_a 1] _ = Ok _) as Hrun
    by (rewrite_state Hnew; run_model).
  eexists _, _. split; [exact Hnew|]. split; [exact Hrun|].
  split; [run_model|]. split; [run_model|].
  apply (Put_absent_key_with_room (K:=nat) 0 0%nat _ key_b 2).
  - exact (reachable_run 0 _ _ _ _ _ Hnew Hrun).
  - run_model.
  - run_model.
Defined.

(** One capacity that is not negative, and two capacities. *)
Lemma New_returns_iff_witness :
  ((length [3] ≤ 1)%nat ∧ Forall (λ cap, 0 ≤ cap) [3])
  ∧ (∃ c0 : cache,
       New [3] = Ok c0
       ∧ Capacity c0 = hd DefaultCapacity [3]
       ∧ Size c0 = 0
       ∧ (∀ k, Get 0 k c0 = Ok ((0, Some ErrKeyNotFound), c0))
       ∧ (∀ fuel S (yield : nat → Z → S → bool * S) s,
            All (Datatypes.S fuel) c0 yield s = Ok (s, c0)))
  ∧ ¬ ((length [1; 2] ≤ 1)%nat ∧ Forall (λ cap, 0 ≤ cap) [1; 2])
  ∧ New (K:=nat) (V:=Z) [1; 2] = Panic.
Proof.
  assert ((length [3] ≤ 1)%nat ∧ Forall (λ cap, 0 ≤ cap) [3]) as Hone.
  { split; [simpl; lia|]. apply Forall_singleton. lia. }
  assert (¬ ((length [1; 2] ≤ 1)%nat ∧ Forall (λ cap, 0 ≤ cap) [1; 2]))
    as Htwo.
  { intros (Hlen & _). simpl in Hlen. lia. }
  split; [exact Hone|].
  split; [exact (proj1 (New_returns_iff (K:=nat) 0 [3]) Hone)|].
  split; [exact Htwo|].
  exact (proj2 (New_returns_iff (K:=nat) 0 [1; 2]) Htwo).
Defined.

(** [key_a] is put and read twice; [key_b] is put once. *)
Lemma frequency_bounds_witness :
  ∃ c0 c : cache,
    New [2] = Ok c0
    ∧ run 0 4 [CPut key_a 1; CGet key_a; CPut key_b 2; CGet key_a] c0 = Ok c
    ∧ GetKeyFrequency key_a c = Ok (3, None)
    ∧ 1 ≤ 3
      ≤ Z.of_nat
          (accesses key_a
             [CPut key_a 1; CGet key_a; CPut key_b 2; CGet key_a]).
Proof.
  eassert (New (K:=nat) (V:=Z) [2] = Ok _) as Hnew by run_model.
  eassert (run 0 4 [CPut key_a 1; CGet key_a; CPut key_b 2; CGet key_a] _
           = Ok _) as Hrun by (rewrite_state Hnew; run_model).
  eexists _, _. split; [exact Hnew|]. split; [exact Hrun|].
  split; [run_model|].
  apply (frequency_bounds (K:=nat) 0 _ _ _ _ _ key_a 3 Hnew Hrun).
  run_model.
Defined.

(** Four calls, two of them evicting, on the cache of capacity 1 that
    holds [key_a], with fuel 1. *)
Lemma calls_never_panic_witness :
  ∃ c0 c : cache,
    New [1] = Ok c0
    ∧ run 0 1 [CPut key_a 1; CGet key_a] c0 = Ok c
    ∧ 1 ≤ Capacity c
    ∧ ∃ c',
        run 0 1 [CPut key_b 2; CGet key_b; CPut key_c 3; CPut key_a 4] c
        = Ok c'.
Proof.
  eassert (New (K:=nat) (V:=Z) [1] = Ok _) as Hnew by run_model.
  eassert (run 0 1 [CPut key_a 1; CGet key_a] _ = Ok _) as Hrun
    by (rewrite_state Hnew; run_model).
  eexists _, _. split; [exact Hnew|]. split; [exact Hrun|].
  split; [run_model|].
  apply (calls_never_panic (K:=nat) 0 0%nat).
  - exact (reachable_run 0 _ _ _ _ _ Hnew Hrun).
  - run_model.
Defined.

(** A key that is cached and one that is not. *)
Lemma reads_never_panic_witness :
  ∃ c0 c : cache,
    New [2] = Ok c0
    ∧ run 0 4 [CPut key_a 1; CGet key_a] c0 = Ok c
    ∧ (∃ v f e c',
         Get 0 key_a c = Ok ((v, e), c')
         ∧ GetKeyFrequency key_a c = Ok (f, e)
         ∧ (e = None ↔ is_Some (index c !! key_a))
         ∧ (e = None → 1 ≤ f)
         ∧ (e ≠ None → e = Some ErrKeyNotFound ∧ v = 0 ∧ f = 0 ∧ c' = c))
    ∧ (∃ v f e c',
         Get 0 key_b c = Ok ((v, e), c')
         ∧ GetKeyFrequency key_b c = Ok (f, e)
         ∧ (e = None ↔ is_Some (index c !! key_b))
         ∧ (e = None → 1 ≤ f)
         ∧ (e ≠ None → e = Some ErrKeyNotFound ∧ v = 0 ∧ f = 0 ∧ c' = c)).
Proof.
  eassert (New (K:=nat) (V:=Z) [2] = Ok _) as Hnew by run_model.
  eassert (run 0 4 [CPut key_a 1; CGet key_a] _ = Ok _) as Hrun
    by (rewrite_state Hnew; run_model).
  pose proof (reachable_run 0 _ _ _ _ _ Hnew Hrun) as Hreach.
  eexists _, _. split; [exact Hnew|]. split; [exact Hrun|]. split.
  - exact (reads_never_panic (K:=nat) 0 _ key_a Hreach).
  - exact (reads_never_panic (K:=nat) 0 _ key_b Hreach).
Defined.

(** [key_a] is put twice, with [key_b] put in between. *)
Lemma cached_value_is_last_put_witness :
  ∃ c0 c c' : cache,
    New [2] = Ok c0
    ∧ run 0 4 [CPut key_a 1; CPut key_b 2; CPut key_a 5] c0 = Ok c
    ∧ Get 0 key_a c = Ok ((5, None), c')
    ∧ last_put [CPut key_a 1; CPut key_b 2; CPut key_a 5] key_a = Some 5.
Proof.
  eassert (New (K:=nat) (V:=Z) [2] = Ok _) as Hnew by run_model.
  eassert (run 0 4 [CPut key_a 1; CPut key_b 2; CPut key_a 5] _ = Ok _)
    as Hrun by (rewrite_state Hnew; run_model).
  eassert (Get 0 key_a _ = Ok ((5, None), _)) as Hget
    by (rewrite_state Hrun; run_model).
  eexists _, _, _. split; [exact Hnew|]. split; [exact Hrun|].
  split; [exact Hget|].
  exact (cached_value_is_last_put (K:=nat) 0 _ _ _ _ _ _ _ _ Hnew Hrun Hget).
Defined.

(** Capacity 2, [key_a] and [key_b] put and [key_a] read: [Put key_c 3]
    evicts the last key of [All]. *)
Lemma evicted_key_is_last_of_All_witness :
  ∃ c0 c : cache,
    New [2] = Ok c0
    ∧ run 0 4 [CPut key_a 1; CPut key_b 2; CGet key_a] c0 = Ok c
    ∧ 1 ≤ Capacity c ∧ Size c = Capacity c
    ∧ index c !! key_c = None
    ∧ (length (bnodes c) ≤ 4)%nat ∧ Size c ≤ Z.of_nat 4
    ∧ ∃ out kv vv c' l1 l2,
        All 4 c collect [] = Ok (out ++ [(kv, vv)], c)
        ∧ Put 1 key_c 3 c = Ok c'
        ∧ GetKeyFrequency kv c' = Ok (0, Some ErrKeyNotFound)
        ∧ All 4 c' collect [] = Ok (l1 ++ (key_c, 3) :: l2, c')
        ∧ out = l1 ++ l2.
Proof.
  eassert (New (K:=nat) (V:=Z) [2] = Ok _) as Hnew by run_model.
  eassert (run 0 4 [CPut key_a 1; CPut key_b 2; CGet key_a] _ = Ok _)
    as Hrun by (rewrite_state Hnew; run_model).
  eexists _, _. split; [exact Hnew|]. split; [exact Hrun|].
  split; [run_model|]. split; [run_model|]. split; [run_model|].
  split; [run_model|]. split; [run_model|].
  apply (evicted_key_is_last_of_All (K:=nat) 0 _ _ _ _ _ key_c 3 0%nat 4%nat
           Hnew Hrun); run_model.
Defined.

(** Three calls on the full cache of capacity 2. *)
Lemma Size_never_decreases_witness :
  ∃ c0 c c' : cache,
    New [2] = Ok c0
    ∧ run 0 4 [CPut key_a 1; CPut key_b 2] c0 = Ok c
    ∧ run 0 4 [CGet key_a; CPut key_c 3; CPut key_a 4] c = Ok c'
    ∧ Size c ≤ Size c'
      ≤ Size c + Z.of_nat (length [CGet key_a; CPut key_c 3; CPut key_a 4])
    ∧ Size c' ≤ Capacity c'
    ∧ Capacity c' = Capacity c
    ∧ (Size c = Capacity c → Size c' = Capacity c').
Proof.
  eassert (New (K:=nat) (V:=Z) [2] = Ok _) as Hnew by run_model.
  eassert (run 0 4 [CPut key_a 1; CPut key_b 2] _ = Ok _) as Hrun
    by (rewrite_state Hnew; run_model).
  eassert (run 0 4 [CGet key_a; CPut key_c 3; CPut key_a 4] _ = Ok _)
    as Hrun' by (rewrite_state Hrun; run_model).
  eexists _, _, _. split; [exact Hnew|]. split; [exact Hrun|].
  split; [exact Hrun'|].
  exact (Size_never_decreases (K:=nat) 0 _ _ _ _
           (reachable_run 0 _ _ _ _ _ Hnew Hrun) Hrun').
Defined.
